(** * Circuitous: shallow embedding of the command line driver, the shadow
    instruction regions, the decoder synthesizer, the e-graph and the
    e-matcher, with the properties stated about them. *)

From Stdlib Require Import ZArith List Bool String Ascii Lia Sorted.
From stdpp Require Import base option list gmap gmultiset strings pretty fin_maps.

Local Open Scope Z_scope.

(** ** src/Main.cpp *)

Module Cli.

Definition EXIT_SUCCESS : Z := 0.
Definition EXIT_FAILURE : Z := 1.

(** The gflags consulted by [main]. *)
Record Flags := {
  FLAGS_arch : string;
  FLAGS_os : string;
  FLAGS_binary_in : string;
  FLAGS_ir_in : string;
  FLAGS_ir_out : string;
  FLAGS_dot_out : string;
  FLAGS_python_out : string;
  FLAGS_smt_out : string;
  FLAGS_json_out : string
}.

(** What a run leaves behind: the process exit code, the lines written to
    [std::cerr], and the sinks that were opened, in order. *)
Inductive Sink := SinkIR | SinkDOT | SinkPython | SinkSMT | SinkJSON.

Record Outcome := {
  exit_code : Z;
  cerr : list string;
  written : list (Sink * string)
}.

Definition str_empty (s : string) : bool :=
  match s with EmptyString => true | _ => false end.

(** [if (FLAGS_x == "-") FLAGS_x = dflt;] *)
Definition dash_to (dflt s : string) : string :=
  if String.eqb s "-" then dflt else s.

Definition sink (k : Sink) (dflt s : string) : list (Sink * string) :=
  if str_empty s then [] else [(k, dash_to dflt s)].

Section Main.

(** The circuit type and the two collaborators that build one; a null
    [unique_ptr] is [None]. *)
Context {Circuit : Type}.
Variable CreateFromInstructions : string -> string -> string -> option Circuit.
Variable Deserialize : string -> option Circuit.

(** The first [if]/[else if]/[else] of [main]: [inl] is the early
    [return EXIT_FAILURE], [inr] the (possibly null) circuit pointer. *)
Definition load_circuit (f : Flags) : string + option Circuit :=
  if negb (str_empty (FLAGS_binary_in f)) then
    inr (CreateFromInstructions (FLAGS_arch f) (FLAGS_os f) (FLAGS_binary_in f))
  else if negb (str_empty (FLAGS_ir_in f)) then
    inr (Deserialize (dash_to "/dev/stdin" (FLAGS_ir_in f)))
  else
    inl "Expected one of `--binary_in` or `--ir_in`"%string.

Definition main (f : Flags) : Outcome :=
  match load_circuit f with
  | inl msg => {| exit_code := EXIT_FAILURE; cerr := [msg]; written := [] |}
  | inr None =>
      {| exit_code := EXIT_FAILURE;
         cerr := ["Failed to get circuit IR"%string];
         written := [] |}
  | inr (Some _) =>
      {| exit_code := EXIT_SUCCESS;
         cerr := [];
         written :=
           sink SinkIR "/dev/stdout" (FLAGS_ir_out f) ++
           sink SinkDOT "/dev/stderr" (FLAGS_dot_out f) ++
           sink SinkPython "/dev/stderr" (FLAGS_python_out f) ++
           sink SinkSMT "/dev/stderr" (FLAGS_smt_out f) ++
           sink SinkJSON "/dev/stderr" (FLAGS_json_out f) |}
  end.

(** The input named by the flags, when there is one, yields a circuit. *)
Definition input_loaded (f : Flags) : bool :=
  match load_circuit f with
  | inr (Some _) => true
  | _ => false
  end.

Definition input_missing (f : Flags) : bool :=
  str_empty (FLAGS_binary_in f) && str_empty (FLAGS_ir_in f).

End Main.

Definition only_binary_in (path : string) : Flags :=
  {| FLAGS_arch := "amd64"; FLAGS_os := "linux";
     FLAGS_binary_in := path; FLAGS_ir_in := EmptyString;
     FLAGS_ir_out := EmptyString; FLAGS_dot_out := EmptyString; FLAGS_python_out := EmptyString;
     FLAGS_smt_out := EmptyString; FLAGS_json_out := EmptyString |}.

Definition only_ir_in (path : string) : Flags :=
  {| FLAGS_arch := EmptyString; FLAGS_os := EmptyString;
     FLAGS_binary_in := EmptyString; FLAGS_ir_in := path;
     FLAGS_ir_out := EmptyString; FLAGS_dot_out := EmptyString; FLAGS_python_out := EmptyString;
     FLAGS_smt_out := EmptyString; FLAGS_json_out := EmptyString |}.

(** C7, as the code has it: the exit code is 0 when a circuit was obtained,
    and 1 in both failure cases, a missing input and a lift or deserialize
    that returns no circuit alike; no path returns 2. *)
Theorem main_exit_code {Circuit : Type}
    (lift : string -> string -> string -> option Circuit)
    (deser : string -> option Circuit) (f : Flags) :
  exit_code (main lift deser f) =
    (if input_missing f then 1
     else if input_loaded lift deser f then 0 else 1) /\
  exit_code (main lift deser f) <> 2.
Proof.
  unfold main, input_loaded, input_missing, load_circuit.
  destruct (str_empty (FLAGS_binary_in f)) eqn:Hb; simpl.
  - destruct (str_empty (FLAGS_ir_in f)) eqn:Hi; simpl.
    + split; [reflexivity | discriminate].
    + destruct (deser _); simpl; (split; [reflexivity | discriminate]).
  - destruct (lift _ _ _); simpl; (split; [reflexivity | discriminate]).
Qed.

(** C7 fails as stated: a lift that returns no circuit ends the process
    with code 1, and so does a deserialize that returns none. *)
Lemma main_lift_failure_exits_1 :
  exit_code (main (Circuit := unit) (fun _ _ _ => None) (fun _ => None)
               (only_binary_in "a.bin")) = 1 /\
  exit_code (main (Circuit := unit) (fun _ _ _ => None) (fun _ => None)
               (only_ir_in "a.ir")) = 1 /\
  exit_code (main (Circuit := unit) (fun _ _ _ => None) (fun _ => None)
               (only_binary_in "a.bin")) <> 2.
Proof. repeat split; try reflexivity. discriminate. Qed.

(** *** What a run leaves behind *)

(** X21: a run that fails opens none of the outputs: [main] returns before
    the first of them, and what [main] itself has then reported is one
    line, the missing input when neither input flag is set and the
    missing circuit otherwise. A run fails exactly when the input named
    by the flags yields no circuit. *)
Theorem main_failure_writes_nothing {Circuit : Type}
    (lift : string -> string -> string -> option Circuit)
    (deser : string -> option Circuit) (f : Flags) :
  if input_loaded lift deser f
  then exit_code (main lift deser f) = EXIT_SUCCESS
  else exit_code (main lift deser f) = EXIT_FAILURE /\
       written (main lift deser f) = [] /\
       cerr (main lift deser f) =
         [if input_missing f
          then "Expected one of `--binary_in` or `--ir_in`"%string
          else "Failed to get circuit IR"%string].
Proof.
  unfold main, input_loaded, input_missing, load_circuit.
  destruct (str_empty (FLAGS_binary_in f)) eqn:Hb; simpl.
  - destruct (str_empty (FLAGS_ir_in f)) eqn:Hi; simpl; [auto|].
    destruct (deser _); simpl; auto.
  - destruct (lift _ _ _); simpl; auto.
Qed.

(** X22: when [--binary_in] is given, [--ir_in] is not looked at: the run
    is the same whatever [--ir_in] names and whatever deserializing would
    give. *)
Theorem binary_in_takes_precedence {Circuit : Type}
    (lift : string -> string -> string -> option Circuit)
    (deser deser' : string -> option Circuit) (f : Flags) (ir_in : string)
    (Hbin : str_empty (FLAGS_binary_in f) = false) :
  main lift deser f =
  main lift deser'
    {| FLAGS_arch := FLAGS_arch f; FLAGS_os := FLAGS_os f;
       FLAGS_binary_in := FLAGS_binary_in f; FLAGS_ir_in := ir_in;
       FLAGS_ir_out := FLAGS_ir_out f; FLAGS_dot_out := FLAGS_dot_out f;
       FLAGS_python_out := FLAGS_python_out f;
       FLAGS_smt_out := FLAGS_smt_out f;
       FLAGS_json_out := FLAGS_json_out f |}.
Proof.
  unfold main, load_circuit. simpl. rewrite Hbin. simpl. reflexivity.
Qed.

Lemma binary_in_takes_precedence_witness :
  main (Circuit := unit) (fun _ _ _ => Some tt) (fun _ => None)
    (only_binary_in "a.bin") =
  main (Circuit := unit) (fun _ _ _ => Some tt) (fun _ => Some tt)
    {| FLAGS_arch := "amd64"; FLAGS_os := "linux";
       FLAGS_binary_in := "a.bin"; FLAGS_ir_in := "b.ir";
       FLAGS_ir_out := EmptyString; FLAGS_dot_out := EmptyString;
       FLAGS_python_out := EmptyString; FLAGS_smt_out := EmptyString;
       FLAGS_json_out := EmptyString |}.
Proof.
  apply (binary_in_takes_precedence (Circuit := unit) (fun _ _ _ => Some tt)
           (fun _ => None) (fun _ => Some tt) (only_binary_in "a.bin") "b.ir").
  reflexivity.
Defined.

Lemma sink_path k dflt s p :
  dflt <> "-"%string -> dflt <> EmptyString ->
  In (k, p) (sink k dflt s) -> p <> "-"%string /\ p <> EmptyString.
Proof.
  intros Hd He. unfold sink, dash_to.
  destruct s as [|c s]; [intros []|]. cbn [str_empty].
  destruct (String.eqb_spec (String c s) "-") as [E|E];
    intros [H|[]]; injection H as <-; split; first [assumption|discriminate].
Qed.

Lemma sink_kind k k' dflt s p : In (k', p) (sink k dflt s) -> k' = k.
Proof.
  unfold sink. destruct (str_empty s); [intros []|].
  now intros [[= <- _]|[]].
Qed.

(** X23: no output is ever opened on the path ["-"] or on the empty path:
    a dash has been replaced by the standard stream of that output, and an
    empty flag opens nothing; and each kind of output is opened at most
    once, in the order IR, DOT, Python, SMT, JSON. *)
Theorem main_sinks {Circuit : Type}
    (lift : string -> string -> string -> option Circuit)
    (deser : string -> option Circuit) (f : Flags) :
  Forall (fun kp => snd kp <> "-"%string /\ snd kp <> EmptyString)
    (written (main lift deser f)) /\
  sublist (map fst (written (main lift deser f)))
    [SinkIR; SinkDOT; SinkPython; SinkSMT; SinkJSON].
Proof.
  unfold main. destruct (load_circuit lift deser f) as [msg|[c|]]; simpl;
    try (split; [constructor | apply sublist_nil_l]).
  split.
  - rewrite !Forall_app. repeat split; apply List.Forall_forall;
      intros [k p] Hin; simpl;
      pose proof (sink_kind _ _ _ _ _ Hin) as ->;
      eapply sink_path; try exact Hin; discriminate.
  - rewrite !map_app.
    change [SinkIR; SinkDOT; SinkPython; SinkSMT; SinkJSON]
      with ([SinkIR] ++ [SinkDOT] ++ [SinkPython] ++ [SinkSMT] ++ [SinkJSON]).
    repeat apply sublist_app;
      unfold sink; destruct (str_empty _); simpl;
      first [apply sublist_nil_l | reflexivity].
Qed.

End Cli.

(** ** Shadow instruction regions (circ::shadowinst) *)

Module Shadowinst.

(** [uint64_t] arithmetic. *)
Definition wrap64 (z : Z) : Z := z mod 2 ^ 64.

(** [region_t = std::map<uint64_t, uint64_t>], {from, size}: the entries in
    the order the map iterates them, by ascending key. *)
Definition region_t := list (Z * Z).

(** [out[k] = v] on a [std::map]: insert in key order, or overwrite. *)
Fixpoint assign (k v : Z) (m : region_t) : region_t :=
  match m with
  | [] => [(k, v)]
  | (k', v') :: rest =>
      if k <? k' then (k, v) :: m
      else if k =? k' then (k, v) :: rest
      else (k', v') :: assign k v rest
  end.

(** The [for] loop of [Invert], threading [current] and [out]. *)
Fixpoint Invert_loop (what : region_t) (current : Z) (out : region_t)
  : Z * region_t :=
  match what with
  | [] => (current, out)
  | (from, size) :: rest =>
      let out' :=
        if negb (current =? from)
        then assign current (wrap64 (from - current)) out
        else out in
      Invert_loop rest (wrap64 (from + size)) out'
  end.

Definition Invert (what : region_t) (lenght : Z) : region_t :=
  let '(current, out) := Invert_loop what 0 [] in
  if negb (current =? lenght)
  then assign current (wrap64 (lenght - current)) out
  else out.

(** [has_regions::present] *)
Definition covers (idx : Z) (r : Z * Z) : bool :=
  (fst r <=? idx) && (idx <? wrap64 (fst r + snd r)).

Definition present (regions : region_t) (idx : Z) : bool :=
  existsb (covers idx) regions.

(** The parts of [Address], [Operand] and [Instruction] that carry regions
    ([Reg], [Immediate] and [Shift] all derive from [has_regions]). *)
Record Address := {
  base_reg : option region_t;
  index_reg : option region_t;
  segment : option region_t;
  scale : option region_t;
  displacement : option region_t
}.

Record Operand := {
  immediate : option region_t;
  reg : option region_t;
  address : option Address;
  shift : option region_t
}.

Definition Instruction := list Operand.

(** [for (auto [from, size] : src) out[from] = size;] *)
Definition assign_all (src : region_t) (out : region_t) : region_t :=
  fold_left (fun o r => assign (fst r) (snd r) o) src out.

Definition assign_opt (src : option region_t) (out : region_t) : region_t :=
  match src with
  | Some r => assign_all r out
  | None => out
  end.

Definition IdentifiedRegions_op (out : region_t) (op : Operand) : region_t :=
  let out := assign_opt (immediate op) out in
  let out := assign_opt (reg op) out in
  let out := assign_opt (shift op) out in
  match address op with
  | Some a =>
      assign_opt (displacement a)
        (assign_opt (scale a)
           (assign_opt (index_reg a)
              (assign_opt (base_reg a) out)))
  | None => out
  end.

Definition IdentifiedRegions (inst : Instruction) : region_t :=
  fold_left IdentifiedRegions_op inst [].

Definition UnknownRegions (inst : Instruction) (lenght : Z) : region_t :=
  Invert (IdentifiedRegions inst) lenght.

(** Regions laid out in key order from [lo] on, none reaching past
    [lenght]; with [gap] each region starts strictly after the end of the
    one before it (disjoint and not adjacent), without it at or after. *)
Fixpoint chain (gap : bool) (lo : Z) (what : region_t) (lenght : Z) : Prop :=
  match what with
  | [] => lo <= lenght
  | (from, size) :: rest =>
      (if gap then lo < from else lo <= from) /\ 0 <= size /\
      chain gap (from + size) rest lenght
  end.

(** The regions of a map are pairwise disjoint, non-adjacent and contained
    in [0, lenght): the first starts at or after 0, every later one
    strictly after the end of its predecessor, the last ends at or before
    [lenght]. *)
Definition separated (what : region_t) (lenght : Z) : Prop :=
  lenght < 2 ^ 64 /\
  match what with
  | [] => 0 <= lenght
  | (from, size) :: rest =>
      0 <= from /\ 0 <= size /\ chain true (from + size) rest lenght
  end.

Lemma chain_weaken gap lo what lenght :
  chain gap lo what lenght -> chain false lo what lenght.
Proof.
  revert lo; induction what as [|[from size] rest IH]; simpl; intros lo H.
  - destruct gap; lia.
  - destruct H as (H1 & H2 & H3). repeat split; auto.
    destruct gap; lia.
Qed.

Lemma separated_chain what lenght :
  separated what lenght -> chain false 0 what lenght /\ lenght < 2 ^ 64.
Proof.
  intros [Hl H]. split; auto. destruct what as [|[from size] rest]; simpl; auto.
  destruct H as (H1 & H2 & H3). repeat split; auto.
  eapply chain_weaken; eauto.
Qed.

Lemma chain_le lo what lenght : chain false lo what lenght -> lo <= lenght.
Proof.
  revert lo; induction what as [|[from size] rest IH]; simpl; intros lo H; auto.
  destruct H as (H1 & H2 & H3). apply IH in H3. lia.
Qed.

Lemma wrap64_small z : 0 <= z < 2 ^ 64 -> wrap64 z = z.
Proof. intros H. unfold wrap64. apply Z.mod_small. exact H. Qed.

Lemma present_app m1 m2 idx :
  present (m1 ++ m2) idx = present m1 idx || present m2 idx.
Proof. unfold present. apply existsb_app. Qed.

Lemma assign_append k v m :
  Forall (fun e => fst e < k) m -> assign k v m = m ++ [(k, v)].
Proof.
  induction 1 as [|[k' v'] rest Hk Hrest IH]; simpl; auto.
  simpl in Hk.
  destruct (Z.ltb_spec k k'); [lia|].
  destruct (Z.eqb_spec k k'); [lia|].
  now rewrite IH.
Qed.

Lemma present_chain_bounds lo what lenght idx :
  chain false lo what lenght -> lenght < 2 ^ 64 -> 0 <= lo ->
  present what idx = true -> lo <= idx < lenght.
Proof.
  revert lo; induction what as [|[from size] rest IH]; simpl; intros lo H Hl Hlo Hp.
  - discriminate.
  - destruct H as (H1 & H2 & H3).
    pose proof (chain_le _ _ _ H3) as Hend.
    apply orb_true_iff in Hp. destruct Hp as [Hp|Hp].
    + unfold covers in Hp; simpl in Hp.
      rewrite wrap64_small in Hp by lia.
      apply andb_true_iff in Hp. destruct Hp as [Ha Hb].
      apply Z.leb_le in Ha. apply Z.ltb_lt in Hb. lia.
    + specialize (IH (from + size) H3 Hl ltac:(lia) Hp). lia.
Qed.

(** What [Invert_loop] leaves in [out]: the gaps between [current] and the
    end of the last region, and nothing else that was not there before. *)
Lemma Invert_loop_spec what lenght : lenght < 2 ^ 64 ->
  forall current out, 0 <= current ->
  chain false current what lenght ->
  Forall (fun e => fst e < current) out ->
  let r := Invert_loop what current out in
  current <= fst r <= lenght /\
  Forall (fun e => fst e < fst r) (snd r) /\
  (forall idx, present what idx = true -> idx < fst r) /\
  forall idx,
    present (snd r) idx =
    present out idx ||
    ((current <=? idx) && (idx <? fst r) && negb (present what idx)).
Proof.
  intros Hl. induction what as [|[from size] rest IH]; intros current out Hc Hch Hout.
  - simpl in *. repeat split; auto; try lia; try discriminate.
    intros idx. destruct (Z.leb_spec current idx), (Z.ltb_spec idx current);
      simpl; try lia; now rewrite ?orb_false_r.
  - simpl in Hch. destruct Hch as (H1 & H2 & H3).
    pose proof (chain_le _ _ _ H3) as Hend.
    cbn [Invert_loop].
    rewrite (wrap64_small (from + size)) by lia.
    rewrite (wrap64_small (from - current)) by lia.
    set (out' := if negb (current =? from)
                 then assign current (from - current) out else out).
    assert (Hout' : Forall (fun e => fst e < from + size) out').
    { subst out'. destruct (Z.eqb_spec current from); simpl.
      - eapply Forall_impl; [exact Hout|]. simpl; intros; lia.
      - rewrite assign_append by exact Hout.
        apply Forall_app. split.
        + eapply Forall_impl; [exact Hout|]. simpl; intros; lia.
        + constructor; [simpl; lia|constructor]. }
    assert (Hp' : forall idx, present out' idx =
              present out idx || ((current <=? idx) && (idx <? from))).
    { intros idx. subst out'. destruct (Z.eqb_spec current from); simpl.
      - destruct (Z.leb_spec current idx), (Z.ltb_spec idx from);
          simpl; try lia; now rewrite ?orb_false_r.
      - rewrite assign_append by exact Hout. rewrite present_app.
        f_equal. unfold present, covers; simpl.
        rewrite orb_false_r. rewrite wrap64_small by lia.
        now replace (current + (from - current)) with from by lia. }
    specialize (IH (from + size) out' ltac:(lia) H3 Hout').
    cbv zeta in IH. destruct IH as (Ha & Hb & Hc' & Hd).
    set (r := Invert_loop rest (from + size) out') in *.
    cbv zeta. repeat split; auto; try lia.
    + intros idx Hp. simpl in Hp. apply orb_true_iff in Hp.
      destruct Hp as [Hp|Hp]; [|now apply Hc'].
      unfold covers in Hp; simpl in Hp. rewrite wrap64_small in Hp by lia.
      apply andb_true_iff in Hp. destruct Hp as [_ Hp].
      apply Z.ltb_lt in Hp. lia.
    + intros idx. rewrite Hd, Hp'. simpl present.
      unfold covers at 1; simpl. rewrite wrap64_small by lia.
      destruct (present rest idx) eqn:Hr.
      * pose proof (present_chain_bounds _ _ _ _ H3 Hl ltac:(lia) Hr).
        destruct (Z.leb_spec current idx), (Z.ltb_spec idx from),
          (Z.leb_spec (from + size) idx), (Z.ltb_spec idx (fst r)),
          (Z.leb_spec from idx), (Z.ltb_spec idx (from + size));
          simpl; try lia; now rewrite ?orb_false_r, ?orb_true_r.
      * destruct (Z.leb_spec current idx), (Z.ltb_spec idx from),
          (Z.leb_spec (from + size) idx), (Z.ltb_spec idx (fst r)),
          (Z.leb_spec from idx), (Z.ltb_spec idx (from + size));
          simpl; try lia; now rewrite ?orb_false_r, ?orb_true_r.
Qed.

(** [Invert] of disjoint regions inside [0, lenght), adjacent or not,
    covers exactly the indices below [lenght] that the regions leave out. *)
Lemma Invert_present what lenght idx :
  chain false 0 what lenght -> lenght < 2 ^ 64 -> 0 <= idx ->
  present (Invert what lenght) idx =
  (idx <? lenght) && negb (present what idx).
Proof.
  intros Hch Hl Hidx.
  pose proof (Invert_loop_spec what lenght Hl 0 [] ltac:(lia) Hch
                ltac:(constructor)) as H.
  cbv zeta in H. unfold Invert.
  destruct (Invert_loop what 0 []) as [current out] eqn:E. simpl in H.
  destruct H as (Ha & Hb & Hc & Hd).
  assert (Hfin : present (if negb (current =? lenght)
                          then assign current (wrap64 (lenght - current)) out
                          else out) idx =
                 present out idx || ((current <=? idx) && (idx <? lenght))).
  { destruct (Z.eqb_spec current lenght); simpl.
    - destruct (Z.leb_spec current idx), (Z.ltb_spec idx lenght);
        simpl; try lia; now rewrite ?orb_false_r.
    - rewrite assign_append by exact Hb. rewrite present_app. f_equal.
      unfold present, covers; simpl. rewrite orb_false_r.
      rewrite (wrap64_small (lenght - current)) by lia.
      replace (current + (lenght - current)) with lenght by lia.
      now rewrite wrap64_small by lia. }
  rewrite Hfin, Hd. simpl present at 1. simpl.
  destruct (present what idx) eqn:Hp.
  - apply Hc in Hp.
    destruct (Z.leb_spec 0 idx), (Z.ltb_spec idx current),
      (Z.leb_spec current idx), (Z.ltb_spec idx lenght);
      simpl; try lia; reflexivity.
  - destruct (Z.leb_spec 0 idx), (Z.ltb_spec idx current),
      (Z.leb_spec current idx), (Z.ltb_spec idx lenght);
      simpl; try lia; reflexivity.
Qed.

(** [separated] read region by region: for the non-empty regions of a map
    (keys ascending), no index in two regions, no region ending where
    another starts and none ending after [lenght] make the map
    [separated]. *)
Lemma chain_of_pointwise lenght what : forall lo,
  match what with
  | [] => lo <= lenght
  | r :: _ => lo < fst r
  end ->
  StronglySorted (fun r1 r2 => fst r1 < fst r2) what ->
  Forall (fun r => 0 < snd r /\ fst r + snd r <= lenght) what ->
  (forall r1 r2 idx, In r1 what -> In r2 what -> r1 <> r2 ->
     fst r1 <= idx < fst r1 + snd r1 -> fst r2 <= idx < fst r2 + snd r2 ->
     False) ->
  (forall r1 r2, In r1 what -> In r2 what -> fst r1 + snd r1 <> fst r2) ->
  chain true lo what lenght.
Proof.
  induction what as [|[from size] rest IH]; intros lo Hlo Hsort Hwf Hdis Hadj;
    simpl in *; [exact Hlo|].
  apply StronglySorted_inv in Hsort. destruct Hsort as [Hsort Hlt].
  apply Forall_cons in Hwf. destruct Hwf as [[Hsz Hend] Hwf]. simpl in *.
  split; [exact Hlo|]. split; [lia|].
  apply IH;
    [ | exact Hsort | exact Hwf
      | intros r1 r2 idx H1 H2; apply Hdis; auto
      | intros r1 r2 H1 H2; apply Hadj; auto ].
  destruct rest as [|[from' size'] rest']; [exact Hend|]. simpl.
  apply Forall_cons in Hlt. destruct Hlt as [Hlt _]. simpl in Hlt.
  apply Forall_cons in Hwf. destruct Hwf as [[Hsz' _] _]. simpl in Hsz'.
  destruct (Z.lt_trichotomy (from + size) from') as [H|[H|H]]; [exact H| |].
  - exfalso. apply (Hadj (from, size) (from', size')); simpl; auto.
  - exfalso.
    apply (Hdis (from, size) (from', size') from'); simpl; auto; try lia.
    intros [= -> ->]. lia.
Qed.

Lemma separated_of_pointwise what lenght :
  0 <= lenght < 2 ^ 64 ->
  StronglySorted (fun r1 r2 => fst r1 < fst r2) what ->
  Forall (fun r => 0 <= fst r /\ 0 < snd r /\ fst r + snd r <= lenght) what ->
  (forall r1 r2 idx, In r1 what -> In r2 what -> r1 <> r2 ->
     fst r1 <= idx < fst r1 + snd r1 -> fst r2 <= idx < fst r2 + snd r2 ->
     False) ->
  (forall r1 r2, In r1 what -> In r2 what -> fst r1 + snd r1 <> fst r2) ->
  separated what lenght.
Proof.
  intros Hl Hsort Hwf Hdis Hadj. split; [lia|].
  destruct what as [|[from size] rest]; [lia|].
  assert (Hch : chain true (from - 1) ((from, size) :: rest) lenght).
  { apply chain_of_pointwise; auto; simpl; [lia|].
    eapply Forall_impl; [exact Hwf|]. simpl. intros r (? & ? & ?). auto. }
  apply Forall_cons in Hwf. destruct Hwf as [(H0 & Hsz & _) _]. simpl in *.
  destruct Hch as (_ & _ & Hch). repeat split; auto; lia.
Qed.

(** C9: for a region map whose regions are pairwise disjoint, non-adjacent
    and contained in [0, lenght), every index of [0, lenght) is covered by
    exactly one of the map and [Invert] of it, [Invert] covers nothing from
    [lenght] on, and so [UnknownRegions] of an instruction covers exactly
    the positions below [lenght] that its [IdentifiedRegions] do not. *)
Theorem Invert_exact_complement (what : region_t) (lenght : Z)
    (Hsep : separated what lenght) :
  (forall idx, 0 <= idx < lenght ->
     xorb (present what idx) (present (Invert what lenght) idx) = true) /\
  (forall idx, lenght <= idx ->
     present (Invert what lenght) idx = false) /\
  (forall inst idx, IdentifiedRegions inst = what -> 0 <= idx < lenght ->
     present (UnknownRegions inst lenght) idx =
     negb (present (IdentifiedRegions inst) idx)).
Proof.
  apply separated_chain in Hsep. destruct Hsep as [Hch Hl].
  pose proof (chain_le _ _ _ Hch) as H0.
  repeat split.
  - intros idx Hidx. rewrite Invert_present by (auto; lia).
    destruct (Z.ltb_spec idx lenght); [|lia].
    simpl. now destruct (present what idx).
  - intros idx Hidx. rewrite Invert_present by (auto; lia).
    destruct (Z.ltb_spec idx lenght); [lia|reflexivity].
  - intros inst idx Hinst Hidx. unfold UnknownRegions. rewrite Hinst.
    rewrite Invert_present by (auto; lia).
    destruct (Z.ltb_spec idx lenght); [reflexivity|lia].
Qed.

(** An instruction with a register operand on bits [2, 5) and an immediate
    on bit 8, in a 12 bit encoding. *)
Definition sample_inst : Instruction :=
  [ {| immediate := None; reg := Some [(2, 3)]; address := None; shift := None |};
    {| immediate := Some [(8, 1)]; reg := None; address := None; shift := None |} ].

Lemma Invert_exact_complement_witness :
  separated [(2, 3); (8, 1)] 12 /\
  Invert [(2, 3); (8, 1)] 12 = [(0, 2); (5, 3); (9, 3)] /\
  xorb (present [(2, 3); (8, 1)] 5)
       (present (Invert [(2, 3); (8, 1)] 12) 5) = true /\
  present (UnknownRegions sample_inst 12) 3 =
  negb (present (IdentifiedRegions sample_inst) 3).
Proof.
  assert (Hsep : separated [(2, 3); (8, 1)] 12).
  { unfold separated; simpl. lia. }
  destruct (Invert_exact_complement [(2, 3); (8, 1)] 12 Hsep) as (H1 & _ & H3).
  split; [exact Hsep|]. split; [reflexivity|]. split.
  - apply H1. lia.
  - apply H3; [reflexivity | lia].
Defined.

(** *** Regions built from bits *)

(** [uint32_t] arithmetic. *)
Definition wrap32 (z : Z) : Z := z mod 2 ^ 32.

(** [bits_t = std::vector<bool>]; [ordered_bits_t] stores the bits in
    reverse. *)
Definition ordered_bits_t (data_ : list bool) : list bool := rev data_.

(** [regions.emplace(k, v)]: no effect when the key is present. *)
Definition emplace (k v : Z) (m : region_t) : region_t :=
  if existsb (fun e => fst e =? k) m then m else assign k v m.

(** The two loops of [has_regions(const ordered_bits_t &)], bit by bit: [i]
    is the index of the head of [bits]; [run] is [Some (offset, count)]
    inside the inner loop and [None] outside. The inner loop stops on a
    clear bit (or at the end) and the region is emplaced; the [++i] of the
    outer loop then steps over that clear bit. *)
Fixpoint scan_bits (bits : list bool) (i : Z) (run : option (Z * Z))
    (regions : region_t) : region_t :=
  match bits with
  | [] =>
      match run with
      | Some (offset, count) => emplace offset count regions
      | None => regions
      end
  | b :: rest =>
      match run, b with
      | None, false => scan_bits rest (i + 1) None regions
      | None, true => scan_bits rest (i + 1) (Some (i, wrap32 (0 + 1))) regions
      | Some (offset, count), true =>
          scan_bits rest (i + 1) (Some (offset, wrap32 (count + 1))) regions
      | Some (offset, count), false =>
          scan_bits rest (i + 1) None (emplace offset count regions)
      end
  end.

(** [has_regions(const ordered_bits_t &)] and [has_regions(const bits_t &)] *)
Definition has_regions_ordered (data : list bool) : region_t :=
  scan_bits data 0 None [].

Definition has_regions_bits (bits : list bool) : region_t :=
  has_regions_ordered (ordered_bits_t bits).

(** [region_bitsize] *)
Definition region_bitsize (regions : region_t) : Z :=
  fold_left (fun acc r => wrap64 (acc + snd r)) regions 0.

(** [region_idxs] *)
Definition region_idxs (regions : region_t) : list Z :=
  flat_map (fun r => map (fun i => wrap64 (fst r + i)) (seqZ 0 (snd r))) regions.

(** [biggest_chunk] *)
Definition biggest_chunk (regions : region_t) : Z * Z :=
  fold_left (fun out r => if snd r >? snd out then r else out) regions (0, 0).

(** The number of set bits. *)
Fixpoint count_set (bits : list bool) : Z :=
  match bits with
  | [] => 0
  | b :: rest => (if b then 1 else 0) + count_set rest
  end.

Lemma count_set_bounds bits : 0 <= count_set bits <= Z.of_nat (length bits).
Proof.
  induction bits as [|b rest IH]; simpl length; simpl count_set; [lia|].
  destruct b; lia.
Qed.

Lemma emplace_append k v m :
  Forall (fun e => fst e < k) m -> emplace k v m = m ++ [(k, v)].
Proof.
  intros H. unfold emplace.
  assert (Hno : existsb (fun e => fst e =? k) m = false).
  { induction H as [|e m He Hm IH]; simpl; [reflexivity|].
    rewrite IH. destruct (Z.eqb_spec (fst e) k); [lia | reflexivity]. }
  rewrite Hno. now apply assign_append.
Qed.

Lemma chain_snoc gap R : forall lo e from size lenght,
  chain gap lo R e -> (if gap then e < from else e <= from) ->
  0 <= size -> from + size <= lenght ->
  chain gap lo (R ++ [(from, size)]) lenght.
Proof.
  induction R as [|[f s] R IH]; intros lo e from size lenght Hc He Hs Hl;
    simpl in *.
  - destruct gap; repeat split; lia.
  - destruct Hc as (H1 & H2 & H3). repeat split; auto.
    eapply IH; eauto.
Qed.

Lemma chain_relax gap R : forall lo e e',
  chain gap lo R e -> e <= e' -> chain gap lo R e'.
Proof.
  induction R as [|[f s] R IH]; intros lo e e' Hc He; simpl in *; [lia|].
  destruct Hc as (H1 & H2 & H3). repeat split; eauto.
Qed.

Lemma chain_keys gap R : forall lo e,
  chain gap lo R e -> Forall (fun r => fst r <= e) R.
Proof.
  induction R as [|[f s] R IH]; intros lo e Hc; simpl in *; constructor.
  - destruct Hc as (H1 & H2 & H3). simpl.
    apply chain_weaken in H3. apply chain_le in H3. lia.
  - destruct Hc as (H1 & H2 & H3). eapply IH; eauto.
Qed.

Lemma region_bitsize_snoc R from size :
  region_bitsize (R ++ [(from, size)]) = wrap64 (region_bitsize R + size).
Proof. unfold region_bitsize. now rewrite fold_left_app. Qed.

Ltac bool_lia :=
  repeat match goal with
         | |- context [present ?r ?x] => generalize (present r x); intros [|]
         | |- context [nth ?k ?l false] => generalize (nth k l false); intros [|]
         end;
  lia.

(** What the scan has found, at every point of it. *)
Lemma scan_bits_spec bits : forall i run regions,
  0 <= i -> i + Z.of_nat (length bits) < 2 ^ 32 ->
  match run with
  | Some (offset, count) => 0 <= offset /\ 0 < count /\ offset + count = i
  | None => True
  end ->
  let lo := match run with Some (offset, _) => offset | None => i end in
  let n := match run with Some (_, count) => count | None => 0 end in
  chain true (-1) regions (lo - 1) ->
  0 <= region_bitsize regions -> region_bitsize regions + n <= i ->
  let r := scan_bits bits i run regions in
  chain true (-1) r (i + Z.of_nat (length bits)) /\
  region_bitsize r = region_bitsize regions + n + count_set bits /\
  forall idx,
    present r idx =
    present regions idx || (lo <=? idx) && (idx <? i)
    || (i <=? idx) && nth (Z.to_nat (idx - i)) bits false.
Proof.
  assert (Hclose : forall regions offset count i,
    0 <= offset -> 0 < count -> offset + count = i -> i < 2 ^ 32 ->
    chain true (-1) regions (offset - 1) ->
    0 <= region_bitsize regions -> region_bitsize regions + count <= i ->
    let r := emplace offset count regions in
    chain true (-1) r i /\
    region_bitsize r = region_bitsize regions + count /\
    forall idx, present r idx =
      present regions idx || (offset <=? idx) && (idx <? i)).
  { intros regions offset count i H0 Hc Hi Hb Hch Hb0 Hb1.
    assert (Hk : Forall (fun e => fst e < offset) regions).
    { apply chain_keys in Hch. eapply Forall_impl; [exact Hch|].
      simpl. intros; lia. }
    cbv zeta. rewrite emplace_append by exact Hk. split; [|split].
    - eapply chain_snoc; eauto; simpl; lia.
    - rewrite region_bitsize_snoc. apply wrap64_small. lia.
    - intros idx. rewrite present_app. f_equal.
      unfold present, covers; simpl. rewrite orb_false_r.
      rewrite wrap64_small by lia. now replace (offset + count) with i by lia. }
  induction bits as [|b rest IH]; intros i run regions Hi Hlen Hrun lo n Hch Hb0 Hb1.
  - simpl length in *. simpl scan_bits. simpl count_set.
    destruct run as [[offset count]|]; subst lo n.
    + destruct Hrun as (H0 & Hc & Hoff).
      destruct (Hclose regions offset count i H0 Hc Hoff ltac:(simpl; lia) Hch Hb0 Hb1)
        as (A & B & C).
      cbv zeta. split; [|split].
      * eapply chain_relax; [exact A|lia].
      * rewrite B. lia.
      * intros idx. rewrite C. destruct (Z.to_nat (idx - i)); simpl;
          now rewrite andb_false_r, orb_false_r.
    + cbv zeta. split; [|split].
      * eapply chain_relax; [exact Hch|lia].
      * lia.
      * intros idx. destruct (Z.to_nat (idx - i)); simpl;
          rewrite andb_false_r, orb_false_r; bool_lia.
  - assert (Hnth : forall idx, i + 1 <= idx ->
              nth (Z.to_nat (idx - i)) (b :: rest) false =
              nth (Z.to_nat (idx - (i + 1))) rest false).
    { intros idx Hidx.
      replace (Z.to_nat (idx - i)) with (S (Z.to_nat (idx - (i + 1)))) by lia.
      reflexivity. }
    assert (Hhd : nth (Z.to_nat (i - i)) (b :: rest) false = b).
    { now rewrite Z.sub_diag. }
    simpl length in *. rewrite Nat2Z.inj_succ in *.
    destruct run as [[offset count]|]; subst lo n; destruct b;
      cbn [scan_bits count_set].
    + destruct Hrun as (H0 & Hc & Hoff).
      replace (wrap32 (count + 1)) with (count + 1) by (unfold wrap32; rewrite Z.mod_small; lia).
      destruct (IH (i + 1) (Some (offset, count + 1)) regions
                  ltac:(simpl; lia) ltac:(simpl; lia) ltac:(simpl; lia) Hch Hb0 ltac:(simpl; lia))
        as (A & B & C).
      cbv zeta. split; [|split].
      * replace (i + Z.succ (Z.of_nat (length rest)))
          with (i + 1 + Z.of_nat (length rest)) by lia. exact A.
      * rewrite B. lia.
      * intros idx. rewrite C.
        destruct (Z.leb_spec (i + 1) idx).
        -- rewrite <- Hnth by lia.
           bool_lia.
        -- destruct (Z.eq_dec idx i) as [->|].
           ++ rewrite Hhd. bool_lia.
           ++ bool_lia.
    + destruct Hrun as (H0 & Hc & Hoff).
      destruct (Hclose regions offset count i H0 Hc Hoff ltac:(simpl; lia) Hch Hb0 Hb1)
        as (A & B & C).
      destruct (IH (i + 1) None (emplace offset count regions)
                  ltac:(simpl; lia) ltac:(simpl; lia) I
                  ltac:(eapply chain_relax; [exact A|simpl; lia])
                  ltac:(simpl; lia) ltac:(simpl; lia))
        as (A' & B' & C').
      cbv zeta. split; [|split].
      * replace (i + Z.succ (Z.of_nat (length rest)))
          with (i + 1 + Z.of_nat (length rest)) by lia. exact A'.
      * rewrite B', B. lia.
      * intros idx. rewrite C', C.
        destruct (Z.leb_spec (i + 1) idx).
        -- rewrite <- Hnth by lia.
           bool_lia.
        -- destruct (Z.eq_dec idx i) as [->|].
           ++ rewrite Hhd. bool_lia.
           ++ bool_lia.
    + change (wrap32 (0 + 1)) with 1.
      destruct (IH (i + 1) (Some (i, 1)) regions
                  ltac:(simpl; lia) ltac:(simpl; lia) ltac:(simpl; lia) Hch Hb0 ltac:(simpl; lia))
        as (A & B & C).
      cbv zeta. split; [|split].
      * replace (i + Z.succ (Z.of_nat (length rest)))
          with (i + 1 + Z.of_nat (length rest)) by lia. exact A.
      * rewrite B. lia.
      * intros idx. rewrite C.
        destruct (Z.leb_spec (i + 1) idx).
        -- rewrite <- Hnth by lia.
           bool_lia.
        -- destruct (Z.eq_dec idx i) as [->|].
           ++ rewrite Hhd. bool_lia.
           ++ bool_lia.
    + destruct (IH (i + 1) None regions
                  ltac:(simpl; lia) ltac:(simpl; lia) I
                  ltac:(eapply chain_relax; [exact Hch|simpl; lia]) Hb0 ltac:(simpl; lia))
        as (A & B & C).
      cbv zeta. split; [|split].
      * replace (i + Z.succ (Z.of_nat (length rest)))
          with (i + 1 + Z.of_nat (length rest)) by lia. exact A.
      * rewrite B. lia.
      * intros idx. rewrite C.
        destruct (Z.leb_spec (i + 1) idx).
        -- rewrite <- Hnth by lia.
           bool_lia.
        -- destruct (Z.eq_dec idx i) as [->|].
           ++ rewrite Hhd. bool_lia.
           ++ bool_lia.
Qed.

Lemma separated_of_chain what lenght :
  chain true (-1) what lenght -> 0 <= lenght < 2 ^ 64 -> separated what lenght.
Proof.
  intros Hch Hl. split; [lia|].
  destruct what as [|[from size] rest]; simpl in *; [lia|].
  destruct Hch as (H1 & H2 & H3). repeat split; auto. lia.
Qed.

Lemma has_regions_ordered_spec data :
  Z.of_nat (length data) < 2 ^ 32 ->
  chain true (-1) (has_regions_ordered data) (Z.of_nat (length data)) /\
  region_bitsize (has_regions_ordered data) = count_set data /\
  forall idx, 0 <= idx ->
    present (has_regions_ordered data) idx = nth (Z.to_nat idx) data false.
Proof.
  intros Hlen. unfold has_regions_ordered.
  destruct (scan_bits_spec data 0 None [] ltac:(lia) ltac:(lia) I
              ltac:(simpl; lia) ltac:(unfold region_bitsize; simpl; lia)
              ltac:(unfold region_bitsize; simpl; lia))
    as (A & B & C).
  cbv zeta in *. simpl in A. split; [exact A|]. split.
  - rewrite B. unfold region_bitsize. simpl. lia.
  - intros idx Hidx. rewrite C. simpl. rewrite Z.sub_0_r.
    destruct (Z.leb_spec 0 idx); [|lia].
    destruct (Z.ltb_spec idx 0); [lia|]. reflexivity.
Qed.

(** X1: the regions built from a bit vector cover exactly the set bits: an
    index is present in [has_regions(ordered_bits_t)] exactly when that bit
    of the stored data is set, and in [has_regions(bits_t)] exactly when
    the bit at the mirrored position of the given vector is set. *)
Theorem has_regions_present_iff_bit (bits : list bool) (idx : Z)
    (Hlen : Z.of_nat (length bits) < 2 ^ 32)
    (Hidx : 0 <= idx < Z.of_nat (length bits)) :
  present (has_regions_ordered bits) idx = nth (Z.to_nat idx) bits false /\
  present (has_regions_bits bits) idx =
    nth (length bits - 1 - Z.to_nat idx) bits false.
Proof.
  split.
  - apply has_regions_ordered_spec; [exact Hlen | lia].
  - unfold has_regions_bits, ordered_bits_t.
    destruct (has_regions_ordered_spec (rev bits)) as (_ & _ & H).
    + now rewrite length_rev.
    + rewrite H by lia. rewrite rev_nth by lia. f_equal. lia.
Qed.

Lemma has_regions_present_iff_bit_witness :
  present (has_regions_ordered [true; true; false; true]) 3 = true /\
  present (has_regions_bits [true; true; false; true]) 1 = false /\
  has_regions_ordered [true; true; false; true] = [(0, 2); (3, 1)].
Proof.
  destruct (has_regions_present_iff_bit [true; true; false; true] 3
              ltac:(vm_compute; reflexivity) ltac:(simpl; lia)) as [H1 _].
  destruct (has_regions_present_iff_bit [true; true; false; true] 1
              ltac:(vm_compute; reflexivity) ltac:(simpl; lia)) as [_ H2].
  split; [exact H1|]. split; [exact H2 | reflexivity].
Defined.

(** X2: [region_bitsize] of the regions built from a bit vector is the
    number of set bits. *)
Theorem has_regions_bitsize (bits : list bool)
    (Hlen : Z.of_nat (length bits) < 2 ^ 32) :
  region_bitsize (has_regions_ordered bits) = count_set bits.
Proof.
  destruct (has_regions_ordered_spec bits Hlen) as (_ & Hsize & _).
  exact Hsize.
Qed.

Lemma has_regions_bitsize_witness :
  region_bitsize (has_regions_ordered [true; true; false; true]) = 3.
Proof.
  exact (has_regions_bitsize [true; true; false; true]
           ltac:(vm_compute; reflexivity)).
Defined.

(** X3: the regions built from a bit vector are pairwise disjoint,
    non-adjacent and inside the vector, and [Invert] of them over the
    length of the vector covers exactly the clear bits. *)
Theorem has_regions_invert_clear_bits (bits : list bool) (idx : Z)
    (Hlen : Z.of_nat (length bits) < 2 ^ 32)
    (Hidx : 0 <= idx < Z.of_nat (length bits)) :
  separated (has_regions_ordered bits) (Z.of_nat (length bits)) /\
  present (Invert (has_regions_ordered bits) (Z.of_nat (length bits))) idx =
    negb (nth (Z.to_nat idx) bits false).
Proof.
  destruct (has_regions_ordered_spec bits Hlen) as (A & _ & C).
  assert (Hsep : separated (has_regions_ordered bits) (Z.of_nat (length bits))).
  { apply separated_of_chain; [exact A|]. lia. }
  split; [exact Hsep|].
  apply separated_chain in Hsep. destruct Hsep as [Hch Hl].
  rewrite Invert_present by (auto; lia). rewrite C by lia.
  destruct (Z.ltb_spec idx (Z.of_nat (length bits))); [reflexivity | lia].
Qed.

Lemma has_regions_invert_clear_bits_witness :
  Invert (has_regions_ordered [true; true; false; true]) 4 = [(2, 1)] /\
  present (Invert (has_regions_ordered [true; true; false; true]) 4) 2 = true.
Proof.
  split; [reflexivity|].
  exact (proj2 (has_regions_invert_clear_bits [true; true; false; true] 2
                  ltac:(vm_compute; reflexivity) ltac:(simpl; lia))).
Defined.

(** X4: for regions that do not run past the end of [uint64_t],
    [region_idxs] lists exactly the indices that are [present]. *)
Theorem region_idxs_present (regions : region_t) (idx : Z)
    (Hwf : Forall (fun r => 0 <= fst r /\ 0 <= snd r /\
                            fst r + snd r < 2 ^ 64) regions) :
  In idx (region_idxs regions) <-> present regions idx = true.
Proof.
  unfold region_idxs, present. rewrite in_flat_map, existsb_exists.
  split; intros ([from size] & Hin & H); exists (from, size); (split; [exact Hin|]);
    pose proof (proj1 (List.Forall_forall _ _) Hwf _ Hin) as (H0 & Hs & He);
    simpl in *.
  - apply in_map_iff in H. destruct H as (i & <- & Hi).
    apply list_elem_of_In, elem_of_seqZ in Hi.
    unfold covers; simpl. rewrite !wrap64_small by lia. lia.
  - unfold covers in H; simpl in H. rewrite wrap64_small in H by lia.
    apply in_map_iff. exists (idx - from). split.
    + rewrite wrap64_small by lia. lia.
    + apply list_elem_of_In, elem_of_seqZ. lia.
Qed.

Lemma region_idxs_present_witness :
  region_idxs [(2, 3); (8, 1)] = [2; 3; 4; 8] /\
  present [(2, 3); (8, 1)] 4 = true.
Proof.
  split; [reflexivity|].
  apply (region_idxs_present [(2, 3); (8, 1)] 4).
  - repeat constructor; simpl; lia.
  - vm_compute. auto.
Defined.

(** X5: [biggest_chunk] returns a region at least as large as every region
    of the map, and it is one of them unless it is the initial [{0, 0}]. *)
Theorem biggest_chunk_largest (regions : region_t) :
  Forall (fun r => snd r <= snd (biggest_chunk regions)) regions /\
  (biggest_chunk regions = (0, 0) \/ In (biggest_chunk regions) regions).
Proof.
  unfold biggest_chunk.
  assert (H : forall (l : region_t) (out : Z * Z),
    let b := fold_left (fun (out r : Z * Z) => if snd r >? snd out then r else out)
               l out in
    snd out <= snd b /\ Forall (fun r => snd r <= snd b) l /\
    (b = out \/ In b l)).
  { induction l as [|r l IH]; intros out; simpl.
    - repeat split; auto; lia.
    - destruct (IH (if snd r >? snd out then r else out)) as (A & B & C).
      cbv zeta in *.
      destruct (Z.gtb_spec (snd r) (snd out)) as [Hgt|Hle].
      + split; [lia|]. split; [constructor; [lia | exact B]|].
        destruct C as [C|C]; [right; left; now rewrite C | right; now right].
      + split; [exact A|]. split; [constructor; [lia | exact B]|].
        destruct C as [C|C]; [now left | right; now right]. }
  destruct (H regions (0, 0)) as (_ & B & C). split; [exact B | exact C].
Qed.

(** *** Growing a region map *)

(** [regions.erase(k)] *)
Definition erase (k : Z) (m : region_t) : region_t :=
  List.filter (fun e => negb (fst e =? k)) m.

(** The value read by [regions[k]]; an absent key reads as the fresh 0. *)
Definition index_value (k : Z) (m : region_t) : Z :=
  match List.find (fun e => fst e =? k) m with
  | Some e => snd e
  | None => 0
  end.

(** [has_regions::pre] *)
Definition pre (anchor from size : Z) (regions : region_t) : region_t :=
  let original_end := wrap64 (anchor + index_value anchor regions) in
  let regions := erase anchor regions in
  assign from (Z.max (wrap64 (original_end - from)) size) regions.

(** [has_regions::post] *)
Definition post (anchor from size : Z) (regions : region_t) : region_t :=
  assign anchor
    (Z.max (index_value anchor regions) (wrap64 (wrap64 (from + size) - anchor)))
    regions.

(** The loop of [has_regions::add(from, size)] over the entries [rest] still
    to visit, and the assignment after it. *)
Fixpoint add_loop (rest : region_t) (from size : Z) (regions : region_t)
  : region_t :=
  match rest with
  | [] => assign from size regions
  | (x, y) :: rest' =>
      if (x <=? from) && (wrap64 (x + y) >=? from) then post x from size regions
      else if (from <=? x) && (wrap64 (from + size) >=? x)
           then pre x from size regions
           else add_loop rest' from size regions
  end.

Definition add (from size : Z) (regions : region_t) : region_t :=
  add_loop regions from size regions.

(** [has_regions::add(const has_regions &)] *)
Definition add_all (other regions : region_t) : region_t :=
  fold_left (fun m r => add (fst r) (snd r) m) other regions.

(** The invariant of a [std::map] of regions: keys ascending, and no region
    running past the end of [uint64_t]. *)
Definition keys_sorted (m : region_t) : Prop :=
  StronglySorted (fun a b => fst a < fst b) m.

Definition in_range (r : Z * Z) : Prop :=
  0 <= fst r /\ 0 <= snd r /\ fst r + snd r < 2 ^ 64.

Lemma erase_gt k m : Forall (fun e => k < fst e) m -> erase k m = m.
Proof.
  induction 1 as [|e m He Hm IH]; simpl; [reflexivity|].
  destruct (Z.eqb_spec (fst e) k); [lia|]. simpl. now rewrite IH.
Qed.

Lemma erase_absent k m : Forall (fun e => fst e <> k) m -> erase k m = m.
Proof.
  induction 1 as [|e m He Hm IH]; simpl; [reflexivity|].
  destruct (Z.eqb_spec (fst e) k); [contradiction|]. simpl. now rewrite IH.
Qed.

Lemma keys_sorted_inv e m :
  keys_sorted (e :: m) -> keys_sorted m /\ Forall (fun a => fst e < fst a) m.
Proof. apply StronglySorted_inv. Qed.

Lemma assign_keys k v m :
  forall e, In e (assign k v m) -> e = (k, v) \/ In e m.
Proof.
  induction m as [|[k' v'] m IH]; simpl; intros e He.
  - destruct He as [<-|[]]. now left.
  - destruct (k <? k'); [|destruct (k =? k')]; simpl in He.
    + destruct He as [<-|He]; auto.
    + destruct He as [<-|He]; auto.
    + destruct He as [<-|He]; auto. destruct (IH e He); auto.
Qed.

Lemma assign_sorted k v m : keys_sorted m -> keys_sorted (assign k v m).
Proof.
  induction m as [|[k' v'] m IH]; simpl; intros Hs.
  - repeat constructor.
  - apply keys_sorted_inv in Hs. destruct Hs as [Hs Hlt]. simpl in Hlt.
    destruct (Z.ltb_spec k k'); [|destruct (Z.eqb_spec k k')].
    + constructor; [constructor; auto|]. constructor; [simpl; lia|].
      eapply Forall_impl; [exact Hlt|]. simpl. intros; lia.
    + subst. constructor; auto.
    + constructor; [now apply IH|].
      apply List.Forall_forall. intros e He.
      destruct (assign_keys _ _ _ _ He) as [->|He']; [simpl; lia|].
      exact (proj1 (List.Forall_forall _ _) Hlt _ He').
Qed.

Lemma erase_sorted k m : keys_sorted m -> keys_sorted (erase k m).
Proof.
  induction m as [|e m IH]; simpl; intros Hs; [constructor|].
  apply keys_sorted_inv in Hs. destruct Hs as [Hs Hlt].
  destruct (negb (fst e =? k)); [|now apply IH].
  constructor; [now apply IH|].
  apply List.Forall_forall. intros a Ha. apply filter_In in Ha.
  exact (proj1 (List.Forall_forall _ _) Hlt _ (proj1 Ha)).
Qed.

Ltac bool_cases :=
  repeat match goal with
         | |- context [present ?m ?i] => generalize (present m i); intros [|]
         | |- context [covers ?i ?r] => generalize (covers i r); intros [|]
         end;
  try reflexivity.

Lemma present_assign k v m idx :
  keys_sorted m ->
  present (assign k v m) idx = covers idx (k, v) || present (erase k m) idx.
Proof.
  induction m as [|[k' v'] m IH]; simpl; intros Hs; [reflexivity|].
  apply keys_sorted_inv in Hs. destruct Hs as [Hs Hlt]. simpl in Hlt.
  destruct (Z.ltb_spec k k'); [|destruct (Z.eqb_spec k k')].
  - destruct (Z.eqb_spec k' k); [lia|]. simpl.
    rewrite erase_gt; [reflexivity|].
    eapply Forall_impl; [exact Hlt|]. simpl. intros; lia.
  - subst. rewrite Z.eqb_refl. simpl.
    rewrite erase_gt by exact Hlt. reflexivity.
  - destruct (Z.eqb_spec k' k); [lia|]. simpl.
    change (existsb (covers idx) (assign k v m)) with (present (assign k v m) idx).
    rewrite (IH Hs).
    change (existsb (covers idx) (erase k m)) with (present (erase k m) idx).
    bool_cases.
Qed.

Lemma present_erase k y m idx :
  keys_sorted m -> In (k, y) m ->
  present m idx = covers idx (k, y) || present (erase k m) idx.
Proof.
  induction m as [|[k' v'] m IH]; simpl; intros Hs Hin; [destruct Hin|].
  apply keys_sorted_inv in Hs. destruct Hs as [Hs Hlt]. simpl in Hlt.
  destruct Hin as [[= -> ->]|Hin].
  - rewrite Z.eqb_refl. simpl. rewrite erase_gt by exact Hlt. reflexivity.
  - pose proof (proj1 (List.Forall_forall _ _) Hlt _ Hin) as Hk. simpl in Hk.
    destruct (Z.eqb_spec k' k); [lia|]. simpl.
    change (existsb (covers idx) m) with (present m idx).
    rewrite (IH Hs Hin).
    change (existsb (covers idx) (erase k m)) with (present (erase k m) idx).
    bool_cases.
Qed.

Lemma index_value_in k y m :
  keys_sorted m -> In (k, y) m -> index_value k m = y.
Proof.
  unfold index_value.
  induction m as [|[k' v'] m IH]; simpl; intros Hs Hin; [destruct Hin|].
  apply keys_sorted_inv in Hs. destruct Hs as [Hs Hlt]. simpl in Hlt.
  destruct Hin as [[= -> ->]|Hin].
  - now rewrite Z.eqb_refl.
  - pose proof (proj1 (List.Forall_forall _ _) Hlt _ Hin) as Hk. simpl in Hk.
    destruct (Z.eqb_spec k' k); [lia|]. now apply IH.
Qed.

Definition untriggered (from size : Z) (e : Z * Z) : Prop :=
  (fst e <=? from) && (wrap64 (fst e + snd e) >=? from) = false /\
  (from <=? fst e) && (wrap64 (from + size) >=? fst e) = false.

Definition well_formed (regions : region_t) : Prop :=
  keys_sorted regions /\ Forall in_range regions.

Lemma covers_range idx k v :
  in_range (k, v) -> covers idx (k, v) = (k <=? idx) && (idx <? k + v).
Proof.
  intros (H1 & H2 & H3). simpl in *. unfold covers. simpl.
  rewrite wrap64_small by lia. reflexivity.
Qed.

Lemma erase_in k m e : In e (erase k m) -> In e m.
Proof. intros H. apply filter_In in H. tauto. Qed.

Lemma assign_well_formed k v m :
  well_formed m -> in_range (k, v) -> well_formed (assign k v m).
Proof.
  intros [Hs Hr] Hkv. split; [now apply assign_sorted|].
  apply List.Forall_forall. intros e He.
  destruct (assign_keys _ _ _ _ He) as [->|He']; [exact Hkv|].
  exact (proj1 (List.Forall_forall _ _) Hr _ He').
Qed.

Lemma erase_well_formed k m : well_formed m -> well_formed (erase k m).
Proof.
  intros [Hs Hr]. split; [now apply erase_sorted|].
  apply List.Forall_forall. intros e He. apply erase_in in He.
  exact (proj1 (List.Forall_forall _ _) Hr _ He).
Qed.

Lemma add_loop_spec from size regions :
  well_formed regions -> in_range (from, size) ->
  forall rest visited,
    regions = visited ++ rest ->
    Forall (untriggered from size) visited ->
    well_formed (add_loop rest from size regions) /\
    forall idx,
      present (add_loop rest from size regions) idx =
      present regions idx || ((from <=? idx) && (idx <? from + size)).
Proof.
  intros Hwf Hfs. pose proof Hwf as [Hs Hr].
  pose proof Hfs as (Hf0 & Hs0 & Hfs64). simpl in Hf0, Hs0, Hfs64.
  induction rest as [|[x y] rest IH]; intros visited Heq Hvis.
  - rewrite app_nil_r in Heq. subst visited. simpl.
    split; [now apply assign_well_formed|].
    intros idx. rewrite present_assign by exact Hs.
    rewrite erase_absent.
    + rewrite covers_range by exact Hfs. bool_cases; lia.
    + apply List.Forall_forall. intros e He.
      pose proof (proj1 (List.Forall_forall _ _) Hvis _ He) as [U1 U2].
      pose proof (proj1 (List.Forall_forall _ _) Hr _ He) as (R1 & R2 & R3).
      rewrite wrap64_small in U1 by lia. lia.
  - assert (Hin : In (x, y) regions)
      by (rewrite Heq; apply in_or_app; right; now left).
    pose proof (proj1 (List.Forall_forall _ _) Hr _ Hin) as Hxy.
    pose proof Hxy as (X1 & X2 & X3). simpl in X1, X2, X3.
    simpl.
    rewrite (wrap64_small (x + y)) by lia.
    rewrite (wrap64_small (from + size)) by lia.
    destruct ((x <=? from) && (x + y >=? from)) eqn:C1.
    + unfold post. rewrite (index_value_in x y regions Hs Hin).
      rewrite (wrap64_small (from + size)) by lia.
      rewrite (wrap64_small (from + size - x)) by lia.
      assert (Hnew : in_range (x, Z.max y (from + size - x)))
        by (unfold in_range; simpl; lia).
      split; [now apply assign_well_formed|].
      intros idx. rewrite present_assign by exact Hs.
      rewrite (present_erase x y regions idx Hs Hin).
      rewrite (covers_range _ _ _ Hnew), (covers_range _ _ _ Hxy).
      bool_cases; lia.
    + destruct ((from <=? x) && (from + size >=? x)) eqn:C2.
      * unfold pre. rewrite (index_value_in x y regions Hs Hin).
        rewrite (wrap64_small (x + y)) by lia.
        rewrite (wrap64_small (x + y - from)) by lia.
        assert (Hnew : in_range (from, Z.max (x + y - from) size))
          by (unfold in_range; simpl; lia).
        split; [apply assign_well_formed;
                [now apply erase_well_formed|exact Hnew]|].
        intros idx.
        rewrite present_assign by (now apply erase_sorted).
        rewrite (present_erase x y regions idx Hs Hin).
        rewrite (erase_absent from (erase x regions)).
        -- rewrite (covers_range _ _ _ Hnew), (covers_range _ _ _ Hxy).
           bool_cases; lia.
        -- apply List.Forall_forall. intros e He. apply erase_in in He.
           rewrite Heq in He, Hs.
           apply in_app_or in He. destruct He as [He|[<-|He]].
           ++ pose proof (proj1 (List.Forall_forall _ _) Hvis _ He) as [U1 U2].
              assert (He' : In e regions)
                by (rewrite Heq; apply in_or_app; now left).
              pose proof (proj1 (List.Forall_forall _ _) Hr _ He')
                as (R1 & R2 & R3).
              rewrite wrap64_small in U1 by lia. lia.
           ++ simpl. lia.
           ++ clear -Hs He C1 C2 X2.
              induction visited as [|v visited IHv]; simpl in Hs.
              ** apply keys_sorted_inv in Hs. destruct Hs as [_ Hlt].
                 pose proof (proj1 (List.Forall_forall _ _) Hlt _ He) as L.
                 simpl in L. lia.
              ** apply keys_sorted_inv in Hs. now apply IHv.
      * apply (IH (visited ++ [(x, y)])).
        -- now rewrite <- app_assoc.
        -- apply Forall_app. split; [exact Hvis|].
           constructor; [|constructor]. split; simpl.
           ++ rewrite wrap64_small by lia. exact C1.
           ++ rewrite wrap64_small by lia. exact C2.
Qed.

(** X6: on a well-formed region map (keys ascending, no region past the end
    of [uint64_t]) [has_regions::add(from, size)] yields a well-formed map
    that covers exactly what the old map covered and the positions of
    [[from, from + size)]. *)
Theorem add_covers_union (from size : Z) (regions : region_t)
  (Hwf : well_formed regions) (Hin : in_range (from, size)) :
  well_formed (add from size regions) /\
  forall idx,
    present (add from size regions) idx =
    present regions idx || ((from <=? idx) && (idx <? from + size)).
Proof.
  unfold add. apply (add_loop_spec from size regions Hwf Hin regions []).
  - reflexivity.
  - constructor.
Qed.

Lemma add_covers_union_witness :
  well_formed (add 3 4 [(0, 2); (6, 3)]) /\
  forall idx,
    present (add 3 4 [(0, 2); (6, 3)]) idx =
    present [(0, 2); (6, 3)] idx || ((3 <=? idx) && (idx <? 3 + 4)).
Proof.
  apply add_covers_union.
  - split; [repeat constructor; simpl; lia|].
    repeat constructor; simpl; lia.
  - unfold in_range; simpl; lia.
Defined.

Lemma add_all_spec other : forall regions,
  well_formed regions -> Forall in_range other ->
  well_formed (add_all other regions) /\
  forall idx,
    present (add_all other regions) idx =
    present regions idx || present other idx.
Proof.
  induction other as [|[from size] other IH]; intros regions Hwf Hother.
  - split; [exact Hwf|]. intros idx. simpl. now rewrite orb_false_r.
  - inversion Hother as [|? ? Hfs Hrest]; subst.
    destruct (add_loop_spec from size regions Hwf Hfs regions [] eq_refl
                (List.Forall_nil _)) as [Hwf' Hp].
    destruct (IH (add from size regions) Hwf' Hrest) as [Hwf'' Hp'].
    split; [exact Hwf''|].
    intros idx. change (add_all ((from, size) :: other) regions)
      with (add_all other (add from size regions)).
    rewrite Hp'. unfold add. rewrite Hp.
    change (present ((from, size) :: other) idx)
      with (covers idx (from, size) || present other idx).
    rewrite (covers_range _ _ _ Hfs). bool_cases.
Qed.

(** X7: [has_regions::add(const has_regions &)] on well-formed maps covers
    exactly the union of the two maps. *)
Theorem add_all_covers_union (other regions : region_t)
  (Hwf : well_formed regions) (Hother : Forall in_range other) :
  forall idx,
    present (add_all other regions) idx =
    present regions idx || present other idx.
Proof.
  destruct (add_all_spec other regions Hwf Hother) as [_ Hpresent].
  exact Hpresent.
Qed.

Lemma add_all_covers_union_witness :
  present (add_all [(1, 3); (10, 2)] [(0, 2); (6, 3)]) 11 =
  present [(0, 2); (6, 3)] 11 || present [(1, 3); (10, 2)] 11.
Proof.
  apply add_all_covers_union.
  - split; [repeat constructor; simpl; lia|].
    repeat constructor; simpl; lia.
  - repeat constructor; simpl; lia.
Defined.

(** *** Presence in the parts of an instruction *)

Definition present_opt (o : option region_t) (idx : Z) : bool :=
  match o with
  | Some r => present r idx
  | None => false
  end.

(** [Address::present]: [ForEach] visits base, index, segment, scale and
    displacement, and [out |= op.present(idx)] collects. *)
Definition Address_present (a : Address) (idx : Z) : bool :=
  let out := false in
  let out := out || present_opt (base_reg a) idx in
  let out := out || present_opt (index_reg a) idx in
  let out := out || present_opt (segment a) idx in
  let out := out || present_opt (scale a) idx in
  let out := out || present_opt (displacement a) idx in
  out.

(** [Operand::present] over [for_each_existing]. *)
Definition Operand_present (op : Operand) (idx : Z) : bool :=
  let out := false in
  let out := out || present_opt (immediate op) idx in
  let out := out || present_opt (reg op) idx in
  let out := out || match address op with
                    | Some a => Address_present a idx
                    | None => false
                    end in
  let out := out || present_opt (shift op) idx in
  out.

(** [Instruction::present] *)
Definition Instruction_present (inst : Instruction) (idx : Z) : bool :=
  existsb (fun op => Operand_present op idx) inst.

Lemma assign_all_in src : forall out e,
  In e (assign_all src out) -> In e src \/ In e out.
Proof.
  unfold assign_all.
  induction src as [|[k v] src IH]; simpl; intros out e He; [now right|].
  destruct (IH _ _ He) as [H|H]; [now left; right|].
  destruct (assign_keys _ _ _ _ H) as [->|H']; [now left; left | now right].
Qed.

Lemma assign_opt_in src out e idx :
  In e (assign_opt src out) -> covers idx e = true ->
  present_opt src idx = true \/ In e out.
Proof.
  destruct src as [r|]; simpl; intros He Hc; [|now right].
  destruct (assign_all_in _ _ _ He) as [H|H]; [left | now right].
  unfold present. apply existsb_exists. now exists e.
Qed.

Lemma IdentifiedRegions_op_in out op e idx :
  In e (IdentifiedRegions_op out op) -> covers idx e = true ->
  Operand_present op idx = true \/ In e out.
Proof.
  unfold IdentifiedRegions_op, Operand_present, Address_present.
  intros He Hc. destruct (address op) as [a|].
  - repeat match type of He with
           | In e (assign_opt ?s ?o) =>
               destruct (assign_opt_in s o e idx He Hc) as [->|He'];
               [left; rewrite ?orb_true_r; reflexivity|];
               clear He; rename He' into He
           end.
    now right.
  - repeat match type of He with
           | In e (assign_opt ?s ?o) =>
               destruct (assign_opt_in s o e idx He Hc) as [->|He'];
               [left; rewrite ?orb_true_r; reflexivity|];
               clear He; rename He' into He
           end.
    now right.
Qed.

Lemma IdentifiedRegions_in inst : forall out e idx,
  In e (fold_left IdentifiedRegions_op inst out) -> covers idx e = true ->
  Instruction_present inst idx = true \/ In e out.
Proof.
  induction inst as [|op inst IH]; simpl; intros out e idx He Hc;
    [now right|].
  destruct (IH _ _ _ He Hc) as [->|H]; [left; apply orb_true_r|].
  destruct (IdentifiedRegions_op_in _ _ _ _ H Hc) as [->|H'];
    [now left | now right].
Qed.

(** X8: every position covered by a region of
    [Instruction::IdentifiedRegions] is reported by [Instruction::present]:
    the collected map holds only regions of the operands. *)
Theorem IdentifiedRegions_within_present (inst : Instruction) (idx : Z)
  (H : present (IdentifiedRegions inst) idx = true) :
  Instruction_present inst idx = true.
Proof.
  unfold present in H. apply existsb_exists in H. destruct H as (e & He & Hc).
  destruct (IdentifiedRegions_in inst [] e idx He Hc) as [Hp|[]].
  exact Hp.
Qed.

Lemma IdentifiedRegions_within_present_witness :
  present (IdentifiedRegions sample_inst) 3 = true /\
  Instruction_present sample_inst 3 = true.
Proof.
  split; [reflexivity|].
  apply IdentifiedRegions_within_present. reflexivity.
Defined.

(** X9: when the identified regions are separated, every bit below
    [lenght] that no operand claims lies in a region of
    [Instruction::UnknownRegions]. *)
Theorem unclaimed_bits_are_unknown (inst : Instruction) (lenght idx : Z)
  (Hsep : separated (IdentifiedRegions inst) lenght)
  (Hidx : 0 <= idx < lenght)
  (Hfree : Instruction_present inst idx = false) :
  present (UnknownRegions inst lenght) idx = true.
Proof.
  unfold UnknownRegions.
  destruct (separated_chain _ _ Hsep) as [Hch Hlen].
  rewrite Invert_present by (auto; lia).
  destruct (present (IdentifiedRegions inst) idx) eqn:Hp.
  - unfold present in Hp. apply existsb_exists in Hp.
    destruct Hp as (e & He & Hc).
    destruct (IdentifiedRegions_in inst [] e idx He Hc) as [Hp|[]].
    congruence.
  - simpl. rewrite andb_true_r. lia.
Qed.

Lemma unclaimed_bits_are_unknown_witness :
  present (UnknownRegions sample_inst 12) 6 = true.
Proof.
  apply unclaimed_bits_are_unknown.
  - split; [lia|]. simpl. lia.
  - lia.
  - reflexivity.
Defined.

(** *** Printing and filtering the bytes of an instruction *)

(** [static_cast< uint8_t >(byte_)] *)
Definition byte_value (c : ascii) : Z := Z.of_N (N_of_ascii c).

(** A [uint16_t] that is 0 or 1, as [operator<<] prints it. *)
Definition bit_char (v : Z) : ascii := if v =? 0 then "0"%char else "1"%char.

(** [to_binary] *)
Definition to_binary (bytes : list ascii) : list ascii :=
  flat_map (fun byte_ =>
              let byte := byte_value byte_ in
              map (fun b => bit_char (Z.land (Z.shiftr byte b) 1))
                  [7; 6; 5; 4; 3; 2; 1; 0]) bytes.

(** A digit of [std::hex] output. *)
Definition hex_digit (v : Z) : ascii :=
  nth (Z.to_nat v)
      ["0"; "1"; "2"; "3"; "4"; "5"; "6"; "7"; "8"; "9";
       "a"; "b"; "c"; "d"; "e"; "f"]%char "0"%char.

(** An [unsigned] below 256 under [std::hex]: no leading zero. *)
Definition print_hex (v : Z) : list ascii :=
  if v <? 16 then [hex_digit v] else [hex_digit (v / 16); hex_digit (v mod 16)].

(** [to_hex] *)
Definition to_hex (bytes : list ascii) : list ascii :=
  flat_map (fun byte =>
              (if byte_value byte <? 16 then ["0"%char] else []) ++
              print_hex (byte_value byte)) bytes.

(** [remove_shadowed]: the loop over [i], threading [out]. *)
Definition remove_shadowed (s_inst : Instruction) (bytes : list ascii)
  : list ascii :=
  fold_left
    (fun out i =>
       if Instruction_present s_inst (Z.of_nat i)
       then out ++ [nth (length bytes - 1 - i) bytes Ascii.zero]
       else out)
    (seq 0 (length bytes)) [].

Lemma nth_error_chunks {A B} (f : A -> list B) (k : nat) l : forall i j a,
  (forall x, length (f x) = k) ->
  nth_error l i = Some a -> (j < k)%nat ->
  nth_error (flat_map f l) (k * i + j) = nth_error (f a) j.
Proof.
  induction l as [|x l IH]; intros i j a Hk Hi Hj; [destruct i; discriminate|].
  cbn [flat_map]. destruct i as [|i]; simpl in Hi.
  - injection Hi as ->. rewrite Nat.mul_0_r. simpl.
    apply nth_error_app1. now rewrite Hk.
  - rewrite nth_error_app2 by (rewrite Hk; lia).
    rewrite Hk. replace (k * S i + j - k)%nat with (k * i + j)%nat by lia.
    now apply IH.
Qed.

Lemma byte_value_range c : 0 <= byte_value c < 256.
Proof.
  unfold byte_value. pose proof (N_ascii_bounded c). lia.
Qed.

Lemma land_shiftr_bit v b :
  0 <= b -> Z.land (Z.shiftr v b) 1 = Z.b2z (Z.testbit v b).
Proof.
  intros Hb. change 1 with (Z.ones 1). rewrite Z.land_ones by lia.
  change (2 ^ 1) with 2. rewrite <- Z.bit0_mod.
  now rewrite Z.shiftr_spec by lia.
Qed.

(** X26: [to_binary] writes eight characters for each byte, most
    significant bit first: the character for bit [b] of byte [i] is at
    position [8 * i + (7 - b)], and is ['1'] exactly when the bit is set. *)
Theorem to_binary_bits (bytes : list ascii) (i b : nat) (c : ascii)
    (Hi : nth_error bytes i = Some c) (Hb : (b < 8)%nat) :
  length (to_binary bytes) = (8 * length bytes)%nat /\
  nth_error (to_binary bytes) (8 * i + (7 - b)) =
    Some (if Z.testbit (byte_value c) (Z.of_nat b) then "1" else "0")%char.
Proof.
  unfold to_binary. split.
  - clear. induction bytes as [|x l IH]; [reflexivity|].
    cbn [flat_map]. rewrite length_app, IH. simpl. lia.
  - rewrite (nth_error_chunks _ 8 bytes i (7 - b) c) by (auto; lia).
    cbv zeta. unfold bit_char.
    do 8 (destruct b as [|b];
          [cbn [Nat.sub nth_error map];
           rewrite land_shiftr_bit by lia;
           now destruct (Z.testbit _ _)|]).
    lia.
Qed.

Lemma to_binary_bits_witness :
  length (to_binary ["A"%char; "z"%char]) = (8 * 2)%nat /\
  nth_error (to_binary ["A"%char; "z"%char]) (8 * 0 + (7 - 6)) =
    Some (if Z.testbit (byte_value "A") (Z.of_nat 6) then "1" else "0")%char.
Proof. apply to_binary_bits; [reflexivity | lia]. Defined.

Lemma hex_pair v :
  0 <= v < 256 ->
  (if v <? 16 then ["0"%char] else []) ++ print_hex v =
  [hex_digit (v / 16); hex_digit (v mod 16)].
Proof.
  intros Hv. unfold print_hex. destruct (Z.ltb_spec v 16).
  - rewrite Z.div_small, Z.mod_small by lia. reflexivity.
  - reflexivity.
Qed.

(** X27: [to_hex] writes exactly two digits for each byte, the high half
    first: a byte below 16 gets its zero from the test in the loop, any
    other from [std::hex] itself. *)
Theorem to_hex_two_digits (bytes : list ascii) :
  to_hex bytes =
  flat_map (fun byte => [hex_digit (byte_value byte / 16);
                         hex_digit (byte_value byte mod 16)]) bytes.
Proof.
  unfold to_hex. induction bytes as [|x l IH]; [reflexivity|].
  cbn [flat_map]. rewrite IH. f_equal.
  apply hex_pair. apply byte_value_range.
Qed.

Lemma remove_shadowed_loop s_inst bytes : forall n out,
  (n <= length bytes)%nat ->
  fold_left
    (fun out i =>
       if Instruction_present s_inst (Z.of_nat i)
       then out ++ [nth (length bytes - 1 - i) bytes Ascii.zero]
       else out)
    (seq 0 n) out =
  out ++ map (fun i => nth i (rev bytes) Ascii.zero)
           (List.filter (fun i => Instruction_present s_inst (Z.of_nat i))
              (seq 0 n)).
Proof.
  induction n as [|n IH]; intros out Hn.
  - simpl. now rewrite app_nil_r.
  - rewrite seq_S, fold_left_app, List.filter_app, map_app.
    rewrite IH by lia. cbn [fold_left List.filter Nat.add].
    destruct (Instruction_present s_inst (Z.of_nat n)).
    + cbn [map]. rewrite <- app_assoc. do 3 f_equal.
      rewrite rev_nth by lia. f_equal. lia.
    + simpl. now rewrite app_nil_r.
Qed.

(** X28: [remove_shadowed] reads the bytes back to front and keeps
    exactly the characters at the positions the instruction's operands
    cover, in that order: it is the covered positions that stay. *)
Theorem remove_shadowed_keeps_present (s_inst : Instruction)
    (bytes : list ascii) :
  remove_shadowed s_inst bytes =
  map (fun i => nth i (rev bytes) Ascii.zero)
    (List.filter (fun i => Instruction_present s_inst (Z.of_nat i))
       (seq 0 (length bytes))).
Proof.
  unfold remove_shadowed.
  now rewrite (remove_shadowed_loop s_inst bytes (length bytes) []).
Qed.

End Shadowinst.

(** ** The decoder synthesizer (circ::decoder, DecoderPrinter) *)

Module Decoder.

Inductive InputType := zero | one | ignore.

Definition InputType_eqb (a b : InputType) : bool :=
  match a, b with
  | zero, zero | one, one | ignore, ignore => true
  | _, _ => false
  end.

Definition to_val (ty : InputType) : Z :=
  match ty with
  | zero => 0
  | one => 1
  | ignore => 1
  end.


(** [ctoit]; [None] is [circ::unreachable()]. *)
Definition ctoit (c : ascii) : option InputType :=
  if Ascii.eqb c "0" then Some zero
  else if Ascii.eqb c "1" then Some one
  else if Ascii.eqb c "~" then Some ignore
  else None.

Definition wrap32 (z : Z) : Z := z mod 2 ^ 32.
Definition wrap64 (z : Z) : Z := z mod 2 ^ 64.

(** A [DecodeCondition] with its operands narrowed: [operands[0]] is the
    [Constant] (its [bits] string), [operands[1]] the [Extract] (its two
    [uint32_t] bounds). *)
Record DecodeCondition := {
  bits : string;
  low_bit_inc : Z;
  high_bit_exc : Z
}.

Record ExtractedCtx := {
  generated_name : string;
  encoding_size_in_bytes : Z;
  decodeConditions : list DecodeCondition
}.

(** [s[k]] on a [std::string]: the character at [k], and the terminating
    null character at [k = size()] (the same is taken beyond it, where the
    source has no defined behaviour). *)
Definition bits_at (s : string) (k : Z) : ascii :=
  match String.get (Z.to_nat k) s with
  | Some c => c
  | None => Ascii.zero
  end.

(** [auto high_inc = extract->high_bit_exc - 1;] *)
Definition high_inc (n : DecodeCondition) : Z := wrap32 (high_bit_exc n - 1).

(** A loop whose body may abort, threading the loop state. *)
Fixpoint ofold {A B : Type} (f : B -> A -> option B) (b : B) (l : list A)
  : option B :=
  match l with
  | [] => Some b
  | a :: rest =>
      match f b a with
      | Some b' => ofold f b' rest
      | None => None
      end
  end.

Fixpoint omap {A B : Type} (f : A -> option B) (l : list A) : option (list B) :=
  match l with
  | [] => Some []
  | a :: rest =>
      match f a with
      | Some b =>
          match omap f rest with
          | Some bs => Some (b :: bs)
          | None => None
          end
      | None => None
      end
  end.

(** What the body of the [c] loop assigns to [val[c]] for condition [n] in
    byte [i]: nothing, or the converted character. *)
Definition new_val (n : DecodeCondition) (i : Z) (c : nat)
  : option (option InputType) :=
  let bit_index := i * 8 + Z.of_nat c in
  if (low_bit_inc n <=? bit_index) && (bit_index <=? high_inc n)
  then Some (ctoit (bits_at (bits n) (bit_index - low_bit_inc n)))
  else None.

Definition set_val (n : DecodeCondition) (i : Z)
    (val : list InputType) (c : nat) : option (list InputType) :=
  match new_val n i c with
  | None => Some val
  | Some None => None
  | Some (Some v) => Some (<[c := v]> val)
  end.

(** The body of the loop over [decodeConditions] for byte [i]. *)
Definition apply_condition (i : Z) (val : list InputType)
    (n : DecodeCondition) : option (list InputType) :=
  if (low_bit_inc n >? (i + 1) * 8) || (high_inc n <? i * 8)
     || (high_inc n =? 119)
  then Some val
  else ofold (set_val n i) val (seq 0 8).

Definition input_check (conds : list DecodeCondition) (i : nat)
  : option (list InputType) :=
  ofold (apply_condition (Z.of_nat i)) (replicate 8 ignore) conds.

(** [ExtractedCtx::convert_circIR_to_input_type_array]: 16 bytes of 8
    tri-states each; [None] when [ctoit] aborts. *)
Definition convert_circIR_to_input_type_array (ctx : ExtractedCtx)
  : option (list (list InputType)) :=
  omap (input_check (decodeConditions ctx)) (seq 0 16).

(** [convert_bytes_to_uints64]: [val[i] = bytes[offset + i / 8][i % 8]]. *)
Definition convert_bytes_to_uints64 (bytes : list (list InputType))
    (offset : nat) : list InputType :=
  map (fun i =>
         match bytes !! (offset + i / 8)%nat with
         | Some b => default ignore (b !! (i mod 8)%nat)
         | None => ignore
         end) (seq 0 64).

(** The emitted expression language, as far as the decoder builds it. *)
#[warnings="-register-all"]
Inductive Expr :=
| Empty
| Int (z : Z)
| Uint64 (z : Z)
| Id (name : string)
| Var (name ty : string)
| VarDecl (v : Expr)
| IndexVar (v : Expr) (idx : Z)
| Statement (e : Expr)
| Return (e : Expr)
| Assign (l r : Expr)
| Plus (l r : Expr)
| Mul (l r : Expr)
| And (l r : Expr)
| Equal (l r : Expr)
| Shfl (l r : Expr)
| BitwiseOr (l r : Expr)
| BitwiseXor (l r : Expr)
| BitwiseAnd (l r : Expr)
| BitwiseNegate (e : Expr)
| CastToUint64 (e : Expr)
| Parenthesis (e : Expr)
| IfElse (c t e : Expr)
| FunctionCall (function_name : string) (args : list Expr)
| StatementBlock (body : list Expr).

Definition inner_func_arg1 : Expr := Var "first8bytes" "uint64_t".
Definition inner_func_arg2 : Expr := Var "second8bytes" "uint64_t".

Definition var_name (v : Expr) : string :=
  match v with
  | Var name _ => name
  | _ => EmptyString
  end.

(** [decode_context_function_arg] *)
Record decode_context_function_arg := {
  byte : list InputType;
  var : Expr
}.

Definition get_decode_context_function_args (ectx : ExtractedCtx)
  : option (decode_context_function_arg * decode_context_function_arg) :=
  match convert_circIR_to_input_type_array ectx with
  | Some input_checks =>
      Some ({| byte := convert_bytes_to_uints64 input_checks 0;
               var := inner_func_arg1 |},
            {| byte := convert_bytes_to_uints64 input_checks 8;
               var := inner_func_arg2 |})
  | None => None
  end.

Definition contains_ignore_bit (b : list InputType) : bool :=
  existsb (fun x => InputType_eqb x ignore) b.

Definition contains_only_ignore_bit (b : list InputType) : bool :=
  forallb (fun x => InputType_eqb x ignore) b.

(** Modelled from the spec: [OptionalBitArray::to_uint64] and
    [OptionalBitArray::ignored_bits_to_uint64] are declared in
    DecoderPrinter.hpp, which is not among the sources. The packing puts
    entry [i] of the array at bit [i] of a [uint64_t]; [to_uint64] packs
    the expected bits ([to_val] of each entry), and the ignore mask is the
    bit pattern whose 1-bits are the positions the context ignores. *)
Fixpoint convert_to_uint64_from (conv : InputType -> Z) (i : Z)
    (arr : list InputType) : Z :=
  match arr with
  | [] => 0
  | x :: rest =>
      Z.lor (wrap64 (Z.shiftl (conv x) i))
            (convert_to_uint64_from conv (i + 1) rest)
  end.

Definition convert_to_uint64 (conv : InputType -> Z) (arr : list InputType) : Z :=
  convert_to_uint64_from conv 0 arr.

Definition to_uint64 (arr : list InputType) : Z :=
  convert_to_uint64 to_val arr.

Definition is_ignore (ty : InputType) : Z :=
  if InputType_eqb ty ignore then 1 else 0.

Definition ignored_bits_to_uint64 (arr : list InputType) : Z :=
  convert_to_uint64 is_ignore arr.

(** [~x] on a [uint64_t]. *)
Definition not64 (x : Z) : Z := wrap64 (Z.lnot x).

(** The two constants [get_comparison] emits: the expected-bits word
    [uint], and [neg_ignore], the bits we care about. *)
Definition expected_bits (arg : decode_context_function_arg) : Z :=
  to_uint64 (byte arg).

Definition neg_ignore (arg : decode_context_function_arg) : Z :=
  not64 (ignored_bits_to_uint64 (byte arg)).

Definition get_comparison (arg : decode_context_function_arg) : Expr :=
  let uint := Uint64 (expected_bits arg) in
  let lhs :=
    CastToUint64
      (Parenthesis (BitwiseXor (Id (var_name (var arg))) (BitwiseNegate uint))) in
  Equal lhs (Uint64 (neg_ignore arg)).

Definition print_ignore_bits (arg : decode_context_function_arg) : Expr :=
  if contains_ignore_bit (byte arg) && negb (contains_only_ignore_bit (byte arg))
  then
    let name := Id (var_name (var arg)) in
    let ignoringValues := Uint64 (ignored_bits_to_uint64 (byte arg)) in
    Statement (Assign name (BitwiseOr name ignoringValues))
  else Empty.

(** [get_decode_context_function_body]. [compare_exprs[k]] is
    [std::vector::operator[]], which has no defined behaviour for
    [k >= size()]: the body is then [None]. *)
Definition get_decode_context_function_body
    (args : decode_context_function_arg * decode_context_function_arg)
    (encoding_size : Z) : option Expr :=
  let block := [print_ignore_bits (fst args); print_ignore_bits (snd args)] in
  let compare_exprs :=
    (if negb (contains_only_ignore_bit (byte (fst args)))
     then [get_comparison (fst args)] else []) ++
    (if negb (contains_only_ignore_bit (byte (snd args)))
     then [get_comparison (snd args)] else []) in
  if (length compare_exprs =? 1)%nat then
    match compare_exprs !! 0%nat with
    | Some e0 =>
        Some (StatementBlock
                (block ++ [Return (Mul (Parenthesis e0) (Int encoding_size))]))
    | None => None
    end
  else
    match compare_exprs !! 0%nat, compare_exprs !! 1%nat with
    | Some e0, Some e1 =>
        Some (StatementBlock
                (block ++
                 [Return (Mul (Parenthesis (And e0 e1)) (Int encoding_size))]))
    | _, _ => None
    end.

(** [print_context_decoder_function], down to the body it emits for a
    context: [None] when a step on the way has no defined result. *)
Definition context_decoder_function_body (ctx : ExtractedCtx) : option Expr :=
  match get_decode_context_function_args ctx with
  | Some args =>
      get_decode_context_function_body args (encoding_size_in_bytes ctx)
  | None => None
  end.

(** A [VerifyInstruction] as [extract_ctx] sees it: its id and the
    [DecodeCondition]s its [SubtreeCollector] gathers, in the order the
    [unordered_multiset] iterates them. *)
Record VerifyInstruction := {
  vi_id : N;
  collected : list DecodeCondition
}.

Inductive invalid_argument :=
| No_decode_condition_that_specifies_end
| Instruction_is_longer_than_15_bytes.

Definition is_end (dc : DecodeCondition) : bool := high_bit_exc dc =? 120.

(** The body of the loop of [extract_ctx] for one context. *)
Definition extract_one (vi : VerifyInstruction)
  : invalid_argument + ExtractedCtx :=
  match List.find is_end (collected vi) with
  | None => inl No_decode_condition_that_specifies_end
  | Some x =>
      let encoding_length := low_bit_inc x / 8 in
      if encoding_length >? 15 then inl Instruction_is_longer_than_15_bytes
      else inr {| generated_name :=
                    "generated_decoder_prefix_" +:+ pretty (vi_id vi);
                  encoding_size_in_bytes := encoding_length mod 2 ^ 8;
                  decodeConditions := collected vi |}
  end.

(** [DecoderPrinter::extract_ctx]: the contexts extracted, or the exception
    thrown at the first context that has none. *)
Fixpoint extract_ctx (Contexts : list VerifyInstruction)
  : invalid_argument + list ExtractedCtx :=
  match Contexts with
  | [] => inr []
  | vi :: rest =>
      match extract_one vi with
      | inl e => inl e
      | inr ctx =>
          match extract_ctx rest with
          | inl e => inl e
          | inr ctxs => inr (ctx :: ctxs)
          end
      end
  end.

(** An [ExtractedCtx *] into [extracted_ctxs]: the position it points at
    (pointers into one vector compare as their positions do) and the
    context found there. *)
Definition ctx_ptr : Type := nat * ExtractedCtx.

(** [Decode_Requires_Group] *)
Record Decode_Requires_Group := {
  zeros : list ctx_ptr;
  ones : list ctx_ptr;
  ignores : list ctx_ptr
}.

Definition empty_group : Decode_Requires_Group :=
  {| zeros := []; ones := []; ignores := [] |}.

(** [operator<] of [std::vector<ExtractedCtx *>]:
    [std::lexicographical_compare] on the pointers. *)
Fixpoint vector_lt (a b : list ctx_ptr) : bool :=
  match a, b with
  | _, [] => false
  | [], _ :: _ => true
  | x :: a', y :: b' =>
      if (fst x <? fst y)%nat then true
      else if (fst y <? fst x)%nat then false
      else vector_lt a' b'
  end.

(** [std::min(a, b)] is [(b < a) ? b : a]. *)
Definition std_min (a b : list ctx_ptr) : list ctx_ptr :=
  if vector_lt b a then b else a.

(** [operator<(Decode_Requires_Group, Decode_Requires_Group)] *)
Definition group_lt (x y : Decode_Requires_Group) : bool :=
  let min_x := length (std_min (zeros x) (ones x)) in
  let min_y := length (std_min (zeros y) (ones y)) in
  (min_x <? min_y)%nat.

(** [std::max_element]: the position of the first largest element. *)
Fixpoint max_element_from (largest_i : nat) (largest : Decode_Requires_Group)
    (i : nat) (l : list Decode_Requires_Group) : nat :=
  match l with
  | [] => largest_i
  | g :: rest =>
      if group_lt largest g
      then max_element_from i g (S i) rest
      else max_element_from largest_i largest (S i) rest
  end.

Definition max_element (l : list Decode_Requires_Group) : nat :=
  match l with
  | [] => 0%nat
  | g :: rest => max_element_from 0 g 1 rest
  end.

(** The loop over [ctx->decodeConditions] in
    [get_decode_requirements_per_index]: the requirement of [ctx] at bit
    [i]. *)
Definition requirement_step (i : Z) (val : InputType) (n : DecodeCondition)
  : InputType :=
  if (low_bit_inc n >? i) || (high_inc n <? i) || (high_inc n =? 119)
  then val
  else if Ascii.eqb (bits_at (bits n) (i - low_bit_inc n)) "0"
       then zero else one.

Definition requirement (ctx : ExtractedCtx) (i : nat) : InputType :=
  fold_left (requirement_step (Z.of_nat i)) (decodeConditions ctx) ignore.

Definition already_chosen (already_chosen_bits : list (nat * Z)) (i : nat) : bool :=
  existsb (fun p => (fst p =? i)%nat) already_chosen_bits.

(** The body of the loop over [to_split] for index [i]. *)
Definition add_ctx (already_chosen_bits : list (nat * Z)) (i : nat)
    (g : Decode_Requires_Group) (ctx : ctx_ptr) : Decode_Requires_Group :=
  if already_chosen already_chosen_bits i then g
  else
    match requirement (snd ctx) i with
    | zero => {| zeros := zeros g ++ [ctx]; ones := ones g; ignores := ignores g |}
    | one => {| zeros := zeros g; ones := ones g ++ [ctx]; ignores := ignores g |}
    | ignore => {| zeros := zeros g; ones := ones g; ignores := ignores g ++ [ctx] |}
    end.

Definition get_decode_requirements_per_index (to_split : list ctx_ptr)
    (already_chosen_bits : list (nat * Z)) : list Decode_Requires_Group :=
  map (fun i => fold_left (add_ctx already_chosen_bits i) to_split empty_group)
      (seq 0 120).

(** [call_ctx] *)
Definition call_ctx (ctx : ExtractedCtx) : Expr :=
  FunctionCall (generated_name ctx) [inner_func_arg1; inner_func_arg2].

(** The index [generate_decoder_selection_tree] picks for [to_split]. *)
Definition candidate_index (to_split : list ctx_ptr)
    (already_chosen_bits : list (nat * Z)) : nat :=
  max_element (get_decode_requirements_per_index to_split already_chosen_bits).

Section SelectionTree.

(** The name of the input array in the emitted code, a constant of the
    header. *)
Variable bytes_input_variable : string.

(** [generate_decoder_selection_tree], threading [max_depth]; [fuel] bounds
    the depth of the recursion. *)
Fixpoint generate_decoder_selection_tree (fuel : nat)
    (to_split : list ctx_ptr) (already_chosen_bits : list (nat * Z))
    (depth : Z) (max_depth : Z) : option (Z * Expr) :=
  let max_depth := if max_depth <? depth then depth else max_depth in
  match to_split with
  | [] => Some (max_depth, Return (Int (-1)))
  | [ctx] => Some (max_depth, Return (call_ctx (snd ctx)))
  | _ =>
      let indice_values :=
        get_decode_requirements_per_index to_split already_chosen_bits in
      let candidate := max_element indice_values in
      let already_chosen_bits := already_chosen_bits ++ [(candidate, depth)] in
      let g := default empty_group (indice_values !! candidate) in
      let ones_ := ones g ++ ignores g in
      let zeros_ := zeros g ++ ignores g in
      match ones_, zeros_ with
      | [], [] => Some (max_depth, Return (Int (-1)))
      | _, _ =>
          let ci_byte := wrap32 (Z.of_nat candidate / 8) in
          let lhs := IndexVar (Var bytes_input_variable EmptyString) ci_byte in
          let rhs2 := Parenthesis (Shfl (Int 1) (Int (Z.of_nat candidate mod 8))) in
          let condition := BitwiseAnd lhs rhs2 in
          match fuel with
          | O => None
          | S fuel' =>
              match generate_decoder_selection_tree fuel' ones_
                      already_chosen_bits (depth + 1) max_depth with
              | None => None
              | Some (max_depth, lhs_split) =>
                  match generate_decoder_selection_tree fuel' zeros_
                          already_chosen_bits (depth + 1) max_depth with
                  | None => None
                  | Some (max_depth, rhs_split) =>
                      Some (max_depth, IfElse condition lhs_split rhs_split)
                  end
              end
          end
      end
  end.

End SelectionTree.

(** The score the selection is described by: [min(|zeros|, |ones|)]. *)
Definition min_size_score (g : Decode_Requires_Group) : nat :=
  Nat.min (length (zeros g)) (length (ones g)).

(** The score [operator<] compares: the size of the lexicographically
    smaller of the two pointer vectors. *)
Definition compared_score (g : Decode_Requires_Group) : nat :=
  length (std_min (zeros g) (ones g)).

(** *** Properties of the decoder synthesizer *)













(** The contexts used below. *)
Definition dc (b : string) (low high : Z) : DecodeCondition :=
  {| bits := b; low_bit_inc := low; high_bit_exc := high |}.

(** A one byte instruction whose only decode condition is the length
    delimiter [Extract(8, 120)]. *)
Definition only_delimiter : VerifyInstruction :=
  {| vi_id := 7; collected := [dc "1" 8 120] |}.

Definition only_delimiter_ctx : ExtractedCtx :=
  {| generated_name := "generated_decoder_prefix_7";
     encoding_size_in_bytes := 1;
     decodeConditions := [dc "1" 8 120] |}.

(** When neither half is compared, [compare_exprs] is empty and the body
    reads [compare_exprs[0]] and [compare_exprs[1]] all the same. *)
Lemma body_undefined_without_comparison args encoding_size :
  contains_only_ignore_bit (byte (fst args)) = true ->
  contains_only_ignore_bit (byte (snd args)) = true ->
  get_decode_context_function_body args encoding_size = None.
Proof.
  intros H1 H2. unfold get_decode_context_function_body.
  rewrite H1, H2. reflexivity.
Qed.

(** C5 on the code: the context that constrains no bit is extracted without
    error, both of its halves are entirely ignore, and the body of its
    match function is not defined: it does not return the encoding
    length. *)
Theorem unconstrained_context_body_undefined :
  extract_ctx [only_delimiter] = inr [only_delimiter_ctx] /\
  (exists args,
     get_decode_context_function_args only_delimiter_ctx = Some args /\
     contains_only_ignore_bit (byte (fst args)) = true /\
     contains_only_ignore_bit (byte (snd args)) = true) /\
  context_decoder_function_body only_delimiter_ctx = None.
Proof.
  split; [reflexivity|]. split; [|reflexivity].
  eexists. split; [reflexivity|]. split; reflexivity.
Qed.

(** The two ways [extract_one] throws. *)
Definition no_end (vi : VerifyInstruction) : bool :=
  forallb (fun dc => negb (is_end dc)) (collected vi).

Definition too_long (vi : VerifyInstruction) : bool :=
  match List.find is_end (collected vi) with
  | Some x => low_bit_inc x / 8 >? 15
  | None => false
  end.

Definition threw {A : Type} (r : invalid_argument + A) : bool :=
  match r with
  | inl _ => true
  | inr _ => false
  end.

(** Two conditions disagree over bit [i]: both constrain it, to different
    characters. *)
Definition constrains (n : DecodeCondition) (i : nat) : bool :=
  (low_bit_inc n <=? Z.of_nat i) && (Z.of_nat i <=? high_inc n)
  && negb (high_inc n =? 119).

Definition disagree_at (n m : DecodeCondition) (i : nat) : bool :=
  constrains n i && constrains m i &&
  negb (Ascii.eqb (bits_at (bits n) (Z.of_nat i - low_bit_inc n))
                  (bits_at (bits m) (Z.of_nat i - low_bit_inc m))).

Definition disagree (conds : list DecodeCondition) : bool :=
  existsb (fun n => existsb (fun m => existsb (disagree_at n m) (seq 0 120)) conds)
          conds.

Lemma find_none_forallb {A} (f : A -> bool) l :
  List.find f l = None -> forallb (fun x => negb (f x)) l = true.
Proof.
  induction l as [|a l IH]; simpl; auto.
  destruct (f a); [discriminate|]. simpl. exact IH.
Qed.

Lemma find_some_forallb {A} (f : A -> bool) l x :
  List.find f l = Some x -> forallb (fun x => negb (f x)) l = false.
Proof.
  induction l as [|a l IH]; simpl; [discriminate|].
  destruct (f a); simpl; auto.
Qed.

Lemma extract_one_threw vi :
  threw (extract_one vi) = no_end vi || too_long vi.
Proof.
  unfold extract_one, no_end, too_long.
  destruct (List.find is_end (collected vi)) as [x|] eqn:E.
  - rewrite (find_some_forallb _ _ _ E). simpl.
    now destruct (low_bit_inc x / 8 >? 15).
  - now rewrite (find_none_forallb _ _ E).
Qed.

Lemma extract_one_inr vi ctx :
  extract_one vi = inr ctx ->
  decodeConditions ctx = collected vi /\
  Some (encoding_size_in_bytes ctx) =
  option_map (fun x => (low_bit_inc x / 8) mod 2 ^ 8)
    (List.find is_end (collected vi)).
Proof.
  unfold extract_one.
  destruct (List.find is_end (collected vi)) as [x|]; [|discriminate].
  destruct (low_bit_inc x / 8 >? 15); [discriminate|].
  intros H. injection H as <-. simpl. split; reflexivity.
Qed.

(** C4, as the code has it: [extract_ctx] throws exactly when some context
    has no condition with [high_bit_exc = 120], or has one whose
    [low_bit_inc / 8] exceeds 15; otherwise it extracts every context, with
    that length (as a [uint8_t]) and all the collected conditions, whether
    or not they agree. *)
Theorem extract_ctx_throws (Contexts : list VerifyInstruction) :
  threw (extract_ctx Contexts) =
    existsb (fun vi => no_end vi || too_long vi) Contexts /\
  match extract_ctx Contexts with
  | inl _ => True
  | inr ctxs =>
      map decodeConditions ctxs = map collected Contexts /\
      map (fun ctx => Some (encoding_size_in_bytes ctx)) ctxs =
      map (fun vi => option_map (fun x => (low_bit_inc x / 8) mod 2 ^ 8)
                       (List.find is_end (collected vi))) Contexts
  end.
Proof.
  induction Contexts as [|vi rest [IH1 IH2]]; simpl; [auto|].
  pose proof (extract_one_threw vi) as Hvi.
  pose proof (extract_one_inr vi) as Hctx.
  destruct (extract_one vi) as [e|ctx]; simpl in Hvi; rewrite <- Hvi; simpl.
  - auto.
  - destruct (Hctx ctx eq_refl) as [Hc1 Hc2].
    destruct (extract_ctx rest) as [e|ctxs]; simpl in *; [auto|].
    split; [exact IH1|]. destruct IH2 as [IH2 IH3].
    now rewrite IH2, IH3, Hc1, Hc2.
Qed.

(** A one byte instruction with two conditions over bit 0 that ask for
    different values. *)
Definition conflicting : VerifyInstruction :=
  {| vi_id := 3; collected := [dc "0" 0 1; dc "1" 0 1; dc "1" 8 120] |}.

(** C4 fails as stated: conditions that disagree over a bit are not
    reported; the context is extracted, and its projection takes the bit of
    the condition iterated last. *)
Lemma disagreeing_conditions_not_reported :
  disagree (collected conflicting) = true /\
  threw (extract_ctx [conflicting]) = false /\
  (exists ctx, extract_ctx [conflicting] = inr [ctx] /\
     option_map (fun bytes => bytes !! 0%nat)
       (convert_circIR_to_input_type_array ctx) =
     Some (Some [one; ignore; ignore; ignore; ignore; ignore; ignore; ignore]) /\
     requirement ctx 0 = one).
Proof.
  split; [reflexivity|]. split; [reflexivity|].
  eexists. split; [reflexivity|]. split; reflexivity.
Qed.

(** [to_split] as [print_top_level_function] builds it: a pointer to every
    element of [extracted_ctxs], in order. *)
Definition pointers (extracted_ctxs : list ExtractedCtx) : list ctx_ptr :=
  imap (fun i ctx => (i, ctx)) extracted_ctxs.

(** Four one byte instructions constraining bits 0, 1 and 2: bit 0 is one
    in all but the second, bit 1 is zero in the first two and one in the
    last two, bit 2 is one in the last only. *)
Definition four_instructions : list VerifyInstruction :=
  [ {| vi_id := 0; collected := [dc "100" 0 3; dc "1" 8 120] |};
    {| vi_id := 1; collected := [dc "000" 0 3; dc "1" 8 120] |};
    {| vi_id := 2; collected := [dc "110" 0 3; dc "1" 8 120] |};
    {| vi_id := 3; collected := [dc "111" 0 3; dc "1" 8 120] |} ].

Definition four_contexts : list ExtractedCtx :=
  match extract_ctx four_instructions with
  | inr ctxs => ctxs
  | inl _ => []
  end.

Lemma max_element_from_max rest : forall pre largest_i largest,
  (pre ++ rest) !! largest_i = Some largest ->
  Forall (fun g => (compared_score g <= compared_score largest)%nat) pre ->
  exists m,
    (pre ++ rest) !! max_element_from largest_i largest (length pre) rest = Some m /\
    Forall (fun g => (compared_score g <= compared_score m)%nat) (pre ++ rest).
Proof.
  induction rest as [|h rest IH]; intros pre largest_i largest Hl Hpre; simpl.
  - exists largest. rewrite app_nil_r in *. auto.
  - replace (pre ++ h :: rest) with ((pre ++ [h]) ++ rest) in *
      by now rewrite <- app_assoc.
    replace (S (length pre)) with (length (pre ++ [h]))
      by (rewrite length_app; simpl; lia).
    unfold group_lt. fold (compared_score largest). fold (compared_score h).
    destruct (Nat.ltb_spec (compared_score largest) (compared_score h)).
    + apply IH.
      * rewrite lookup_app_l by (rewrite length_app; simpl; lia).
        now apply list_lookup_middle.
      * apply Forall_app. split; [|repeat constructor].
        eapply Forall_impl; [exact Hpre|]. simpl. intros; lia.
    + apply IH; [exact Hl|].
      apply Forall_app. split; [exact Hpre|]. repeat constructor. lia.
Qed.

(** What [std::max_element] with this [operator<] maximizes: the size of
    the lexicographically smaller vector. *)
Lemma max_element_max l g0 :
  l !! 0%nat = Some g0 ->
  exists m, l !! max_element l = Some m /\
    Forall (fun g => (compared_score g <= compared_score m)%nat) l.
Proof.
  destruct l as [|g rest]; [discriminate|]. simpl. intros _.
  apply (max_element_from_max rest [g] 0%nat g); [reflexivity|].
  repeat constructor.
Qed.

(** C3 on the code: for these four contexts the tree tests bit 0 first,
    which splits them 1 against 3 and has score [min(1, 3) = 1], although
    bit 1 is untested and splits them 2 against 2, with score 2. The
    comparison takes [std::min] of the two pointer vectors, which is the
    lexicographically smaller one, and compares sizes 3 and 2. *)
Theorem selection_not_max_min :
  let to_split := pointers four_contexts in
  let indice_values := get_decode_requirements_per_index to_split [] in
  length to_split = 4%nat /\
  candidate_index to_split [] = 0%nat /\
  option_map min_size_score (indice_values !! 0%nat) = Some 1%nat /\
  option_map min_size_score (indice_values !! 1%nat) = Some 2%nat /\
  option_map compared_score (indice_values !! 0%nat) = Some 3%nat /\
  option_map compared_score (indice_values !! 1%nat) = Some 2%nat /\
  exists max_depth lhs_split rhs_split,
    generate_decoder_selection_tree "input" 120 to_split [] 0 0 =
    Some (max_depth,
          IfElse (BitwiseAnd (IndexVar (Var "input" EmptyString) 0)
                             (Parenthesis (Shfl (Int 1) (Int 0))))
                 lhs_split rhs_split).
Proof.
  cbv zeta. repeat (split; [vm_compute; reflexivity|]).
  do 3 eexists. vm_compute. reflexivity.
Qed.

(** *** The selection tree is always built *)

(** The indices of [0, 120) not yet in [already_chosen_bits]. *)
Definition unchosen (already_chosen_bits : list (nat * Z)) : nat :=
  length (List.filter (fun i => negb (already_chosen already_chosen_bits i))
            (seq 0 120)).

Lemma filter_length_lt {A} (P Q : A -> bool) l x :
  (forall y, Q y = true -> P y = true) ->
  In x l -> P x = true -> Q x = false ->
  (length (List.filter Q l) < length (List.filter P l))%nat.
Proof.
  intros Himp. induction l as [|a l IH]; simpl; [intros []|].
  assert (Hle : (length (List.filter Q l) <= length (List.filter P l))%nat).
  { clear IH. induction l as [|b l IHl]; simpl; [lia|].
    destruct (Q b) eqn:Eq.
    - rewrite (Himp b Eq). simpl. lia.
    - destruct (P b); simpl; lia. }
  intros [->|Hin] HP HQ.
  - rewrite HP, HQ. simpl. lia.
  - specialize (IH Hin HP HQ). destruct (Q a) eqn:Eq.
    + rewrite (Himp a Eq). simpl. lia.
    + destruct (P a); simpl; lia.
Qed.

Lemma already_chosen_app chosen c d i :
  already_chosen (chosen ++ [(c, d)]) i = already_chosen chosen i || (c =? i)%nat.
Proof.
  unfold already_chosen. rewrite existsb_app. simpl. now rewrite orb_false_r.
Qed.

Lemma unchosen_decreases chosen c d :
  (c < 120)%nat -> already_chosen chosen c = false ->
  (unchosen (chosen ++ [(c, d)]) < unchosen chosen)%nat.
Proof.
  intros Hc Hnot. unfold unchosen. apply (filter_length_lt _ _ _ c).
  - intros y. rewrite already_chosen_app.
    destruct (already_chosen chosen y); simpl; [discriminate | reflexivity].
  - apply in_seq. lia.
  - now rewrite Hnot.
  - rewrite already_chosen_app, Nat.eqb_refl, orb_true_r. reflexivity.
Qed.

Lemma add_ctx_chosen chosen i to_split : forall g,
  already_chosen chosen i = true ->
  fold_left (add_ctx chosen i) to_split g = g.
Proof.
  induction to_split as [|ctx rest IH]; intros g H; simpl; [reflexivity|].
  unfold add_ctx at 2. rewrite H. now apply IH.
Qed.

Lemma requirements_lookup to_split chosen c :
  (c < 120)%nat ->
  get_decode_requirements_per_index to_split chosen !! c =
  Some (fold_left (add_ctx chosen c) to_split empty_group).
Proof.
  intros Hc. unfold get_decode_requirements_per_index.
  change (map ?f ?l) with (f <$> l).
  rewrite list_lookup_fmap, lookup_seq_lt by exact Hc. reflexivity.
Qed.

Lemma requirements_length to_split chosen :
  length (get_decode_requirements_per_index to_split chosen) = 120%nat.
Proof.
  unfold get_decode_requirements_per_index. now rewrite length_map, length_seq.
Qed.

Lemma candidate_index_lt to_split chosen :
  (candidate_index to_split chosen < 120)%nat.
Proof.
  unfold candidate_index.
  destruct (max_element_max (get_decode_requirements_per_index to_split chosen)
              (fold_left (add_ctx chosen 0) to_split empty_group))
    as (m & Hm & _).
  - apply requirements_lookup. lia.
  - apply lookup_lt_Some in Hm. now rewrite requirements_length in Hm.
Qed.

Section TreeEquations.

Variable bytes_input_variable : string.

Lemma selection_tree_nil fuel chosen depth max_depth :
  generate_decoder_selection_tree bytes_input_variable fuel [] chosen depth
    max_depth =
  Some (if max_depth <? depth then depth else max_depth, Return (Int (-1))).
Proof. destruct fuel; reflexivity. Qed.

Lemma selection_tree_single fuel ctx chosen depth max_depth :
  generate_decoder_selection_tree bytes_input_variable fuel [ctx] chosen depth
    max_depth =
  Some (if max_depth <? depth then depth else max_depth,
        Return (call_ctx (snd ctx))).
Proof. destruct fuel; reflexivity. Qed.

(** One more test in the tree: the body of the function once the index
    [candidate] and its group [g] are known. *)
Definition selection_tree_split (fuel : nat) (candidate : nat)
    (g : Decode_Requires_Group) (chosen : list (nat * Z))
    (depth max_depth : Z) : option (Z * Expr) :=
  match ones g ++ ignores g, zeros g ++ ignores g with
  | [], [] => Some (max_depth, Return (Int (-1)))
  | ones_, zeros_ =>
      let condition :=
        BitwiseAnd
          (IndexVar (Var bytes_input_variable EmptyString)
             (wrap32 (Z.of_nat candidate / 8)))
          (Parenthesis (Shfl (Int 1) (Int (Z.of_nat candidate mod 8)))) in
      match fuel with
      | O => None
      | S fuel' =>
          match generate_decoder_selection_tree bytes_input_variable fuel'
                  ones_ chosen (depth + 1) max_depth with
          | None => None
          | Some (max_depth, lhs_split) =>
              match generate_decoder_selection_tree bytes_input_variable fuel'
                      zeros_ chosen (depth + 1) max_depth with
              | None => None
              | Some (max_depth, rhs_split) =>
                  Some (max_depth, IfElse condition lhs_split rhs_split)
              end
          end
      end
  end.

Lemma selection_tree_many fuel c0 c1 rest chosen depth max_depth :
  generate_decoder_selection_tree bytes_input_variable fuel (c0 :: c1 :: rest)
    chosen depth max_depth =
  selection_tree_split fuel
    (candidate_index (c0 :: c1 :: rest) chosen)
    (default empty_group
       (get_decode_requirements_per_index (c0 :: c1 :: rest) chosen
          !! candidate_index (c0 :: c1 :: rest) chosen))
    (chosen ++ [(candidate_index (c0 :: c1 :: rest) chosen, depth)])
    depth (if max_depth <? depth then depth else max_depth).
Proof.
  unfold selection_tree_split, candidate_index.
  destruct fuel; cbn [generate_decoder_selection_tree];
    generalize (default empty_group
                  (get_decode_requirements_per_index (c0 :: c1 :: rest) chosen
                     !! max_element
                          (get_decode_requirements_per_index
                             (c0 :: c1 :: rest) chosen)));
    intros g; destruct (ones g ++ ignores g); destruct (zeros g ++ ignores g);
    reflexivity.
Qed.

Lemma selection_tree_split_total fuel candidate g chosen depth max_depth :
  (forall fuel' to_split d md, fuel = S fuel' ->
     is_Some (generate_decoder_selection_tree bytes_input_variable
                fuel' to_split chosen d md)) ->
  (fuel = 0%nat -> g = empty_group) ->
  is_Some (selection_tree_split fuel candidate g chosen depth max_depth).
Proof.
  intros IH H0. unfold selection_tree_split.
  destruct fuel as [|fuel].
  - rewrite (H0 eq_refl). simpl. eauto.
  - specialize (IH fuel).
    destruct (ones g ++ ignores g) as [|o os];
      destruct (zeros g ++ ignores g) as [|z zs];
      [eexists; reflexivity | | | ].
    all: match goal with
         | |- context [generate_decoder_selection_tree _ _ ?ts ?ch ?d ?md] =>
             destruct (IH ts d md eq_refl) as [[md1 t1] H1]; rewrite H1
         end.
    all: match goal with
         | |- context [generate_decoder_selection_tree _ _ ?ts ?ch ?d ?md] =>
             destruct (IH ts d md eq_refl) as [[md2 t2] H2]; rewrite H2
         end.
    all: eexists; reflexivity.
Qed.

(** [generate_decoder_selection_tree] recurses only after choosing an index
    that was not chosen before, so a tree is always returned, at most 120
    tests deep. *)
Lemma selection_tree_total fuel :
  forall to_split chosen depth max_depth,
  (unchosen chosen <= fuel)%nat ->
  is_Some (generate_decoder_selection_tree bytes_input_variable fuel
             to_split chosen depth max_depth).
Proof.
  induction fuel as [|fuel IH]; intros to_split chosen depth max_depth Hfuel;
    (destruct to_split as [|c0 [|c1 rest]];
     [rewrite selection_tree_nil; eauto
     |rewrite selection_tree_single; eauto |]);
    rewrite selection_tree_many;
    pose proof (candidate_index_lt (c0 :: c1 :: rest) chosen) as Hlt;
    rewrite (requirements_lookup _ _ _ Hlt);
    generalize dependent (candidate_index (c0 :: c1 :: rest) chosen);
    intros cand Hlt;
    destruct (already_chosen chosen cand) eqn:Hch;
    try rewrite (add_ctx_chosen _ _ _ _ Hch).
  - apply selection_tree_split_total; [|reflexivity].
    intros fuel' ts d md [=].
  - pose proof (unchosen_decreases chosen cand depth Hlt Hch). lia.
  - unfold selection_tree_split. simpl. eauto.
  - pose proof (unchosen_decreases chosen cand depth Hlt Hch) as Hdec.
    apply selection_tree_split_total; [|discriminate].
    intros fuel' ts d md [= <-]. apply IH. lia.
Qed.

Lemma unchosen_le chosen : (unchosen chosen <= 120)%nat.
Proof.
  unfold unchosen.
  assert (H : forall (f : nat -> bool) l,
            (length (List.filter f l) <= length l)%nat).
  { intros f l. induction l as [|a l IH]; simpl; [lia|].
    destruct (f a); simpl; lia. }
  specialize (H (fun i => negb (already_chosen chosen i)) (seq 0 120)).
  now rewrite length_seq in H.
Qed.

(** With fuel 120 the function returns for every input. *)
Lemma selection_tree_returns to_split chosen depth max_depth :
  is_Some (generate_decoder_selection_tree bytes_input_variable 120
             to_split chosen depth max_depth).
Proof. apply selection_tree_total. apply unchosen_le. Qed.

End TreeEquations.

(** *** Duplicate decode conditions *)

Lemma ofold_app {A B} (f : B -> A -> option B) l1 l2 b :
  ofold f b (l1 ++ l2) =
  match ofold f b l1 with
  | Some b' => ofold f b' l2
  | None => None
  end.
Proof.
  revert b. induction l1 as [|a l1 IH]; intros b; simpl; auto.
  destruct (f b a); auto.
Qed.

Lemma omap_ext {A B} (f g : A -> option B) l :
  (forall a, f a = g a) -> omap f l = omap g l.
Proof.
  intros H. induction l as [|a l IH]; simpl; auto. now rewrite H, IH.
Qed.

Section SetVal.

Variable n : DecodeCondition.
Variable i : Z.

(** The value the [c] loop leaves at position [k], when it writes there. *)
Fixpoint assigned (cs : list nat) (k : nat) : option InputType :=
  match cs with
  | [] => None
  | c :: rest =>
      match assigned rest k with
      | Some v => Some v
      | None =>
          if (c =? k)%nat then
            match new_val n i c with
            | Some (Some v) => Some v
            | _ => None
            end
          else None
      end
  end.

Lemma ofold_set_val_lookup cs : forall val val',
  ofold (set_val n i) val cs = Some val' ->
  length val' = length val /\
  forall k, val' !! k =
    match assigned cs k with
    | Some v => if (k <? length val)%nat then Some v else None
    | None => val !! k
    end.
Proof.
  induction cs as [|c rest IH]; intros val val'; simpl.
  - intros [= <-]. auto.
  - unfold set_val at 1.
    destruct (new_val n i c) as [[v|]|] eqn:E; try discriminate.
    + intros H. apply IH in H. destruct H as [Hlen Hk].
      rewrite length_insert in Hlen, Hk. split; [exact Hlen|].
      intros k. rewrite Hk. destruct (assigned rest k); [reflexivity|].
      destruct (Nat.eqb_spec c k) as [->|Hne].
      * destruct (Nat.ltb_spec k (length val)).
        -- now apply list_lookup_insert_eq.
        -- rewrite list_insert_ge by lia. now apply lookup_ge_None.
      * now apply list_lookup_insert_ne.
    + intros H. apply IH in H. destruct H as [Hlen Hk].
      split; [exact Hlen|]. intros k. rewrite Hk.
      destruct (assigned rest k); [reflexivity|].
      now destruct (c =? k)%nat.
Qed.

Lemma ofold_set_val_abort cs : forall val val2,
  ofold (set_val n i) val cs = None -> ofold (set_val n i) val2 cs = None.
Proof.
  induction cs as [|c rest IH]; intros val val2; simpl; [discriminate|].
  unfold set_val. destruct (new_val n i c) as [[v|]|]; auto; apply IH.
Qed.

Lemma ofold_set_val_idem cs val val' :
  ofold (set_val n i) val cs = Some val' ->
  ofold (set_val n i) val' cs = Some val'.
Proof.
  intros H. destruct (ofold (set_val n i) val' cs) as [val''|] eqn:E.
  - f_equal. apply ofold_set_val_lookup in H, E.
    destruct H as [Hlen Hk], E as [Hlen' Hk'].
    apply list_eq. intros k. rewrite Hk'. rewrite Hlen.
    rewrite (Hk k). now destruct (assigned cs k).
  - apply (ofold_set_val_abort cs val' val) in E. congruence.
Qed.

End SetVal.

Lemma apply_condition_idem i val n val' :
  apply_condition i val n = Some val' ->
  apply_condition i val' n = Some val'.
Proof.
  unfold apply_condition.
  destruct ((low_bit_inc n >? (i + 1) * 8) || (high_inc n <? i * 8)
            || (high_inc n =? 119)).
  - now intros [= <-].
  - apply ofold_set_val_idem.
Qed.

Lemma input_check_duplicate before n after i :
  input_check (before ++ n :: n :: after) i =
  input_check (before ++ n :: after) i.
Proof.
  unfold input_check. rewrite !ofold_app.
  destruct (ofold _ _ before) as [val|]; [|reflexivity]. simpl.
  destruct (apply_condition (Z.of_nat i) val n) as [val'|] eqn:E; [|reflexivity].
  now rewrite (apply_condition_idem _ _ _ _ E).
Qed.

Lemma requirement_step_idem i val n :
  requirement_step i (requirement_step i val n) n = requirement_step i val n.
Proof.
  unfold requirement_step.
  destruct ((low_bit_inc n >? i) || (high_inc n <? i) || (high_inc n =? 119));
    [reflexivity|].
  now destruct (Ascii.eqb _ _).
Qed.

Lemma requirement_duplicate name size before n after i :
  requirement {| generated_name := name; encoding_size_in_bytes := size;
                 decodeConditions := before ++ n :: n :: after |} i =
  requirement {| generated_name := name; encoding_size_in_bytes := size;
                 decodeConditions := before ++ n :: after |} i.
Proof.
  unfold requirement. simpl. rewrite !fold_left_app. simpl.
  now rewrite requirement_step_idem.
Qed.

(** The partition a group holds: which positions of [extracted_ctxs] are
    in [zeros], in [ones] and in [ignores]. *)
Definition group_positions (g : Decode_Requires_Group)
  : list nat * list nat * list nat :=
  (map fst (zeros g), map fst (ones g), map fst (ignores g)).

(** Two pointers to the same position whose contexts require the same of
    every bit. *)
Definition same_requirements (p q : ctx_ptr) : Prop :=
  fst p = fst q /\ forall i, requirement (snd p) i = requirement (snd q) i.

Lemma add_ctx_positions chosen i g g' p q :
  group_positions g = group_positions g' -> same_requirements p q ->
  group_positions (add_ctx chosen i g p) = group_positions (add_ctx chosen i g' q).
Proof.
  intros Hg [Hfst Hreq]. unfold add_ctx.
  destruct (already_chosen chosen i); [exact Hg|].
  rewrite (Hreq i). unfold group_positions in *.
  injection Hg as Hz Ho Hi.
  destruct (requirement (snd q) i); simpl; rewrite ?map_app; simpl;
    unfold ctx_ptr in *; now rewrite ?Hz, ?Ho, ?Hi, ?Hfst.
Qed.

Lemma requirements_positions l l' chosen :
  Forall2 same_requirements l l' ->
  map group_positions (get_decode_requirements_per_index l chosen) =
  map group_positions (get_decode_requirements_per_index l' chosen).
Proof.
  intros H. unfold get_decode_requirements_per_index.
  rewrite !map_map. apply map_ext. intros i.
  assert (Hg : group_positions empty_group = group_positions empty_group)
    by reflexivity.
  revert Hg. generalize empty_group at 1 3. generalize empty_group.
  induction H as [|p q l l' Hpq Hl IH]; intros g g' Hg; simpl; [exact Hg|].
  apply IH. now apply add_ctx_positions.
Qed.

(** One more copy of a decode condition next to the one that is there, all
    other conditions iterated as before, changes neither the projected 16
    byte tri-state pattern, nor what the context requires of any bit, nor,
    for any [to_split] holding the context, the zeros/ones/ignores
    partition at any index, whether or not the conditions agree. *)
Lemma adjacent_duplicate_no_weight
    (name : string) (size : Z) (before after : list DecodeCondition)
    (n : DecodeCondition) :
  let ctx := {| generated_name := name; encoding_size_in_bytes := size;
                decodeConditions := before ++ n :: after |} in
  let ctx' := {| generated_name := name; encoding_size_in_bytes := size;
                 decodeConditions := before ++ n :: n :: after |} in
  convert_circIR_to_input_type_array ctx' =
  convert_circIR_to_input_type_array ctx /\
  (forall i, requirement ctx' i = requirement ctx i) /\
  (forall (pre post : list ctx_ptr) (k : nat) (chosen : list (nat * Z)),
     map group_positions
       (get_decode_requirements_per_index (pre ++ (k, ctx') :: post) chosen) =
     map group_positions
       (get_decode_requirements_per_index (pre ++ (k, ctx) :: post) chosen)).
Proof.
  cbv zeta. split; [|split].
  - unfold convert_circIR_to_input_type_array.
    cbn [decodeConditions]. apply omap_ext. intros i. apply input_check_duplicate.
  - intros i. apply requirement_duplicate.
  - intros pre post k chosen. apply requirements_positions.
    apply Forall2_app.
    + apply Forall_Forall2_diag. apply Forall_forall. intros p _. now split.
    + constructor.
      * split; [reflexivity|]. intros i. apply requirement_duplicate.
      * apply Forall_Forall2_diag. apply Forall_forall. intros p _. now split.
Qed.

(** *** The groups of an index *)

(** The contexts of [to_split] that require [ty] of bit [i], in order. *)
Definition requiring (ty : InputType) (i : nat) (to_split : list ctx_ptr)
  : list ctx_ptr :=
  List.filter (fun ctx => InputType_eqb (requirement (snd ctx) i) ty) to_split.

Lemma fold_add_ctx_unchosen chosen i to_split : forall g,
  already_chosen chosen i = false ->
  fold_left (add_ctx chosen i) to_split g =
  {| zeros := zeros g ++ requiring zero i to_split;
     ones := ones g ++ requiring one i to_split;
     ignores := ignores g ++ requiring ignore i to_split |}.
Proof.
  unfold requiring.
  induction to_split as [|ctx rest IH]; intros g Hch; simpl.
  - rewrite !app_nil_r. now destruct g.
  - rewrite (IH _ Hch). unfold add_ctx. rewrite Hch.
    destruct (requirement (snd ctx) i); simpl;
      rewrite <- ?app_assoc; reflexivity.
Qed.

(** The group of index [i]: empty once [i] has been chosen, and otherwise
    the contexts split by what they require of bit [i]. *)
Definition group_of (to_split : list ctx_ptr) (chosen : list (nat * Z))
    (i : nat) : Decode_Requires_Group :=
  if already_chosen chosen i then empty_group
  else {| zeros := requiring zero i to_split;
          ones := requiring one i to_split;
          ignores := requiring ignore i to_split |}.

Lemma fold_add_ctx_group to_split chosen i :
  fold_left (add_ctx chosen i) to_split empty_group = group_of to_split chosen i.
Proof.
  unfold group_of. destruct (already_chosen chosen i) eqn:Hch.
  - now apply add_ctx_chosen.
  - now rewrite (fold_add_ctx_unchosen _ _ _ _ Hch).
Qed.

(** X10: [get_decode_requirements_per_index] gives, for each of the 120
    indices, the empty group when the index was already chosen, and
    otherwise splits [to_split], in order, into the contexts that require
    a zero, a one, or nothing of that bit. *)
Theorem requirements_split_by_requirement
    (to_split : list ctx_ptr) (chosen : list (nat * Z)) :
  get_decode_requirements_per_index to_split chosen =
  map (group_of to_split chosen) (seq 0 120).
Proof.
  unfold get_decode_requirements_per_index.
  apply map_ext. intros i. apply fold_add_ctx_group.
Qed.

Lemma requiring_in ty i to_split c :
  In c (requiring ty i to_split) ->
  In c to_split /\ requirement (snd c) i = ty.
Proof.
  unfold requiring. intros H. apply filter_In in H. destruct H as [H1 H2].
  split; [exact H1|].
  destruct (requirement (snd c) i), ty; simpl in H2; congruence.
Qed.

(** *** The index the tree tests *)

Lemma max_element_from_first rest : forall pre largest_i largest,
  (largest_i < length pre)%nat ->
  (pre ++ rest) !! largest_i = Some largest ->
  (forall j g, (j < largest_i)%nat -> (pre ++ rest) !! j = Some g ->
     (compared_score g < compared_score largest)%nat) ->
  (forall j g, (j < length pre)%nat -> (pre ++ rest) !! j = Some g ->
     (compared_score g <= compared_score largest)%nat) ->
  exists m,
    (pre ++ rest) !! max_element_from largest_i largest (length pre) rest = Some m /\
    (forall j g, (j < max_element_from largest_i largest (length pre) rest)%nat ->
       (pre ++ rest) !! j = Some g ->
       (compared_score g < compared_score m)%nat) /\
    (forall j g, (pre ++ rest) !! j = Some g ->
       (compared_score g <= compared_score m)%nat).
Proof.
  induction rest as [|h rest IH];
    intros pre largest_i largest Hlt Hl Hfirst Hmax; simpl.
  - exists largest. split; [exact Hl|]. split; [exact Hfirst|].
    intros j g Hg. apply (Hmax j g); [|exact Hg].
    apply lookup_lt_Some in Hg. now rewrite app_nil_r in Hg.
  - assert (Hh : (pre ++ h :: rest) !! length pre = Some h)
      by now apply list_lookup_middle.
    replace (pre ++ h :: rest) with ((pre ++ [h]) ++ rest) in *
      by now rewrite <- app_assoc.
    replace (S (length pre)) with (length (pre ++ [h]))
      by (rewrite length_app; simpl; lia).
    unfold group_lt. fold (compared_score largest). fold (compared_score h).
    destruct (Nat.ltb_spec (compared_score largest) (compared_score h)).
    + apply IH.
      * rewrite length_app; simpl; lia.
      * exact Hh.
      * intros j g Hj Hg. specialize (Hmax j g Hj Hg). lia.
      * intros j g Hj Hg. rewrite length_app in Hj. simpl in Hj.
        destruct (Nat.eq_dec j (length pre)) as [->|Hne].
        -- rewrite Hh in Hg. injection Hg as <-. lia.
        -- assert (Hj' : (j < length pre)%nat) by lia.
           specialize (Hmax j g Hj' Hg). lia.
    + apply IH; [rewrite length_app; simpl; lia | exact Hl | exact Hfirst |].
      intros j g Hj Hg. rewrite length_app in Hj. simpl in Hj.
      destruct (Nat.eq_dec j (length pre)) as [->|Hne].
      * rewrite Hh in Hg. injection Hg as <-. lia.
      * apply (Hmax j g); [lia | exact Hg].
Qed.

Lemma max_element_first l g0 :
  l !! 0%nat = Some g0 ->
  exists m,
    l !! max_element l = Some m /\
    (forall j g, (j < max_element l)%nat -> l !! j = Some g ->
       (compared_score g < compared_score m)%nat) /\
    (forall j g, l !! j = Some g ->
       (compared_score g <= compared_score m)%nat).
Proof.
  destruct l as [|g rest]; [discriminate|]. intros _.
  apply (max_element_from_first rest [g] 0%nat g).
  - simpl; lia.
  - reflexivity.
  - intros j h Hj. lia.
  - intros j h Hj Hg. simpl in Hj. assert (j = 0%nat) as -> by lia.
    simpl in Hg. injection Hg as <-. lia.
Qed.

Lemma requirements_at to_split chosen j :
  (j < 120)%nat ->
  get_decode_requirements_per_index to_split chosen !! j =
  Some (group_of to_split chosen j).
Proof.
  intros Hj. rewrite requirements_lookup by exact Hj.
  now rewrite fold_add_ctx_group.
Qed.

Lemma candidate_index_first to_split chosen :
  exists m,
    get_decode_requirements_per_index to_split chosen
      !! candidate_index to_split chosen = Some m /\
    (forall j g, (j < candidate_index to_split chosen)%nat ->
       get_decode_requirements_per_index to_split chosen !! j = Some g ->
       (compared_score g < compared_score m)%nat) /\
    (forall j g,
       get_decode_requirements_per_index to_split chosen !! j = Some g ->
       (compared_score g <= compared_score m)%nat).
Proof.
  unfold candidate_index.
  apply (max_element_first _ (group_of to_split chosen 0)).
  apply requirements_at. lia.
Qed.

(** X11: the index [generate_decoder_selection_tree] tests is the first of
    the 120 whose group has the largest compared score, the size of the
    lexicographically smaller of its [zeros] and [ones]. *)
Theorem candidate_index_first_largest
    (to_split : list ctx_ptr) (chosen : list (nat * Z)) :
  (candidate_index to_split chosen < 120)%nat /\
  (forall j, (j < 120)%nat ->
     (compared_score (group_of to_split chosen j) <=
      compared_score (group_of to_split chosen
                        (candidate_index to_split chosen)))%nat) /\
  (forall j, (j < candidate_index to_split chosen)%nat ->
     (compared_score (group_of to_split chosen j) <
      compared_score (group_of to_split chosen
                        (candidate_index to_split chosen)))%nat).
Proof.
  pose proof (candidate_index_lt to_split chosen) as Hlt.
  destruct (candidate_index_first to_split chosen) as (m & Hm & Hf & Hx).
  revert Hlt Hm Hf. generalize (candidate_index to_split chosen).
  intros c Hlt Hm Hf.
  rewrite (requirements_at _ _ _ Hlt) in Hm.
  assert (Em : m = group_of to_split chosen c) by congruence.
  subst m.
  split; [exact Hlt|]. split.
  - intros j Hj. exact (Hx j _ (requirements_at _ _ j Hj)).
  - intros j Hj. apply (Hf j); [exact Hj|]. apply requirements_at. lia.
Qed.

(** *** Fuel and the tree *)

Section TreeProperties.

Variable bytes_input_variable : string.

Local Abbreviation tree := (generate_decoder_selection_tree bytes_input_variable).

Lemma selection_tree_more_fuel fuel :
  forall to_split chosen depth max_depth r,
    tree fuel to_split chosen depth max_depth = Some r ->
    tree (S fuel) to_split chosen depth max_depth = Some r.
Proof.
  induction fuel as [|fuel IH]; intros to_split chosen depth max_depth r;
    (destruct to_split as [|c0 [|c1 rest]];
     [rewrite !selection_tree_nil; auto
     |rewrite !selection_tree_single; auto |]);
    rewrite !selection_tree_many;
    generalize (candidate_index (c0 :: c1 :: rest) chosen); intros cand;
    generalize (default empty_group
                  (get_decode_requirements_per_index (c0 :: c1 :: rest) chosen
                     !! cand)); intros g;
    generalize (chosen ++ [(cand, depth)]); intros chosen';
    generalize (if max_depth <? depth then depth else max_depth); intros md;
    unfold selection_tree_split;
    destruct (ones g ++ ignores g) as [|o os];
    destruct (zeros g ++ ignores g) as [|z zs]; auto; try discriminate.
  all: intros H;
    repeat match type of H with
           | context [tree ?f ?ts ?ch ?d ?m] =>
               let E := fresh "E" in
               destruct (tree f ts ch d m) as [[? ?]|] eqn:E;
               [rewrite (IH _ _ _ _ _ E)|discriminate H]
           end;
    exact H.
Qed.

Lemma selection_tree_fuel_add k : forall fuel to_split chosen depth max_depth r,
  tree fuel to_split chosen depth max_depth = Some r ->
  tree (k + fuel) to_split chosen depth max_depth = Some r.
Proof.
  induction k as [|k IH]; intros fuel to_split chosen depth max_depth r H;
    [exact H|].
  change (S k + fuel)%nat with (S (k + fuel)).
  apply selection_tree_more_fuel. now apply IH.
Qed.

End TreeProperties.

(** X12: [generate_decoder_selection_tree] returns on every input once 120
    nested calls are allowed for, and allowing for more changes nothing:
    each call that recurses has chosen an index not chosen before. *)
Theorem selection_tree_depth_120 (bytes_input_variable : string)
    (to_split : list ctx_ptr) (chosen : list (nat * Z)) (depth max_depth : Z)
    (k : nat) :
  is_Some (generate_decoder_selection_tree bytes_input_variable 120
             to_split chosen depth max_depth) /\
  generate_decoder_selection_tree bytes_input_variable (k + 120)
    to_split chosen depth max_depth =
  generate_decoder_selection_tree bytes_input_variable 120
    to_split chosen depth max_depth.
Proof.
  pose proof (selection_tree_total bytes_input_variable 120 to_split chosen
                depth max_depth (unchosen_le chosen)) as [r Hr].
  split; [now exists r|].
  rewrite Hr. now apply selection_tree_fuel_add.
Qed.

(** *** The ways through the tree *)

(** A test [bytes[b] & (1 << s)] of the emitted tree with the branch taken:
    the first when the bit is set, the second when it is clear. *)
Definition tree_test : Type := Z * Z * bool.

(** The ways through an emitted tree: the tests passed on the way and the
    statement reached. *)
Fixpoint paths (e : Expr) : list (list tree_test * Expr) :=
  match e with
  | IfElse (BitwiseAnd (IndexVar _ b) (Parenthesis (Shfl (Int 1) (Int s))))
      lhs_split rhs_split =>
      map (fun p => ((b, s, true) :: fst p, snd p)) (paths lhs_split) ++
      map (fun p => ((b, s, false) :: fst p, snd p)) (paths rhs_split)
  | _ => [([], e)]
  end.

(** The bit of the instruction a test looks at. *)
Definition tested_bit (t : tree_test) : nat :=
  Z.to_nat (8 * fst (fst t) + snd (fst t)).

(** A test is within the 15 byte input array and not yet in
    [already_chosen_bits]. *)
Definition fresh_test (chosen : list (nat * Z)) (t : tree_test) : Prop :=
  0 <= fst (fst t) <= 14 /\ 0 <= snd (fst t) <= 7 /\
  already_chosen chosen (tested_bit t) = false.

(** The branch taken at a test is one the context allows. *)
Definition allows (ctx : ctx_ptr) (t : tree_test) : Prop :=
  requirement (snd ctx) (tested_bit t) <> (if snd t then zero else one).

Definition path_sound (to_split : list ctx_ptr) (chosen : list (nat * Z))
    (p : list tree_test * Expr) : Prop :=
  Forall (fresh_test chosen) (fst p) /\
  NoDup (map tested_bit (fst p)) /\
  (snd p = Return (Int (-1)) \/
   exists ctx, In ctx to_split /\ snd p = Return (call_ctx (snd ctx)) /\
               Forall (allows ctx) (fst p)).

Lemma path_sound_leaf_none to_split chosen :
  path_sound to_split chosen ([], Return (Int (-1))).
Proof. split; [constructor|]. split; [constructor|]. now left. Qed.

Lemma path_sound_leaf_call to_split chosen ctx :
  In ctx to_split ->
  path_sound to_split chosen ([], Return (call_ctx (snd ctx))).
Proof.
  intros Hin. split; [constructor|]. split; [constructor|].
  right. exists ctx. split; [exact Hin|]. split; [reflexivity|constructor].
Qed.

Lemma path_sound_step to_split chosen cand depth (taken : bool)
    (sub : list ctx_ptr) p :
  (cand < 120)%nat ->
  already_chosen chosen cand = false ->
  (forall ctx, In ctx sub ->
     In ctx to_split /\
     requirement (snd ctx) cand <> (if taken then zero else one)) ->
  path_sound sub (chosen ++ [(cand, depth)]) p ->
  path_sound to_split chosen
    ((wrap32 (Z.of_nat cand / 8), Z.of_nat cand mod 8, taken) :: fst p, snd p).
Proof.
  intros Hlt Hch Hsub (Hfresh & Hnd & Hleaf).
  assert (Hb : wrap32 (Z.of_nat cand / 8) = Z.of_nat cand / 8).
  { unfold wrap32. apply Z.mod_small.
    split; [apply Z.div_pos; lia|].
    apply Z.div_lt_upper_bound; lia. }
  assert (Hbit : tested_bit (wrap32 (Z.of_nat cand / 8), Z.of_nat cand mod 8,
                             taken) = cand).
  { unfold tested_bit. simpl. rewrite Hb.
    rewrite <- Z.div_mod by lia. apply Nat2Z.id. }
  split; [|split]; simpl.
  - constructor.
    + unfold fresh_test. rewrite Hbit. simpl. rewrite Hb.
      repeat split; try (apply Z.div_pos; lia); try (apply Z.mod_pos_bound; lia);
        [|pose proof (Z.mod_pos_bound (Z.of_nat cand) 8 ltac:(lia)); lia
         |exact Hch].
      assert (Z.of_nat cand / 8 < 15) by (apply Z.div_lt_upper_bound; lia). lia.
    + eapply Forall_impl; [exact Hfresh|].
      intros t (H1 & H2 & H3). repeat split; try tauto.
      rewrite already_chosen_app in H3.
      now destruct (already_chosen chosen (tested_bit t)).
  - rewrite Hbit. constructor; [|exact Hnd].
    intros Hin. apply list_elem_of_In, in_map_iff in Hin.
    destruct Hin as (t & Ht & Hin).
    pose proof (proj1 (List.Forall_forall _ _) Hfresh t Hin) as (_ & _ & H3).
    rewrite already_chosen_app, Ht, Nat.eqb_refl, orb_true_r in H3.
    discriminate.
  - destruct Hleaf as [Hleaf|(ctx & Hin & Hcall & Hall)]; [now left|].
    right. exists ctx. destruct (Hsub ctx Hin) as [Hts Hreq].
    split; [exact Hts|]. split; [exact Hcall|].
    constructor; [|exact Hall]. unfold allows. rewrite Hbit. exact Hreq.
Qed.

Lemma group_of_sides to_split chosen cand (taken : bool) (ctx : ctx_ptr) :
  already_chosen chosen cand = false ->
  In ctx ((if taken then ones (group_of to_split chosen cand)
           else zeros (group_of to_split chosen cand))
          ++ ignores (group_of to_split chosen cand)) ->
  In ctx to_split /\
  requirement (snd ctx) cand <> (if taken then zero else one).
Proof.
  intros Hch Hin. unfold group_of in Hin. rewrite Hch in Hin. simpl in Hin.
  apply in_app_or in Hin. destruct Hin as [Hin|Hin].
  - destruct taken; apply requiring_in in Hin; destruct Hin as [H1 H2];
      (split; [exact H1|]); rewrite H2; discriminate.
  - apply requiring_in in Hin. destruct Hin as [H1 H2].
    split; [exact H1|]. rewrite H2. destruct taken; discriminate.
Qed.

Section TreePaths.

Variable bytes_input_variable : string.

Local Abbreviation tree := (generate_decoder_selection_tree bytes_input_variable).

Lemma selection_tree_many_group fuel c0 c1 rest chosen depth max_depth :
  tree fuel (c0 :: c1 :: rest) chosen depth max_depth =
  selection_tree_split bytes_input_variable fuel
    (candidate_index (c0 :: c1 :: rest) chosen)
    (group_of (c0 :: c1 :: rest) chosen
       (candidate_index (c0 :: c1 :: rest) chosen))
    (chosen ++ [(candidate_index (c0 :: c1 :: rest) chosen, depth)])
    depth (if max_depth <? depth then depth else max_depth).
Proof.
  rewrite selection_tree_many.
  rewrite requirements_at by apply candidate_index_lt.
  generalize (candidate_index (c0 :: c1 :: rest) chosen). intros cand.
  generalize (group_of (c0 :: c1 :: rest) chosen cand). intros g.
  reflexivity.
Qed.

Lemma selection_tree_split_paths fuel to_split chosen cand depth md r p :
  (cand < 120)%nat ->
  (forall fuel' ts d m r p, fuel = S fuel' ->
     tree fuel' ts (chosen ++ [(cand, depth)]) d m = Some r ->
     In p (paths (snd r)) ->
     path_sound ts (chosen ++ [(cand, depth)]) p) ->
  selection_tree_split bytes_input_variable fuel cand
    (group_of to_split chosen cand) (chosen ++ [(cand, depth)]) depth md
    = Some r ->
  In p (paths (snd r)) ->
  path_sound to_split chosen p.
Proof.
  intros Hlt IH. destruct (already_chosen chosen cand) eqn:Hch.
  - unfold group_of. rewrite Hch. unfold selection_tree_split. simpl.
    intros [= <-] [<-|[]]. apply path_sound_leaf_none.
  - pose proof (fun ctx => group_of_sides to_split chosen cand true ctx Hch)
      as Hones.
    pose proof (fun ctx => group_of_sides to_split chosen cand false ctx Hch)
      as Hzeros.
    simpl in Hones, Hzeros. revert Hones Hzeros.
    generalize (group_of to_split chosen cand). intros g Hones Hzeros.
    unfold selection_tree_split.
    destruct (ones g ++ ignores g) as [|o os] eqn:Eo;
      destruct (zeros g ++ ignores g) as [|z zs] eqn:Ez;
      [intros [= <-] [<-|[]]; apply path_sound_leaf_none | | | ].
    all: destruct fuel as [|fuel]; [discriminate|].
    all: match goal with
         | |- match tree ?f ?ts ?ch ?d ?m with _ => _ end = _ -> _ =>
             destruct (tree f ts ch d m) as [[md1 t1]|] eqn:E1;
             [|discriminate]
         end.
    all: match goal with
         | |- match tree ?f ?ts ?ch ?d ?m with _ => _ end = _ -> _ =>
             destruct (tree f ts ch d m) as [[md2 t2]|] eqn:E2;
             [|discriminate]
         end.
    all: intros [= <-]; simpl; intros Hin; apply in_app_or in Hin;
      destruct Hin as [Hin|Hin]; apply in_map_iff in Hin;
      destruct Hin as (q & <- & Hq).
    all: first
      [refine (path_sound_step to_split chosen cand depth _ _ q Hlt Hch _
                 (IH fuel _ _ _ _ q eq_refl E1 Hq))
      |refine (path_sound_step to_split chosen cand depth _ _ q Hlt Hch _
                 (IH fuel _ _ _ _ q eq_refl E2 Hq))].
    all: first [exact Hones | exact Hzeros].
Qed.

Lemma selection_tree_paths fuel :
  forall to_split chosen depth max_depth r p,
    tree fuel to_split chosen depth max_depth = Some r ->
    In p (paths (snd r)) ->
    path_sound to_split chosen p.
Proof.
  induction fuel as [|fuel IH];
    intros to_split chosen depth max_depth r p;
    destruct to_split as [|c0 [|c1 rest]].
  1, 4: rewrite selection_tree_nil; intros [= <-]; simpl;
    intros [<-|[]]; apply path_sound_leaf_none.
  1, 3: rewrite selection_tree_single; intros [= <-]; simpl;
    intros [<-|[]]; apply path_sound_leaf_call; now left.
  - rewrite selection_tree_many_group.
    apply selection_tree_split_paths; [apply candidate_index_lt|].
    intros fuel' ts d m r' p' [=].
  - rewrite selection_tree_many_group.
    apply selection_tree_split_paths; [apply candidate_index_lt|].
    intros fuel' ts d m r' p' [= <-]. apply IH.
Qed.

End TreePaths.

(** X13: on every way through the tree [generate_decoder_selection_tree]
    emits, each test reads a byte of the 15 byte input and a bit of that
    byte, no bit is tested twice, and the statement reached either returns
    -1 or calls the decoder of a context of [to_split] that allows every
    branch taken on the way: it requires no zero of a bit found set and no
    one of a bit found clear. *)
Theorem selection_tree_paths_sound (bytes_input_variable : string)
    (to_split : list ctx_ptr) (max_depth : Z) (emitted : Expr)
    (path : list tree_test) (reached : Expr)
    (Htree : generate_decoder_selection_tree bytes_input_variable 120
               to_split [] 0 0 = Some (max_depth, emitted))
    (Hpath : In (path, reached) (paths emitted)) :
  Forall (fun t => 0 <= fst (fst t) <= 14 /\ 0 <= snd (fst t) <= 7) path /\
  NoDup (map tested_bit path) /\
  (reached = Return (Int (-1)) \/
   exists ctx, In ctx to_split /\ reached = Return (call_ctx (snd ctx)) /\
               Forall (allows ctx) path).
Proof.
  destruct (selection_tree_paths bytes_input_variable 120 to_split [] 0 0
              (max_depth, emitted) (path, reached) Htree Hpath)
    as (Hfresh & Hnd & Hleaf).
  split; [|split; [exact Hnd | exact Hleaf]].
  eapply Forall_impl; [exact Hfresh|]. intros t (H1 & H2 & _). tauto.
Qed.

Definition four_tree : Z * Expr :=
  default (0, Empty)
    (generate_decoder_selection_tree "input" 120 (pointers four_contexts) [] 0 0).

Lemma selection_tree_paths_sound_witness :
  let path := [(0, 0, true); (0, 2, false); (0, 1, true)] in
  let reached :=
    Return (FunctionCall "generated_decoder_prefix_2"
              [inner_func_arg1; inner_func_arg2]) in
  In (path, reached) (paths (snd four_tree)) /\
  Forall (fun t => 0 <= fst (fst t) <= 14 /\ 0 <= snd (fst t) <= 7) path /\
  NoDup (map tested_bit path) /\
  (reached = Return (Int (-1)) \/
   exists ctx, In ctx (pointers four_contexts) /\
               reached = Return (call_ctx (snd ctx)) /\
               Forall (allows ctx) path).
Proof.
  cbv zeta.
  assert (Hin : In ([(0, 0, true); (0, 2, false); (0, 1, true)],
                    Return (FunctionCall "generated_decoder_prefix_2"
                              [inner_func_arg1; inner_func_arg2]))
                   (paths (snd four_tree)))
    by (vm_compute; tauto).
  split; [exact Hin|].
  apply (selection_tree_paths_sound "input" (pointers four_contexts)
           (fst four_tree) (snd four_tree)).
  - vm_compute. reflexivity.
  - exact Hin.
Defined.

(** *** The projection and the requirements *)

(** How an entry of the projected byte pattern relates to what the tree
    takes the context to require of the same bit: a ['~'] in a constant
    projects to [ignore] but counts as a required one. *)
Definition projects_as (v req : InputType) : Prop :=
  match v with
  | zero => req = zero
  | one => req = one
  | ignore => req <> zero
  end.

Lemma omap_lookup {A B} (f : A -> option B) l : forall r k a,
  omap f l = Some r -> l !! k = Some a ->
  exists b, f a = Some b /\ r !! k = Some b.
Proof.
  induction l as [|x l IH]; intros r k a; simpl; [intros _ [=]|].
  destruct (f x) as [b|] eqn:Ex; [|discriminate].
  destruct (omap f l) as [bs|]; [|discriminate].
  intros [= <-]. destruct k as [|k]; simpl.
  - intros [= <-]. eauto.
  - intros Hk. exact (IH bs k a eq_refl Hk).
Qed.

Lemma ofold_set_val_defined n i cs : forall val val' c,
  ofold (set_val n i) val cs = Some val' -> In c cs ->
  new_val n i c <> Some None.
Proof.
  induction cs as [|c0 rest IH]; intros val val' c; simpl; [intros _ []|].
  unfold set_val at 1.
  destruct (new_val n i c0) as [[v|]|] eqn:E; try discriminate;
    intros H [<-|Hin]; try congruence; eapply IH; eauto.
Qed.

Lemma assigned_seq_8 n i c :
  (c < 8)%nat ->
  assigned n i (seq 0 8) c =
  match new_val n i c with
  | Some (Some v) => Some v
  | _ => None
  end.
Proof.
  intros Hc.
  do 8 (destruct c as [|c];
        [simpl; now destruct (new_val n i _) as [[|]|]|]).
  lia.
Qed.

Lemma apply_condition_projects (byte_i c : nat) val0 val1 n r0 v0 :
  apply_condition (Z.of_nat byte_i) val0 n = Some val1 ->
  length val0 = 8%nat -> (c < 8)%nat ->
  val0 !! c = Some v0 -> projects_as v0 r0 ->
  length val1 = 8%nat /\
  exists v1, val1 !! c = Some v1 /\
    projects_as v1 (requirement_step (Z.of_nat (8 * byte_i + c)) r0 n).
Proof.
  unfold apply_condition, requirement_step. intros H Hlen Hc Hv0 Hrel.
  replace (Z.of_nat (8 * byte_i + c)) with (Z.of_nat byte_i * 8 + Z.of_nat c)
    by lia.
  destruct ((low_bit_inc n >? (Z.of_nat byte_i + 1) * 8)
            || (high_inc n <? Z.of_nat byte_i * 8) || (high_inc n =? 119))
    eqn:Eskip.
  - injection H as <-. split; [exact Hlen|]. exists v0. split; [exact Hv0|].
    replace ((low_bit_inc n >? Z.of_nat byte_i * 8 + Z.of_nat c)
             || (high_inc n <? Z.of_nat byte_i * 8 + Z.of_nat c)
             || (high_inc n =? 119)) with true by lia.
    exact Hrel.
  - pose proof (ofold_set_val_defined n _ _ _ _ c H) as Hdef.
    apply ofold_set_val_lookup in H. destruct H as [Hlen1 Hk].
    split; [congruence|].
    specialize (Hk c). rewrite (assigned_seq_8 _ _ _ Hc) in Hk.
    specialize (Hdef ltac:(apply in_seq; lia)).
    unfold new_val in Hk, Hdef.
    destruct ((low_bit_inc n <=? Z.of_nat byte_i * 8 + Z.of_nat c)
              && (Z.of_nat byte_i * 8 + Z.of_nat c <=? high_inc n)) eqn:Ein.
    + replace ((low_bit_inc n >? Z.of_nat byte_i * 8 + Z.of_nat c)
               || (high_inc n <? Z.of_nat byte_i * 8 + Z.of_nat c)
               || (high_inc n =? 119)) with false by lia.
      revert Hk Hdef. unfold ctoit.
      generalize (bits_at (bits n)
                    (Z.of_nat byte_i * 8 + Z.of_nat c - low_bit_inc n)).
      intros ch.
      destruct (Ascii.eqb ch "0") eqn:E0;
        [|destruct (Ascii.eqb ch "1") eqn:E1;
          [|destruct (Ascii.eqb ch "~") eqn:E2]];
        intros Hk Hdef; try congruence.
      all: replace (c <? length val0)%nat with true in Hk
        by (symmetry; apply Nat.ltb_lt; lia).
      all: eexists; split; [exact Hk|]; simpl; congruence.
    + replace ((low_bit_inc n >? Z.of_nat byte_i * 8 + Z.of_nat c)
               || (high_inc n <? Z.of_nat byte_i * 8 + Z.of_nat c)
               || (high_inc n =? 119)) with true by lia.
      exists v0. split; [congruence|exact Hrel].
Qed.

Lemma input_check_projects (byte_i c : nat) conds : forall val0 val r0 v0,
  ofold (apply_condition (Z.of_nat byte_i)) val0 conds = Some val ->
  length val0 = 8%nat -> (c < 8)%nat ->
  val0 !! c = Some v0 -> projects_as v0 r0 ->
  exists v, val !! c = Some v /\
    projects_as v
      (fold_left (requirement_step (Z.of_nat (8 * byte_i + c))) conds r0).
Proof.
  induction conds as [|n conds IH]; intros val0 val r0 v0; simpl.
  - intros [= <-] _ _ Hv0 Hrel. eauto.
  - destruct (apply_condition (Z.of_nat byte_i) val0 n) as [val1|] eqn:E;
      [|discriminate].
    intros H Hlen Hc Hv0 Hrel.
    destruct (apply_condition_projects _ _ _ _ _ _ _ E Hlen Hc Hv0 Hrel)
      as (Hlen1 & v1 & Hv1 & Hrel1).
    exact (IH _ _ _ _ H Hlen1 Hc Hv1 Hrel1).
Qed.

Lemma projection_at (ctx : ExtractedCtx)
    (bytes : list (list InputType)) (i : nat)
    (Hbytes : convert_circIR_to_input_type_array ctx = Some bytes)
    (Hi : (i < 128)%nat) :
  exists v,
    bytes !! (i / 8)%nat ≫= (fun b => b !! (i mod 8)%nat) = Some v /\
    projects_as v (requirement ctx i).
Proof.
  unfold convert_circIR_to_input_type_array in Hbytes.
  assert (Hb : (i / 8 < 16)%nat) by (apply Nat.Div0.div_lt_upper_bound; lia).
  assert (Hc : (i mod 8 < 8)%nat) by (apply Nat.mod_upper_bound; lia).
  destruct (omap_lookup _ _ _ (i / 8)%nat (i / 8)%nat Hbytes) as (b & Hb1 & Hb2).
  { apply lookup_seq. lia. }
  rewrite Hb2. simpl. unfold input_check in Hb1.
  destruct (input_check_projects (i / 8) (i mod 8) _ _ _ ignore ignore
              Hb1) as (v & Hv & Hrel).
  - reflexivity.
  - exact Hc.
  - apply lookup_replicate. split; [reflexivity|exact Hc].
  - simpl. discriminate.
  - exists v. split; [exact Hv|].
    unfold requirement.
    rewrite <- (Nat.div_mod_eq i 8) in Hrel. exact Hrel.
Qed.


(** X14: when [convert_circIR_to_input_type_array] returns, the entry it
    projects for bit [i] and the requirement
    [get_decode_requirements_per_index] computes for the same bit come
    from the same decode condition: a projected zero or one is the
    required value, and a projected [ignore] is never a required zero. *)
Theorem projection_matches_requirement (ctx : ExtractedCtx)
    (bytes : list (list InputType)) (i : nat)
    (Hbytes : convert_circIR_to_input_type_array ctx = Some bytes)
    (Hi : (i < 128)%nat) :
  exists v,
    bytes !! (i / 8)%nat ≫= (fun b => b !! (i mod 8)%nat) = Some v /\
    projects_as v (requirement ctx i).
Proof.
  destruct (projection_at ctx bytes i Hbytes Hi) as (v & Hv & Hrel).
  exists v. split; [exact Hv | exact Hrel].
Qed.

Lemma projection_matches_requirement_witness :
  let ctx := {| generated_name := "f"; encoding_size_in_bytes := 1;
                decodeConditions := [dc "1~0" 0 3; dc "1" 8 120] |} in
  exists v,
    default [] (convert_circIR_to_input_type_array ctx) !! (1 / 8)%nat
      ≫= (fun b => b !! (1 mod 8)%nat) = Some v /\
    projects_as v (requirement ctx 1).
Proof.
  cbv zeta. apply projection_matches_requirement.
  - reflexivity.
  - lia.
Defined.

Lemma uints64_lookup bytes offset (i : nat) v :
  (i < 64)%nat ->
  bytes !! (offset + i / 8)%nat ≫= (fun b => b !! (i mod 8)%nat) = Some v ->
  convert_bytes_to_uints64 bytes offset !! i = Some v.
Proof.
  intros Hi Hv. unfold convert_bytes_to_uints64.
  change (map ?f ?l) with (f <$> l).
  rewrite list_lookup_fmap, lookup_seq_lt by exact Hi.
  cbn [fmap option_fmap option_map Nat.add].
  destruct (bytes !! (offset + i / 8)%nat) as [b|]; [|discriminate].
  cbn [mbind option_bind] in Hv. now rewrite Hv.
Qed.

(** X15: the two 64 entry words [get_decode_context_function_args] hands
    to a context function are the projection of instruction bits 0 to 63
    and 64 to 127: entry [i] of the first matches the requirement on bit
    [i], entry [i] of the second the requirement on bit [64 + i]. *)
Theorem function_args_match_requirements (ectx : ExtractedCtx)
    (args : decode_context_function_arg * decode_context_function_arg)
    (i : nat)
    (Hargs : get_decode_context_function_args ectx = Some args)
    (Hi : (i < 64)%nat) :
  exists v1 v2,
    byte (fst args) !! i = Some v1 /\ projects_as v1 (requirement ectx i) /\
    byte (snd args) !! i = Some v2 /\
    projects_as v2 (requirement ectx (64 + i)).
Proof.
  unfold get_decode_context_function_args in Hargs.
  destruct (convert_circIR_to_input_type_array ectx) as [bytes|] eqn:Hbytes;
    [|discriminate].
  injection Hargs as <-. simpl.
  destruct (projection_at ectx bytes i Hbytes ltac:(lia)) as (v1 & Hv1 & H1).
  destruct (projection_at ectx bytes (64 + i) Hbytes ltac:(lia))
    as (v2 & Hv2 & H2).
  exists v1, v2. split; [|split; [exact H1|split; [|exact H2]]].
  - apply uints64_lookup; [exact Hi|exact Hv1].
  - apply uints64_lookup; [exact Hi|].
    replace ((64 + i) / 8)%nat with (8 + i / 8)%nat in Hv2
      by (change 64%nat with (8 * 8)%nat;
          now rewrite Nat.div_add_l by lia).
    replace ((64 + i) mod 8)%nat with (i mod 8)%nat in Hv2
      by (change 64%nat with (8 * 8)%nat;
          now rewrite Nat.add_comm, Nat.Div0.mod_add).
    exact Hv2.
Qed.

Lemma function_args_match_requirements_witness :
  let ectx := {| generated_name := "f"; encoding_size_in_bytes := 9;
                 decodeConditions := [dc "1~0" 0 3; dc "01" 64 66;
                                      dc "1" 72 120] |} in
  exists v1 v2,
    byte (fst (default ({| byte := []; var := Empty |},
                        {| byte := []; var := Empty |})
                 (get_decode_context_function_args ectx))) !! 1%nat = Some v1 /\
    projects_as v1 (requirement ectx 1) /\
    byte (snd (default ({| byte := []; var := Empty |},
                        {| byte := []; var := Empty |})
                 (get_decode_context_function_args ectx))) !! 1%nat = Some v2 /\
    projects_as v2 (requirement ectx (64 + 1)).
Proof.
  cbv zeta. apply function_args_match_requirements.
  - reflexivity.
  - lia.
Defined.

(** *** Decode conditions as a multiset *)

(** No two conditions ask different characters of one bit. *)
Definition agree (conds : list DecodeCondition) : Prop :=
  forall n m i, In n conds -> In m conds -> disagree_at n m i = false.

(** What a condition that constrains bit [i] requires of it. *)
Definition required_by (n : DecodeCondition) (i : nat) : InputType :=
  if Ascii.eqb (bits_at (bits n) (Z.of_nat i - low_bit_inc n)) "0"
  then zero else one.

(** What a condition that constrains bit [i] projects there. *)
Definition projected_by (n : DecodeCondition) (i : nat) : option InputType :=
  ctoit (bits_at (bits n) (Z.of_nat i - low_bit_inc n)).

Lemma agree_char conds n m i :
  agree conds -> In n conds -> In m conds ->
  constrains n i = true -> constrains m i = true ->
  bits_at (bits n) (Z.of_nat i - low_bit_inc n) =
  bits_at (bits m) (Z.of_nat i - low_bit_inc m).
Proof.
  intros Ha Hn Hm Cn Cm. specialize (Ha n m i Hn Hm).
  unfold disagree_at in Ha. rewrite Cn, Cm in Ha. simpl in Ha.
  apply negb_false_iff, Ascii.eqb_eq in Ha. exact Ha.
Qed.

Lemma requirement_step_constrains (i : nat) v n :
  requirement_step (Z.of_nat i) v n =
  if constrains n i then required_by n i else v.
Proof.
  unfold requirement_step, constrains, required_by.
  destruct (Z.gtb_spec (low_bit_inc n) (Z.of_nat i)),
           (Z.ltb_spec (high_inc n) (Z.of_nat i)),
           (Z.eqb_spec (high_inc n) 119),
           (Z.leb_spec (low_bit_inc n) (Z.of_nat i)),
           (Z.leb_spec (Z.of_nat i) (high_inc n));
    simpl; try reflexivity; lia.
Qed.

Lemma fold_requirement_cases (i : nat) l : forall v,
  (fold_left (requirement_step (Z.of_nat i)) l v = v /\
   Forall (fun n => constrains n i = false) l) \/
  (exists n, In n l /\ constrains n i = true /\
             fold_left (requirement_step (Z.of_nat i)) l v = required_by n i).
Proof.
  induction l as [|n l IH] using rev_ind; intros v.
  - left. split; [reflexivity | constructor].
  - rewrite fold_left_app. cbn [fold_left].
    rewrite requirement_step_constrains.
    destruct (constrains n i) eqn:Cn.
    + right. exists n. split; [apply in_or_app; right; now left | auto].
    + destruct (IH v) as [[Hv Hall]|(m & Hm & Cm & Hv)].
      * left. split; [exact Hv|]. apply Forall_app. split; [exact Hall|].
        now constructor.
      * right. exists m. split; [apply in_or_app; now left | auto].
Qed.

Lemma requirement_order_free conds conds' (i : nat) v :
  (forall n, In n conds' <-> In n conds) -> agree conds ->
  fold_left (requirement_step (Z.of_nat i)) conds' v =
  fold_left (requirement_step (Z.of_nat i)) conds v.
Proof.
  intros Hsame Hagree.
  destruct (fold_requirement_cases i conds v) as [[Hv Hall]|(n & Hn & Cn & Hv)];
    destruct (fold_requirement_cases i conds' v)
      as [[Hv' Hall']|(n' & Hn' & Cn' & Hv')]; rewrite Hv, Hv'.
  - reflexivity.
  - apply Hsame in Hn'.
    pose proof (proj1 (List.Forall_forall _ _) Hall n' Hn') as C. cbv beta in C.
    congruence.
  - apply Hsame in Hn.
    pose proof (proj1 (List.Forall_forall _ _) Hall' n Hn) as C. cbv beta in C.
    congruence.
  - apply Hsame in Hn'. unfold required_by.
    now rewrite (agree_char conds n' n i Hagree Hn' Hn Cn' Cn).
Qed.

Lemma apply_condition_abort i val val2 n :
  apply_condition i val n = None -> apply_condition i val2 n = None.
Proof.
  unfold apply_condition.
  destruct ((low_bit_inc n >? (i + 1) * 8) || (high_inc n <? i * 8)
            || (high_inc n =? 119)); [discriminate|].
  apply ofold_set_val_abort.
Qed.

Lemma input_check_aborts i val0 l : forall val,
  ofold (apply_condition i) val l = None <->
  Exists (fun n => apply_condition i val0 n = None) l.
Proof.
  induction l as [|n l IH]; intros val; simpl.
  - split; [discriminate|]. intros H. inversion H.
  - destruct (apply_condition i val n) as [val1|] eqn:E.
    + rewrite IH. split; [now apply Exists_cons_tl|].
      intros H. inversion H as [? ? Hn|? ? Hl]; subst; [|exact Hl].
      apply (apply_condition_abort i val0 val) in Hn. congruence.
    + split; [|reflexivity]. intros _. apply Exists_cons_hd.
      now apply (apply_condition_abort i val val0).
Qed.

Lemma apply_condition_at (byte_i c : nat) val0 val1 n :
  apply_condition (Z.of_nat byte_i) val0 n = Some val1 ->
  length val0 = 8%nat -> (c < 8)%nat ->
  length val1 = 8%nat /\
  val1 !! c = if constrains n (8 * byte_i + c)
              then projected_by n (8 * byte_i + c) else val0 !! c.
Proof.
  unfold apply_condition, constrains, projected_by. intros H Hlen Hc.
  replace (Z.of_nat (8 * byte_i + c)) with (Z.of_nat byte_i * 8 + Z.of_nat c)
    by lia.
  destruct ((low_bit_inc n >? (Z.of_nat byte_i + 1) * 8)
            || (high_inc n <? Z.of_nat byte_i * 8) || (high_inc n =? 119))
    eqn:Eskip.
  - injection H as <-. split; [exact Hlen|].
    replace ((low_bit_inc n <=? Z.of_nat byte_i * 8 + Z.of_nat c)
             && (Z.of_nat byte_i * 8 + Z.of_nat c <=? high_inc n)
             && negb (high_inc n =? 119)) with false by lia.
    reflexivity.
  - pose proof (ofold_set_val_defined n _ _ _ _ c H) as Hdef.
    apply ofold_set_val_lookup in H. destruct H as [Hlen1 Hk].
    split; [congruence|].
    specialize (Hk c). rewrite (assigned_seq_8 _ _ _ Hc) in Hk.
    specialize (Hdef ltac:(apply in_seq; lia)).
    unfold new_val in Hk, Hdef.
    destruct ((low_bit_inc n <=? Z.of_nat byte_i * 8 + Z.of_nat c)
              && (Z.of_nat byte_i * 8 + Z.of_nat c <=? high_inc n)) eqn:Ein.
    + replace (negb (high_inc n =? 119)) with true by lia. cbn [andb].
      destruct (ctoit _) as [v|]; [|congruence].
      replace (c <? length val0)%nat with true in Hk
        by (symmetry; apply Nat.ltb_lt; lia).
      exact Hk.
    + cbn [andb]. exact Hk.
Qed.

Lemma input_check_cases (byte_i c : nat) l : forall val0 val,
  ofold (apply_condition (Z.of_nat byte_i)) val0 l = Some val ->
  length val0 = 8%nat -> (c < 8)%nat ->
  length val = 8%nat /\
  ((val !! c = val0 !! c /\
    Forall (fun n => constrains n (8 * byte_i + c) = false) l) \/
   (exists n, In n l /\ constrains n (8 * byte_i + c) = true /\
              val !! c = projected_by n (8 * byte_i + c))).
Proof.
  induction l as [|n l IH] using rev_ind; intros val0 val H Hlen Hc.
  - injection H as <-. split; [exact Hlen|]. left. split; [reflexivity|constructor].
  - rewrite ofold_app in H.
    destruct (ofold _ val0 l) as [val1|] eqn:E; [|discriminate].
    destruct (IH val0 val1 E Hlen Hc) as [Hlen1 Hcases].
    cbn [ofold] in H.
    destruct (apply_condition (Z.of_nat byte_i) val1 n) as [val2|] eqn:E2;
      [|discriminate].
    injection H as <-.
    destruct (apply_condition_at byte_i c val1 val2 n E2 Hlen1 Hc)
      as [Hlen2 Hat].
    split; [exact Hlen2|].
    destruct (constrains n (8 * byte_i + c)) eqn:Cn.
    + right. exists n. split; [apply in_or_app; right; now left | auto].
    + destruct Hcases as [[Hv Hall]|(m & Hm & Cm & Hv)].
      * left. split; [congruence|]. apply Forall_app. split; [exact Hall|].
        now constructor.
      * right. exists m. split; [apply in_or_app; now left|].
        split; [exact Cm | congruence].
Qed.

Lemma input_check_order_free conds conds' (byte_i : nat) :
  (forall n, In n conds' <-> In n conds) -> agree conds ->
  input_check conds' byte_i = input_check conds byte_i.
Proof.
  intros Hsame Hagree. unfold input_check.
  pose proof (input_check_aborts (Z.of_nat byte_i) (replicate 8 ignore) conds
                (replicate 8 ignore)) as Hn.
  pose proof (input_check_aborts (Z.of_nat byte_i) (replicate 8 ignore) conds'
                (replicate 8 ignore)) as Hn'.
  assert (Hex : Exists (fun n => apply_condition (Z.of_nat byte_i)
                                   (replicate 8 ignore) n = None) conds' <->
                Exists (fun n => apply_condition (Z.of_nat byte_i)
                                   (replicate 8 ignore) n = None) conds).
  { rewrite !List.Exists_exists. split; intros (n & Hin & Hx); exists n;
      (split; [now apply Hsame|exact Hx]). }
  destruct (ofold _ _ conds) as [val|] eqn:E;
    destruct (ofold _ _ conds') as [val'|] eqn:E'.
  - f_equal. apply list_eq. intros c.
    destruct (Nat.lt_ge_cases c 8) as [Hc|Hc].
    + destruct (input_check_cases byte_i c conds _ _ E eq_refl Hc)
        as [_ [[Hv Hall]|(n & Hin & Cn & Hv)]];
        destruct (input_check_cases byte_i c conds' _ _ E' eq_refl Hc)
          as [_ [[Hv' Hall']|(n' & Hin' & Cn' & Hv')]]; rewrite Hv, Hv'.
      * reflexivity.
      * apply Hsame in Hin'.
        pose proof (proj1 (List.Forall_forall _ _) Hall n' Hin') as C.
        cbv beta in C. congruence.
      * apply Hsame in Hin.
        pose proof (proj1 (List.Forall_forall _ _) Hall' n Hin) as C.
        cbv beta in C. congruence.
      * apply Hsame in Hin'. unfold projected_by.
        now rewrite (agree_char conds n' n _ Hagree Hin' Hin Cn' Cn).
    + destruct (input_check_cases byte_i 0 conds _ _ E eq_refl ltac:(lia))
        as [Hl _].
      destruct (input_check_cases byte_i 0 conds' _ _ E' eq_refl ltac:(lia))
        as [Hl' _].
      rewrite !lookup_ge_None_2 by lia. reflexivity.
  - exfalso. assert (H : @None (list InputType) = None) by reflexivity.
    apply Hn' in H. apply Hex in H. apply Hn in H. discriminate.
  - exfalso. assert (H : @None (list InputType) = None) by reflexivity.
    apply Hn in H. apply Hex in H. apply Hn' in H. discriminate.
  - reflexivity.
Qed.

(** C8, as the code has it: for every context whose decode conditions
    agree (no two ask different characters of one bit), the projected 16
    byte tri-state pattern, what the context requires of any bit, and,
    for any [to_split] holding the context, the zeros/ones/ignores
    partition at any index depend only on which conditions the multiset
    holds: one more copy of a condition that is in it changes none of
    them, in whatever order the multiset is then iterated. *)
Theorem duplicate_condition_no_weight
    (name : string) (size : Z) (conds conds' : list DecodeCondition)
    (Hsame : forall n, In n conds' <-> In n conds)
    (Hagree : agree conds) :
  let ctx := {| generated_name := name; encoding_size_in_bytes := size;
                decodeConditions := conds |} in
  let ctx' := {| generated_name := name; encoding_size_in_bytes := size;
                 decodeConditions := conds' |} in
  convert_circIR_to_input_type_array ctx' =
  convert_circIR_to_input_type_array ctx /\
  (forall i, requirement ctx' i = requirement ctx i) /\
  (forall (pre post : list ctx_ptr) (k : nat) (chosen : list (nat * Z)),
     map group_positions
       (get_decode_requirements_per_index (pre ++ (k, ctx') :: post) chosen) =
     map group_positions
       (get_decode_requirements_per_index (pre ++ (k, ctx) :: post) chosen)).
Proof.
  cbv zeta.
  assert (Hreq : forall i,
            requirement {| generated_name := name;
                           encoding_size_in_bytes := size;
                           decodeConditions := conds' |} i =
            requirement {| generated_name := name;
                           encoding_size_in_bytes := size;
                           decodeConditions := conds |} i).
  { intros i. unfold requirement. cbn [decodeConditions].
    now apply requirement_order_free. }
  split; [|split].
  - unfold convert_circIR_to_input_type_array.
    cbn [decodeConditions]. apply omap_ext. intros i.
    now apply input_check_order_free.
  - exact Hreq.
  - intros pre post k chosen. apply requirements_positions.
    apply Forall2_app.
    + apply Forall_Forall2_diag. apply Forall_forall. intros p _. now split.
    + constructor.
      * split; [reflexivity|]. exact Hreq.
      * apply Forall_Forall2_diag. apply Forall_forall. intros p _. now split.
Qed.

(** Two bits of a one byte instruction, and its length delimiter. *)
Definition two_bits : DecodeCondition := dc "10" 0 2.
Definition delimiter : DecodeCondition := dc "1" 8 120.

Lemma delimiter_constrains_nothing i : constrains delimiter i = false.
Proof.
  unfold constrains, delimiter, dc, high_inc, wrap32. simpl.
  apply andb_false_r.
Qed.

Lemma disagree_at_self n i : disagree_at n n i = false.
Proof.
  unfold disagree_at. rewrite Ascii.eqb_refl. apply andb_false_r.
Qed.

Lemma duplicate_condition_no_weight_witness :
  let ctx := {| generated_name := "f"; encoding_size_in_bytes := 1;
                decodeConditions := [two_bits; delimiter] |} in
  let ctx' := {| generated_name := "f"; encoding_size_in_bytes := 1;
                 decodeConditions := [delimiter; two_bits; two_bits] |} in
  convert_circIR_to_input_type_array ctx' =
  convert_circIR_to_input_type_array ctx /\
  (forall i, requirement ctx' i = requirement ctx i) /\
  (forall (pre post : list ctx_ptr) (k : nat) (chosen : list (nat * Z)),
     map group_positions
       (get_decode_requirements_per_index (pre ++ (k, ctx') :: post) chosen) =
     map group_positions
       (get_decode_requirements_per_index (pre ++ (k, ctx) :: post) chosen)).
Proof.
  apply (duplicate_condition_no_weight "f" 1 [two_bits; delimiter]
           [delimiter; two_bits; two_bits]).
  - intros n. simpl. tauto.
  - intros n m i [<-|[<-|[]]] [<-|[<-|[]]];
      first [apply disagree_at_self
            |unfold disagree_at; rewrite delimiter_constrains_nothing;
             rewrite ?andb_false_r; reflexivity].
Defined.

(** Two conditions that ask different values of bit 0. *)
Definition ask_one : DecodeCondition := dc "1" 0 1.
Definition ask_zero : DecodeCondition := dc "0" 0 1.

(** C8 fails as stated: where two conditions disagree over a bit, the one
    iterated last decides it, and an [unordered_multiset] is free to
    iterate in another order once a copy has been inserted (equal elements
    stay adjacent). With one more copy of [ask_one] and the order changed,
    bit 0 is required one where it was required zero, and the projected
    pattern and the partition change with it. *)
Lemma duplicate_with_disagreement_has_weight :
  let ctx := {| generated_name := "f"; encoding_size_in_bytes := 1;
                decodeConditions := [ask_one; ask_zero; delimiter] |} in
  let ctx' := {| generated_name := "f"; encoding_size_in_bytes := 1;
                 decodeConditions :=
                   [ask_zero; ask_one; ask_one; delimiter] |} in
  (forall n, In n (decodeConditions ctx') <-> In n (decodeConditions ctx)) /\
  disagree (decodeConditions ctx) = true /\
  requirement ctx 0 = zero /\
  requirement ctx' 0 = one /\
  convert_circIR_to_input_type_array ctx' <>
  convert_circIR_to_input_type_array ctx /\
  map group_positions (get_decode_requirements_per_index [(0%nat, ctx')] []) <>
  map group_positions (get_decode_requirements_per_index [(0%nat, ctx)] []).
Proof.
  cbv zeta. split; [intros n; simpl; tauto|].
  split; [vm_compute; reflexivity|].
  split; [vm_compute; reflexivity|].
  split; [vm_compute; reflexivity|].
  split; vm_compute; discriminate.
Qed.

End Decoder.

(** ** The union-find under the e-graph *)

Module UnionFind.

Definition Id := nat.

(** Modelled from the spec: [circuitous/ADT/UnionFind.hpp] is not among the
    sources. A disjoint-set forest over dense ids starting at 0, with
    [make_set], a read-only [find], [find_compress] with path halving and
    [merge] by rank that returns the surviving root; [merge(a, a)] changes
    nothing and returns [a]; an unknown id is fatal ([None]). *)
Record t := {
  parent : list Id;
  rank : list nat
}.

Definition empty : t := {| parent := []; rank := [] |}.

Definition size (u : t) : nat := length (parent u).

Definition make_set (u : t) : Id * t :=
  (size u, {| parent := parent u ++ [size u]; rank := rank u ++ [0%nat] |}).

Fixpoint find_from (fuel : nat) (ps : list Id) (id : Id) : option Id :=
  match fuel with
  | O => None
  | S fuel' =>
      match ps !! id with
      | None => None
      | Some p => if (p =? id)%nat then Some id else find_from fuel' ps p
      end
  end.

Definition find (u : t) (id : Id) : option Id :=
  find_from (S (size u)) (parent u) id.

Fixpoint find_compress_from (fuel : nat) (ps : list Id) (id : Id)
  : option (Id * list Id) :=
  match fuel with
  | O => None
  | S fuel' =>
      match ps !! id with
      | None => None
      | Some p =>
          if (p =? id)%nat then Some (id, ps)
          else
            match ps !! p with
            | None => None
            | Some gp => find_compress_from fuel' (<[id := gp]> ps) gp
            end
      end
  end.

Definition find_compress (u : t) (id : Id) : option (Id * t) :=
  match find_compress_from (S (size u)) (parent u) id with
  | Some (r, ps) => Some (r, {| parent := ps; rank := rank u |})
  | None => None
  end.

Definition merge (u : t) (a b : Id) : option (Id * t) :=
  match find u a, find u b with
  | Some ra, Some rb =>
      if (ra =? rb)%nat then Some (ra, u)
      else
        let ka := default 0%nat (rank u !! ra) in
        let kb := default 0%nat (rank u !! rb) in
        if (ka <? kb)%nat then
          Some (rb, {| parent := <[ra := rb]> (parent u); rank := rank u |})
        else
          Some (ra, {| parent := <[rb := ra]> (parent u);
                       rank := if (ka =? kb)%nat
                               then <[ra := S ka]> (rank u) else rank u |})
  | _, _ => None
  end.

Lemma find_compress_from_length fuel : forall ps id r ps',
  find_compress_from fuel ps id = Some (r, ps') -> length ps' = length ps.
Proof.
  induction fuel as [|fuel IH]; intros ps id r ps'; simpl; [discriminate|].
  destruct (ps !! id) as [p|]; [|discriminate].
  destruct (p =? id)%nat.
  - now intros [= _ <-].
  - destruct (ps !! p) as [gp|]; [|discriminate].
    intros H. apply IH in H. now rewrite length_insert in H.
Qed.

Lemma find_compress_size u id r u' :
  find_compress u id = Some (r, u') -> size u' = size u.
Proof.
  unfold find_compress.
  destruct (find_compress_from _ _ _) as [[r0 ps]|] eqn:E; [|discriminate].
  intros [= _ <-]. unfold size; simpl.
  eapply find_compress_from_length; eauto.
Qed.

Lemma find_compress_from_lt fuel : forall ps id r ps',
  find_compress_from fuel ps id = Some (r, ps') -> (r < length ps)%nat.
Proof.
  induction fuel as [|fuel IH]; intros ps id r ps'; simpl; [discriminate|].
  destruct (ps !! id) as [p|] eqn:E; [|discriminate].
  destruct (p =? id)%nat.
  - intros [= <- _]. now apply lookup_lt_Some in E.
  - destruct (ps !! p) as [gp|]; [|discriminate].
    intros H. apply IH in H. now rewrite length_insert in H.
Qed.

Lemma find_compress_lt u id r u' :
  find_compress u id = Some (r, u') -> (r < size u)%nat.
Proof.
  unfold find_compress.
  destruct (find_compress_from _ _ _) as [[r0 ps]|] eqn:E; [|discriminate].
  intros [= <- _]. eapply find_compress_from_lt; eauto.
Qed.

Lemma merge_size u a b r u' :
  merge u a b = Some (r, u') -> size u' = size u.
Proof.
  unfold merge. destruct (find u a) as [ra|]; [|discriminate].
  destruct (find u b) as [rb|]; [|discriminate].
  destruct (ra =? rb)%nat; [now intros [= _ <-]|].
  destruct (_ <? _)%nat; intros [= _ <-]; unfold size; simpl;
    now rewrite length_insert.
Qed.

End UnionFind.

(** ** The e-graph (circuitous/ADT/EGraph.hpp) *)

Module EGraph.

Import UnionFind.

(** An [ENode]: its storage (named) and its children. *)
Record ENode := {
  data : string;
  children : list Id
}.

(** An [ENode *]: the position of the node in [_nodes]. *)
Definition node_ptr := nat.

Record EClass := {
  nodes : list node_ptr;
  parents : list node_ptr
}.

Definition empty_class : EClass := {| nodes := []; parents := [] |}.

Record EGraph := {
  _nodes : list ENode;
  _unions : UnionFind.t;
  _classes : gmap Id EClass;
  _ids : gmap node_ptr Id;
  _pending : list Id
}.

Definition empty : EGraph :=
  {| _nodes := []; _unions := UnionFind.empty; _classes := ∅; _ids := ∅;
     _pending := [] |}.

(** Member functions thread the e-graph and may end fatally (a failed
    [CHECK], [std::out_of_range] from [at], an unknown id). *)
Definition M (A : Type) : Type := EGraph -> option (A * EGraph).

Definition ret {A} (a : A) : M A := fun g => Some (a, g).

Definition bind {A B} (m : M A) (f : A -> M B) : M B :=
  fun g => match m g with
           | Some (a, g') => f a g'
           | None => None
           end.

Definition fatal {A} : M A := fun _ => None.

Notation "x <- m ;; k" := (bind m (fun x => k))
  (at level 90, m at level 80, right associativity).
Notation "m ;;; k" := (bind m (fun _ => k))
  (at level 90, right associativity).

Fixpoint for_each {A} (l : list A) (body : A -> M unit) : M unit :=
  match l with
  | [] => ret tt
  | a :: rest => body a ;;; for_each rest body
  end.

Fixpoint map_each {A B} (l : list A) (body : A -> M B) : M (list B) :=
  match l with
  | [] => ret []
  | a :: rest => b <- body a ;; bs <- map_each rest body ;; ret (b :: bs)
  end.

(** [_unions.find_compress(id)] *)
Definition unions_find_compress (id : Id) : M Id :=
  fun g =>
    match UnionFind.find_compress (_unions g) id with
    | Some (r, u) =>
        Some (r, {| _nodes := _nodes g; _unions := u; _classes := _classes g;
                    _ids := _ids g; _pending := _pending g |})
    | None => None
    end.

Definition set_classes (f : gmap Id EClass -> gmap Id EClass) : M unit :=
  fun g => Some (tt, {| _nodes := _nodes g; _unions := _unions g;
                        _classes := f (_classes g);
                        _ids := _ids g; _pending := _pending g |}).

Definition set_ids (f : gmap node_ptr Id -> gmap node_ptr Id) : M unit :=
  fun g => Some (tt, {| _nodes := _nodes g; _unions := _unions g;
                        _classes := _classes g;
                        _ids := f (_ids g); _pending := _pending g |}).

Definition set_pending (f : list Id -> list Id) : M unit :=
  fun g => Some (tt, {| _nodes := _nodes g; _unions := _unions g;
                        _classes := _classes g;
                        _ids := _ids g; _pending := f (_pending g) |}).

Definition set_nodes (f : list ENode -> list ENode) : M unit :=
  fun g => Some (tt, {| _nodes := f (_nodes g); _unions := _unions g;
                        _classes := _classes g;
                        _ids := _ids g; _pending := _pending g |}).

Definition get {A} (f : EGraph -> A) : M A := fun g => Some (f g, g).

(** [m.emplace(k, v)]: no effect when [k] is present. *)
Definition emplace `{Countable K} {V} (k : K) (v : V) (m : gmap K V) : gmap K V :=
  match m !! k with
  | Some _ => m
  | None => <[k := v]> m
  end.

(** [_classes.at(id)]: throws when [id] is absent. *)
Definition classes_at (id : Id) : M EClass :=
  fun g => match _classes g !! id with
           | Some c => Some (c, g)
           | None => None
           end.

(** [_classes[id]]: inserts an empty class when [id] is absent. *)
Definition classes_index (id : Id) : M EClass :=
  fun g => match _classes g !! id with
           | Some c => Some (c, g)
           | None =>
               Some (empty_class,
                     {| _nodes := _nodes g; _unions := _unions g;
                        _classes := <[id := empty_class]> (_classes g);
                        _ids := _ids g; _pending := _pending g |})
           end.

(** [canonicalize] of a node not yet stored: its children, each replaced
    by [find_compress] of it. *)
Definition canonicalize_children (cs : list Id) : M (list Id) :=
  map_each cs unions_find_compress.

(** [canonicalize] of a stored node, through its pointer. *)
Definition canonicalize (node : node_ptr) : M unit :=
  n <- (fun g => match _nodes g !! node with
                 | Some n => Some (n, g)
                 | None => None
                 end) ;;
  cs <- canonicalize_children (children n) ;;
  set_nodes (fun ns => <[node := {| data := data n; children := cs |}]> ns).

(** [create_singleton_eclass] *)
Definition create_singleton_eclass (enode : node_ptr) : M Id :=
  id <- (fun g =>
           let '(id, u) := UnionFind.make_set (_unions g) in
           Some (id, {| _nodes := _nodes g; _unions := u;
                        _classes := _classes g; _ids := _ids g;
                        _pending := _pending g |})) ;;
  set_ids (emplace enode id) ;;;
  set_classes (emplace id {| nodes := [enode]; parents := [] |}) ;;;
  ret id.

(** [parents(child).push_back(node_ptr)] *)
Definition push_parent (node : node_ptr) (child : Id) : M unit :=
  c <- classes_at child ;;
  set_classes (fun m => <[child := {| nodes := nodes c;
                                      parents := parents c ++ [node] |}]> m).

(** [EGraph::add] *)
Definition add (node : ENode) : M (Id * node_ptr) :=
  cs <- canonicalize_children (children node) ;;
  node_ptr <- get (fun g => length (_nodes g)) ;;
  set_nodes (fun ns => ns ++ [{| data := data node; children := cs |}]) ;;;
  id <- create_singleton_eclass node_ptr ;;
  for_each cs (push_parent node_ptr) ;;;
  ret (id, node_ptr).

(** [find] of an id, and [find] of a node pointer. *)
Definition find (g : EGraph) (id : Id) : option Id :=
  UnionFind.find (_unions g) id.

Definition find_node (g : EGraph) (enode : node_ptr) : option Id :=
  match _ids g !! enode with
  | Some id => UnionFind.find (_unions g) id
  | None => None
  end.

(** [EGraph::merge] *)
Definition merge (a b : Id) : M Id :=
  a <- unions_find_compress a ;;
  b <- unions_find_compress b ;;
  if (a =? b)%nat then ret a
  else
    ca <- classes_at a ;;
    cb <- classes_at b ;;
    let '(a, b) :=
      if (length (parents ca) <? length (parents cb))%nat
      then (b, a) else (a, b) in
    new_id <- (fun g =>
                 match UnionFind.merge (_unions g) a b with
                 | Some (r, u) =>
                     Some (r, {| _nodes := _nodes g; _unions := u;
                                 _classes := _classes g; _ids := _ids g;
                                 _pending := _pending g |})
                 | None => None
                 end) ;;
    if negb (new_id =? a)%nat then fatal
    else
      set_pending (fun p => p ++ [new_id]) ;;;
      class_b <- classes_index b ;;
      set_classes (delete b) ;;;
      class_a <- classes_index a ;;
      set_classes (fun m => <[a := {| nodes := nodes class_a ++ nodes class_b;
                                      parents := parents class_a ++ parents class_b |}]> m) ;;;
      ret new_id.

(** First occurrences, in order: the ids an [unordered_set] holds after the
    insertions (its iteration order is not specified; insertion order is
    taken). *)
Fixpoint dedup_ids (seen : list Id) (l : list Id) : list Id :=
  match l with
  | [] => []
  | x :: rest =>
      if existsb (Nat.eqb x) seen then dedup_ids seen rest
      else x :: dedup_ids (x :: seen) rest
  end.

(** [new_parents.try_emplace(id, node)] on an [unordered_map], kept in
    insertion order. *)
Definition try_emplace (id : Id) (node : node_ptr)
    (m : list (Id * node_ptr)) : list (Id * node_ptr) :=
  if existsb (fun e => (fst e =? id)%nat) m then m else m ++ [(id, node)].

(** [_ids[node]]: inserts a default id when [node] is absent. *)
Definition ids_index (node : node_ptr) : M Id :=
  fun g => match _ids g !! node with
           | Some id => Some (id, g)
           | None =>
               Some (0%nat,
                     {| _nodes := _nodes g; _unions := _unions g;
                        _classes := _classes g;
                        _ids := <[node := 0%nat]> (_ids g);
                        _pending := _pending g |})
           end.

(** [EGraph::repair], of the class stored under [key]. *)
Definition repair (key : Id) : M unit :=
  eclass <- classes_index key ;;
  for_each (nodes eclass) (fun node =>
    canonicalize node ;;;
    id <- ids_index node ;;
    id' <- unions_find_compress id ;;
    set_ids (fun m => <[node := id']> m)) ;;;
  new_parents <-
    (fix loop (ps : list node_ptr) (acc : list (Id * node_ptr))
       : M (list (Id * node_ptr)) :=
       match ps with
       | [] => ret acc
       | node :: rest =>
           id <- ids_index node ;;
           id' <- unions_find_compress id ;;
           loop rest (try_emplace id' node acc)
       end) (parents eclass) [] ;;
  set_classes (fun m => <[key := {| nodes := nodes eclass;
                                    parents := map snd new_parents |}]> m) ;;;
  set_classes (filter (fun kv => nodes (snd kv) <> [])).

(** [EGraph::rebuild] *)
Definition rebuild : M unit :=
  pending <- get _pending ;;
  for_each pending (fun id =>
    c <- classes_index id ;;
    for_each (nodes c) canonicalize) ;;;
  found <- map_each pending unions_find_compress ;;
  let changed_classes := dedup_ids [] found in
  for_each changed_classes repair ;;;
  set_pending (fun _ => []).

(** The canonical key of a stored node: its storage and the [find] of each
    child. *)
Definition canonical_key (g : EGraph) (node : node_ptr)
  : option (string * list Id) :=
  match _nodes g !! node with
  | Some n =>
      match mapM (find g) (children n) with
      | Some cs => Some (data n, cs)
      | None => None
      end
  | None => None
  end.

(** The key [add] gives a node that is not stored yet. *)
Definition canonical_key_of (g : EGraph) (n : ENode)
  : option (string * list Id) :=
  match mapM (find g) (children n) with
  | Some cs => Some (data n, cs)
  | None => None
  end.

Definition leaf (name : string) : ENode := {| data := name; children := [] |}.

Definition run {A} (m : M A) (g : EGraph) : option EGraph :=
  match m g with
  | Some (_, g') => Some g'
  | None => None
  end.

(** *** Properties of [add] and [rebuild] *)

Ltac step_bind H :=
  unfold bind in H at 1;
  match type of H with
  | match ?m ?g with _ => _ end = _ =>
      let a := fresh "a" in
      let g1 := fresh "g" in
      let E := fresh "E" in
      destruct (m g) as [[a g1]|] eqn:E; [|discriminate H]
  end.

(** What a step leaves alone. *)
Definition keeps_shape (g g' : EGraph) : Prop :=
  _nodes g' = _nodes g /\ _classes g' = _classes g /\ _ids g' = _ids g /\
  _pending g' = _pending g /\
  UnionFind.size (_unions g') = UnionFind.size (_unions g).

Lemma keeps_shape_refl g : keeps_shape g g.
Proof. repeat split. Qed.

Lemma keeps_shape_trans g1 g2 g3 :
  keeps_shape g1 g2 -> keeps_shape g2 g3 -> keeps_shape g1 g3.
Proof.
  intros (A1 & A2 & A3 & A4 & A5) (B1 & B2 & B3 & B4 & B5).
  repeat split; congruence.
Qed.

Lemma unions_find_compress_shape id g r g' :
  unions_find_compress id g = Some (r, g') -> keeps_shape g g'.
Proof.
  unfold unions_find_compress.
  destruct (UnionFind.find_compress (_unions g) id) as [[r0 u]|] eqn:E;
    [|discriminate].
  intros [= _ <-]. repeat split; simpl.
  eapply UnionFind.find_compress_size; eauto.
Qed.

Lemma canonicalize_children_shape cs : forall g r g',
  canonicalize_children cs g = Some (r, g') -> keeps_shape g g'.
Proof.
  unfold canonicalize_children.
  induction cs as [|c cs IH]; intros g r g' H; simpl in H.
  - injection H as _ <-. apply keeps_shape_refl.
  - step_bind H. step_bind H. injection H as _ <-.
    eapply keeps_shape_trans.
    + eapply unions_find_compress_shape; eauto.
    + eapply IH; eauto.
Qed.

(** Registering a parent touches the [parents] of classes only. *)
Definition keeps_class_nodes (g g' : EGraph) : Prop :=
  _nodes g' = _nodes g /\ _unions g' = _unions g /\ _ids g' = _ids g /\
  forall k, option_map nodes (_classes g' !! k) =
            option_map nodes (_classes g !! k).

Lemma push_parent_nodes node child g g' :
  push_parent node child g = Some (tt, g') -> keeps_class_nodes g g'.
Proof.
  unfold push_parent, bind, classes_at, set_classes.
  destruct (_classes g !! child) as [c|] eqn:E; [|discriminate].
  intros [= <-]. repeat split; simpl. intros k.
  destruct (decide (child = k)) as [->|Hne].
  - rewrite lookup_insert_eq, E. reflexivity.
  - now rewrite lookup_insert_ne.
Qed.

Lemma for_each_push_parent_nodes node cs : forall g g',
  for_each cs (push_parent node) g = Some (tt, g') -> keeps_class_nodes g g'.
Proof.
  induction cs as [|c cs IH]; intros g g' H; simpl in H.
  - injection H as <-. repeat split.
  - step_bind H. destruct a.
    apply push_parent_nodes in E. apply IH in H.
    destruct E as (A1 & A2 & A3 & A4), H as (B1 & B2 & B3 & B4).
    split; [congruence|]. split; [congruence|]. split; [congruence|].
    intros k. now rewrite B4, A4.
Qed.

Lemma create_singleton_eclass_spec enode g id g' :
  create_singleton_eclass enode g = Some (id, g') ->
  id = UnionFind.size (_unions g) /\
  _nodes g' = _nodes g /\
  UnionFind.size (_unions g') = S id /\
  _classes g' = emplace id {| nodes := [enode]; parents := [] |} (_classes g).
Proof.
  unfold create_singleton_eclass, bind, set_ids, set_classes, ret. simpl.
  intros [= <- <-]. simpl. repeat split.
  unfold UnionFind.size. simpl. rewrite length_app. simpl. lia.
Qed.

Lemma push_parent_returns node child g :
  is_Some (_classes g !! child) ->
  exists g', push_parent node child g = Some (tt, g').
Proof.
  intros [c Hc]. unfold push_parent, bind, classes_at, set_classes.
  rewrite Hc. eauto.
Qed.

Lemma for_each_push_parent_returns node cs : forall g,
  Forall (fun c => is_Some (_classes g !! c)) cs ->
  exists g', for_each cs (push_parent node) g = Some (tt, g').
Proof.
  induction cs as [|c cs IH]; intros g Hcs; simpl.
  - unfold ret. eauto.
  - apply Forall_cons in Hcs. destruct Hcs as [Hc Hcs].
    destruct (push_parent_returns node c g Hc) as [g1 Hg1].
    unfold bind at 1. rewrite Hg1.
    apply push_parent_nodes in Hg1. destruct Hg1 as (_ & _ & _ & Hk).
    apply IH. eapply Forall_impl; [exact Hcs|]. simpl.
    intros k [x Hx]. specialize (Hk k). rewrite Hx in Hk. simpl in Hk.
    destruct (_classes g1 !! k); [eauto | discriminate Hk].
Qed.

(** [add] returns whenever the children of the node resolve to classes of
    the graph: nothing else in it can fail. *)
Lemma add_returns node g cs g0 :
  canonicalize_children (children node) g = Some (cs, g0) ->
  Forall (fun c => is_Some (_classes g0 !! c)) cs ->
  exists id ptr g', add node g = Some ((id, ptr), g').
Proof.
  intros Hcs Hcl. unfold add. unfold bind at 1. rewrite Hcs.
  unfold bind at 1. unfold get at 1. unfold bind at 1. unfold set_nodes at 1.
  unfold bind at 1.
  unfold create_singleton_eclass, bind, set_ids, set_classes, ret. simpl.
  match goal with
  | |- context [for_each cs ?f ?g1] =>
      destruct (for_each_push_parent_returns (length (_nodes g0)) cs g1)
        as [g' Hg']
  end.
  - simpl. eapply Forall_impl; [exact Hcl|]. simpl. intros k [x Hx].
    unfold emplace. case_match; [eauto|].
    rewrite lookup_insert. case_decide; eauto.
  - rewrite Hg'. eauto.
Qed.

(** C1 fails as stated: adding a leaf twice gives two classes; the second
    [add] finds a node with the same canonical key already stored, in class
    0, and returns the new id 1. *)
Lemma add_does_not_hashcons :
  exists g1 g2,
    add (leaf "x") empty = Some ((0%nat, 0%nat), g1) /\
    canonical_key g1 0%nat = canonical_key_of g1 (leaf "x") /\
    find_node g1 0%nat = Some 0%nat /\
    add (leaf "x") g1 = Some ((1%nat, 1%nat), g2) /\
    find g2 1%nat <> find g2 0%nat /\
    base.size (_classes g2) = 2%nat.
Proof.
  eexists. eexists. split; [vm_compute; reflexivity|].
  split; [vm_compute; reflexivity|].
  split; [vm_compute; reflexivity|].
  split; [vm_compute; reflexivity|].
  split; [vm_compute; discriminate|].
  vm_compute. reflexivity.
Qed.

(** Two leaves, a node over each, the two leaves merged, and [rebuild]. *)
Definition congruent_parents : M unit :=
  a <- add (leaf "a") ;;
  b <- add (leaf "b") ;;
  add {| data := "f"; children := [fst a] |} ;;;
  add {| data := "f"; children := [fst b] |} ;;;
  merge (fst a) (fst b) ;;;
  rebuild.

(** C2 on the code: after [rebuild] the two nodes over the merged leaves
    have the same canonical key and are still in different classes;
    [repair] deduplicates the parents by class and merges nothing. *)
Theorem rebuild_keeps_congruent_nodes_apart :
  exists g,
    run congruent_parents empty = Some g /\
    _pending g = [] /\
    find g 0%nat = find g 1%nat /\
    canonical_key g 2%nat = Some ("f"%string, [0%nat]) /\
    canonical_key g 3%nat = Some ("f"%string, [0%nat]) /\
    find_node g 2%nat = Some 2%nat /\
    find_node g 3%nat = Some 3%nat.
Proof.
  eexists. split; [vm_compute; reflexivity|].
  repeat split; vm_compute; reflexivity.
Qed.

(** *** Properties of [merge] *)

(** Two leaves in classes of their own. *)
Definition two_leaves : M unit :=
  add (leaf "a") ;;; add (leaf "b") ;;; ret tt.

Lemma classes_at_spec id g c g' :
  classes_at id g = Some (c, g') -> g' = g /\ _classes g !! id = Some c.
Proof.
  unfold classes_at. destruct (_classes g !! id) as [c0|]; [|discriminate].
  now intros [= <- <-].
Qed.

(** The class that stays after a merge, holding what the class that goes
    held after its own. *)
Definition absorb (kept dropped : EClass) : EClass :=
  {| nodes := nodes kept ++ nodes dropped;
     parents := parents kept ++ parents dropped |}.

(** What [merge] does, by the roots [find_compress] gives the two ids. *)
Definition merge_outcome (g g' : EGraph) (ra rb r : Id) : Prop :=
  if decide (ra = rb) then
    r = ra /\ _classes g' = _classes g /\ _pending g' = _pending g
  else
    exists class_a class_b,
      _classes g !! ra = Some class_a /\
      _classes g !! rb = Some class_b /\
      _pending g' = _pending g ++ [r] /\
      if (length (parents class_a) <? length (parents class_b))%nat
      then r = rb /\
           _classes g' =
             <[rb := absorb class_b class_a]> (delete ra (_classes g))
      else r = ra /\
           _classes g' =
             <[ra := absorb class_a class_b]> (delete rb (_classes g)).

Lemma merge_spec a b g r g' :
  merge a b g = Some (r, g') ->
  exists ra g0 rb g1,
    unions_find_compress a g = Some (ra, g0) /\
    unions_find_compress b g0 = Some (rb, g1) /\
    _nodes g' = _nodes g /\ _ids g' = _ids g /\
    UnionFind.size (_unions g') = UnionFind.size (_unions g) /\
    merge_outcome g g' ra rb r.
Proof.
  intros Hmerge. unfold merge in Hmerge.
  step_bind Hmerge. rename a0 into ra, g0 into g0, E into Ea.
  step_bind Hmerge. rename a0 into rb, E into Eb.
  exists ra, g0, rb, g1.
  split; [first [exact Ea | reflexivity]|]. split; [exact Eb|].
  apply unions_find_compress_shape in Ea, Eb.
  destruct Ea as (N1 & C1 & I1 & P1 & U1), Eb as (N2 & C2 & I2 & P2 & U2).
  unfold merge_outcome.
  destruct (Nat.eqb_spec ra rb) as [Heq|Hne].
  { unfold ret in Hmerge. injection Hmerge as <- <-.
    rewrite decide_True by exact Heq.
    repeat split; congruence. }
  rewrite decide_False by exact Hne.
  step_bind Hmerge. apply classes_at_spec in E. destruct E as [-> Ha].
  step_bind Hmerge. apply classes_at_spec in E. destruct E as [-> Hb].
  rewrite C2, C1 in Ha, Hb.
  revert Hmerge.
  destruct (Nat.ltb_spec (length (parents a0)) (length (parents a1)))
    as [Hlen|Hlen]; intros Hmerge; cbv beta iota zeta in Hmerge.
  - unfold bind at 1 in Hmerge. cbv beta in Hmerge.
    destruct (UnionFind.merge (_unions g1) rb ra) as [[r0 u]|] eqn:Em;
      [|discriminate].
    apply UnionFind.merge_size in Em.
    cbv beta iota in Hmerge.
    destruct (Nat.eqb_spec r0 rb) as [->|Hr]; [|discriminate].
    unfold bind, set_pending, classes_index, set_classes, ret in Hmerge.
    simpl in Hmerge. rewrite C2, C1, Ha in Hmerge. simpl in Hmerge.
    rewrite lookup_delete_ne in Hmerge by congruence.
    rewrite Hb in Hmerge. injection Hmerge as <- <-. simpl.
    split; [congruence|]. split; [congruence|]. split; [congruence|].
    exists a0, a1. rewrite (proj2 (Nat.ltb_lt _ _) Hlen), P2, P1.
    unfold absorb. auto.
  - unfold bind at 1 in Hmerge. cbv beta in Hmerge.
    destruct (UnionFind.merge (_unions g1) ra rb) as [[r0 u]|] eqn:Em;
      [|discriminate].
    apply UnionFind.merge_size in Em.
    cbv beta iota in Hmerge.
    destruct (Nat.eqb_spec r0 ra) as [->|Hr]; [|discriminate].
    unfold bind, set_pending, classes_index, set_classes, ret in Hmerge.
    simpl in Hmerge. rewrite C2, C1, Hb in Hmerge. simpl in Hmerge.
    rewrite lookup_delete_ne in Hmerge by congruence.
    rewrite Ha in Hmerge. injection Hmerge as <- <-. simpl.
    split; [congruence|]. split; [congruence|]. split; [congruence|].
    exists a0, a1. rewrite (proj2 (Nat.ltb_ge _ _) Hlen), P2, P1.
    unfold absorb. auto.
Qed.

(** X16: when [merge] returns, it has stored no node and changed no node's
    id, and what it did is decided by the roots [find_compress] gives the
    two ids. If they are one root, it returns that root and has changed no
    class and not the worklist. Otherwise both roots name a class; the one
    with fewer parents goes (the second when neither has fewer), its nodes
    and parents appended to those of the other, which is the class
    returned and queued for [rebuild]. *)
Theorem merge_moves_class (a b : Id) (g g' : EGraph) (r : Id)
    (Hmerge : merge a b g = Some (r, g')) :
  exists ra g0 rb g1,
    unions_find_compress a g = Some (ra, g0) /\
    unions_find_compress b g0 = Some (rb, g1) /\
    _nodes g' = _nodes g /\ _ids g' = _ids g /\
    merge_outcome g g' ra rb r.
Proof.
  destruct (merge_spec a b g r g' Hmerge)
    as (ra & g0 & rb & g1 & Ha & Hb & Hn & Hi & _ & Hout).
  exists ra, g0, rb, g1. auto.
Qed.

Lemma merge_moves_class_witness :
  exists g g' g0 g1,
    run two_leaves empty = Some g /\
    merge 0%nat 1%nat g = Some (0%nat, g') /\
    unions_find_compress 0%nat g = Some (0%nat, g0) /\
    unions_find_compress 1%nat g0 = Some (1%nat, g1) /\
    _nodes g' = _nodes g /\ _ids g' = _ids g /\
    merge_outcome g g' 0%nat 1%nat 0%nat.
Proof.
  eexists. eexists.
  match goal with
  | |- exists g0 g1, run ?m ?e = Some ?g /\ merge ?a ?b ?g = Some (?r, ?g') /\ _ =>
      assert (Hg : run m e = Some g) by (vm_compute; reflexivity);
      assert (H : merge a b g = Some (r, g')) by (vm_compute; reflexivity)
  end.
  destruct (merge_moves_class _ _ _ _ _ H)
    as (ra & g0 & rb & g1 & Ha & Hb & Hn & Hi & Hout).
  assert (Hra : ra = 0%nat).
  { revert Ha. vm_compute. now intros [= <- _]. }
  subst ra.
  assert (Hrb : rb = 1%nat).
  { revert Hb. clear -Ha. revert Ha. vm_compute. intros [= <-].
    vm_compute. now intros [= <- _]. }
  subst rb.
  exists g0, g1. auto 10.
Defined.

(** *** What [add] links *)

(** Parents are only ever appended to. *)
Definition parents_grow (g g' : EGraph) : Prop :=
  forall k c, _classes g !! k = Some c ->
    exists c', _classes g' !! k = Some c' /\
               forall p, In p (parents c) -> In p (parents c').

Lemma push_parent_grows node child g g' :
  push_parent node child g = Some (tt, g') ->
  parents_grow g g' /\
  exists c', _classes g' !! child = Some c' /\ In node (parents c').
Proof.
  unfold push_parent, bind, classes_at, set_classes.
  destruct (_classes g !! child) as [c|] eqn:E; [|discriminate].
  intros [= <-]. unfold parents_grow. simpl. split.
  - intros k c0 Hk. destruct (decide (child = k)) as [->|Hne].
    + eexists. split; [apply lookup_insert_eq|].
      simpl. intros p Hp. apply in_or_app. left.
      rewrite E in Hk. now injection Hk as <-.
    + exists c0. split; [now rewrite lookup_insert_ne by exact Hne|auto].
  - eexists. split; [apply lookup_insert_eq|].
    simpl. apply in_or_app. right. now left.
Qed.

Lemma for_each_push_parent_links node cs : forall g g',
  for_each cs (push_parent node) g = Some (tt, g') ->
  parents_grow g g' /\
  Forall (fun child => exists c, _classes g' !! child = Some c /\
                                 In node (parents c)) cs.
Proof.
  induction cs as [|child cs IH]; intros g g' H; simpl in H.
  - injection H as <-. split; [|constructor]. intros k c Hk. eauto.
  - step_bind H. destruct a.
    apply push_parent_grows in E. destruct E as (G1 & c1 & Hc1 & Hin1).
    apply IH in H. destruct H as (G2 & Hall).
    split.
    + intros k c Hk. destruct (G1 k c Hk) as (c' & Hc' & Hsub).
      destruct (G2 k c' Hc') as (c'' & Hc'' & Hsub').
      exists c''. split; [exact Hc''|]. auto.
    + constructor; [|exact Hall].
      destruct (G2 child c1 Hc1) as (c'' & Hc'' & Hsub').
      exists c''. split; [exact Hc''|]. auto.
Qed.

Lemma map_each_length {A B} (body : A -> M B) l : forall g r g',
  map_each l body g = Some (r, g') -> length r = length l.
Proof.
  induction l as [|a l IH]; intros g r g' H; simpl in H.
  - now injection H as <- _.
  - step_bind H. step_bind H. injection H as <- _. simpl.
    f_equal. eapply IH; eauto.
Qed.

(** X17: when [add] returns, the node is stored under the returned pointer
    with as many children as it was given, each child names a class of the
    graph that now lists the new node among its parents, and, the pointer
    having no id before, the node is registered under the returned id. *)
Theorem add_links_children (node : ENode) (g g' : EGraph)
    (id : Id) (ptr : node_ptr)
    (Hadd : add node g = Some ((id, ptr), g')) :
  exists cs,
    _nodes g' !! ptr = Some {| data := data node; children := cs |} /\
    length cs = length (children node) /\
    Forall (fun child => exists c, _classes g' !! child = Some c /\
                                   In ptr (parents c)) cs /\
    (_ids g !! ptr = None -> _ids g' !! ptr = Some id).
Proof.
  unfold add in Hadd.
  step_bind Hadd. pose proof (map_each_length _ _ _ _ _ E) as Hlen.
  apply canonicalize_children_shape in E.
  destruct E as (N1 & C1 & I1 & P1 & U1).
  step_bind Hadd. unfold get in E. injection E as <- <-.
  step_bind Hadd. unfold set_nodes in E. injection E as _ <-.
  step_bind Hadd.
  unfold create_singleton_eclass, bind, set_ids, set_classes, ret in E.
  simpl in E. injection E as <- <-.
  step_bind Hadd. destruct a1.
  pose proof (for_each_push_parent_nodes _ _ _ _ E) as (A1 & A2 & A3 & A4).
  apply for_each_push_parent_links in E. destruct E as (_ & Hall).
  unfold ret in Hadd. injection Hadd as <- <- <-.
  exists a. simpl in *. split; [|split; [exact Hlen|split; [exact Hall|]]].
  - rewrite A1. apply list_lookup_middle. reflexivity.
  - intros Hnone. rewrite A3. unfold emplace. rewrite I1, Hnone.
    apply lookup_insert_eq.
Qed.

Lemma add_links_children_witness :
  exists g g' cs,
    run two_leaves empty = Some g /\
    add {| data := "f"; children := [1%nat] |} g = Some ((2%nat, 2%nat), g') /\
    _nodes g' !! 2%nat = Some {| data := "f"; children := cs |} /\
    length cs = 1%nat /\
    Forall (fun child => exists c, _classes g' !! child = Some c /\
                                   In 2%nat (parents c)) cs /\
    _ids g' !! 2%nat = Some 2%nat.
Proof.
  eexists. eexists.
  match goal with
  | |- exists cs, run ?m ?e = Some ?g /\ add ?n ?g = Some (_, ?g') /\ _ =>
      assert (Hg : run m e = Some g) by (vm_compute; reflexivity);
      assert (H : add n g = Some ((2%nat, 2%nat), g'))
        by (vm_compute; reflexivity)
  end.
  destruct (add_links_children _ _ _ _ _ H) as (cs & H1 & H2 & H3 & H4).
  exists cs. split; [exact Hg|]. split; [exact H|].
  split; [exact H1|]. split; [exact H2|]. split; [exact H3|].
  apply H4. vm_compute. reflexivity.
Defined.

(** *** What [repair] leaves *)

(** X18: when [repair] returns, no class of the graph is left without
    nodes. *)
Theorem repair_leaves_no_empty_class (key : Id) (g g' : EGraph)
    (k : Id) (c : EClass)
    (Hrepair : repair key g = Some (tt, g'))
    (Hclass : _classes g' !! k = Some c) :
  nodes c <> [].
Proof.
  unfold repair in Hrepair.
  step_bind Hrepair. step_bind Hrepair. step_bind Hrepair.
  step_bind Hrepair.
  unfold set_classes in Hrepair. injection Hrepair as <-. simpl in Hclass.
  apply map_lookup_filter_Some in Hclass. exact (proj2 Hclass).
Qed.

Lemma repair_leaves_no_empty_class_witness :
  exists g g' c,
    run (two_leaves ;;; merge 0%nat 1%nat) empty = Some g /\
    repair 0%nat g = Some (tt, g') /\
    _classes g' !! 0%nat = Some c /\
    nodes c <> [].
Proof.
  eexists. eexists. eexists.
  split; [vm_compute; reflexivity|].
  match goal with
  | |- repair ?k ?g = Some (tt, ?g') /\ _ =>
      assert (H : repair k g = Some (tt, g')) by (vm_compute; reflexivity)
  end.
  split; [exact H|].
  match goal with
  | |- ?l = Some ?c /\ _ =>
      assert (Hc : l = Some c) by (vm_compute; reflexivity)
  end.
  split; [exact Hc|].
  exact (repair_leaves_no_empty_class _ _ _ _ _ H Hc).
Defined.

(** *** The class ids stay below the ids handed out *)

(** Every id that names a class, and every id on the worklist, has been
    handed out by the union-find. *)
Definition bounded (g : EGraph) : Prop :=
  (forall k, is_Some (_classes g !! k) ->
             (k < UnionFind.size (_unions g))%nat) /\
  Forall (fun id => (id < UnionFind.size (_unions g))%nat) (_pending g).

(** A step that leaves the classes, the worklist and the number of ids
    alone. *)
Definition steady (g g' : EGraph) : Prop :=
  _classes g' = _classes g /\ _pending g' = _pending g /\
  UnionFind.size (_unions g') = UnionFind.size (_unions g).

Ltac unit_results :=
  repeat match goal with
         | H : _ = Some (?u, _) |- _ =>
             is_var u; match type of u with unit => destruct u end
         end.

Lemma steady_refl g : steady g g.
Proof. repeat split. Qed.

Lemma steady_trans g1 g2 g3 : steady g1 g2 -> steady g2 g3 -> steady g1 g3.
Proof.
  intros (A1 & A2 & A3) (B1 & B2 & B3). repeat split; congruence.
Qed.

Lemma keeps_shape_steady g g' : keeps_shape g g' -> steady g g'.
Proof. intros (_ & C & _ & P & U). repeat split; assumption. Qed.

Lemma steady_bounded g g' : steady g g' -> bounded g -> bounded g'.
Proof.
  intros (C & P & U) [Hc Hp]. unfold bounded. rewrite C, P, U. now split.
Qed.

Lemma unions_find_compress_lt id g r g' :
  unions_find_compress id g = Some (r, g') ->
  (r < UnionFind.size (_unions g))%nat.
Proof.
  unfold unions_find_compress.
  destruct (UnionFind.find_compress (_unions g) id) as [[r0 u]|] eqn:E;
    [|discriminate].
  intros [= <- _]. eapply UnionFind.find_compress_lt; eauto.
Qed.

Lemma canonicalize_steady node g g' :
  canonicalize node g = Some (tt, g') -> steady g g'.
Proof.
  unfold canonicalize. unfold bind at 1.
  destruct (_nodes g !! node) as [n|]; [|discriminate].
  intros H. step_bind H. apply canonicalize_children_shape in E.
  apply keeps_shape_steady in E. unfold set_nodes in H. injection H as <-.
  destruct E as (C & P & U). repeat split; assumption.
Qed.

Lemma ids_index_steady node g id g' :
  ids_index node g = Some (id, g') -> steady g g'.
Proof.
  unfold ids_index. destruct (_ids g !! node); intros [= _ <-]; repeat split.
Qed.

Lemma for_each_steady {A} (body : A -> M unit) l :
  (forall a g g', body a g = Some (tt, g') -> steady g g') ->
  forall g g', for_each l body g = Some (tt, g') -> steady g g'.
Proof.
  intros Hbody. induction l as [|a l IH]; intros g g' H; simpl in H.
  - injection H as <-. apply steady_refl.
  - step_bind H. unit_results.
    eapply steady_trans; [eapply Hbody; eauto | eapply IH; eauto].
Qed.

Lemma map_each_find_compress l : forall g r g',
  map_each l unions_find_compress g = Some (r, g') ->
  steady g g' /\
  Forall (fun id => (id < UnionFind.size (_unions g))%nat) r.
Proof.
  induction l as [|a l IH]; intros g r g' H; simpl in H.
  - injection H as <- <-. split; [apply steady_refl | constructor].
  - step_bind H. step_bind H. injection H as <- <-.
    pose proof (unions_find_compress_lt _ _ _ _ E) as Hlt.
    apply unions_find_compress_shape, keeps_shape_steady in E.
    destruct (IH _ _ _ E0) as [Hs Hall].
    split; [eapply steady_trans; eauto|].
    destruct E as (_ & _ & U). rewrite U in Hall. now constructor.
Qed.

Lemma classes_index_spec id g c g' :
  classes_index id g = Some (c, g') ->
  _pending g' = _pending g /\ _unions g' = _unions g /\
  forall k, is_Some (_classes g' !! k) ->
            is_Some (_classes g !! k) \/ k = id.
Proof.
  unfold classes_index. destruct (_classes g !! id) as [c0|] eqn:E.
  - intros [= _ <-]. auto.
  - intros [= _ <-]. simpl. repeat split. intros k Hk.
    destruct (decide (id = k)) as [->|Hne]; [now right|].
    rewrite lookup_insert_ne in Hk by exact Hne. now left.
Qed.

Lemma classes_index_bounded id g c g' :
  classes_index id g = Some (c, g') ->
  (id < UnionFind.size (_unions g))%nat -> bounded g ->
  bounded g' /\ UnionFind.size (_unions g') = UnionFind.size (_unions g).
Proof.
  intros H Hid [Hc Hp]. apply classes_index_spec in H.
  destruct H as (P & U & K). unfold bounded. rewrite P, U.
  split; [|reflexivity]. split; [|exact Hp].
  intros k Hk. destruct (K k Hk) as [Hk'| ->]; [now apply Hc | exact Hid].
Qed.

(** The loop of [repair] over the parents. *)
Lemma repair_parents_steady ps : forall acc g r g',
  (fix loop (ps : list node_ptr) (acc : list (Id * node_ptr))
     : M (list (Id * node_ptr)) :=
     match ps with
     | [] => ret acc
     | node :: rest =>
         id <- ids_index node ;;
         id' <- unions_find_compress id ;;
         loop rest (try_emplace id' node acc)
     end) ps acc g = Some (r, g') ->
  steady g g'.
Proof.
  induction ps as [|node rest IH]; intros acc g r g' H.
  - injection H as _ <-. apply steady_refl.
  - step_bind H. step_bind H.
    apply ids_index_steady in E.
    apply unions_find_compress_shape, keeps_shape_steady in E0.
    apply IH in H.
    eapply steady_trans; [exact E|]. eapply steady_trans; eauto.
Qed.

Lemma repair_bounded key g g' :
  repair key g = Some (tt, g') ->
  (key < UnionFind.size (_unions g))%nat -> bounded g ->
  bounded g' /\ UnionFind.size (_unions g') = UnionFind.size (_unions g).
Proof.
  intros H Hkey Hb. unfold repair in H.
  step_bind H. destruct (classes_index_bounded _ _ _ _ E Hkey Hb) as [Hb0 U0].
  step_bind H. unit_results.
  assert (S1 : steady g0 g1).
  { eapply for_each_steady; [|exact E0].
    intros node h h' Hbody. step_bind Hbody. unit_results.
    apply canonicalize_steady in E1.
    step_bind Hbody. apply ids_index_steady in E2.
    step_bind Hbody.
    apply unions_find_compress_shape, keeps_shape_steady in E3.
    unfold set_ids in Hbody. injection Hbody as <-.
    eapply steady_trans; [exact E1|]. eapply steady_trans; [exact E2|].
    destruct E3 as (C & P & U). repeat split; assumption. }
  step_bind H. apply repair_parents_steady in E1.
  pose proof (steady_trans _ _ _ S1 E1) as S2.
  pose proof (steady_bounded _ _ S2 Hb0) as [Hc2 Hp2].
  destruct S2 as (_ & _ & U2).
  step_bind H. unit_results. unfold set_classes in E2, H.
  injection E2 as <-. injection H as <-.
  unfold bounded. simpl. split; [|congruence].
  split; [|exact Hp2].
  intros k Hk. destruct Hk as [c Hk].
  apply map_lookup_filter_Some in Hk. destruct Hk as [Hk _].
  destruct (decide (key = k)) as [<-|Hne]; [congruence|].
  rewrite lookup_insert_ne in Hk by exact Hne. apply Hc2. eauto.
Qed.

Lemma for_each_bounded {A} (body : A -> M unit) (n : nat) l :
  (forall a g g', In a l ->
     body a g = Some (tt, g') ->
     UnionFind.size (_unions g) = n -> bounded g ->
     bounded g' /\ UnionFind.size (_unions g') = n) ->
  forall g g',
    for_each l body g = Some (tt, g') ->
    UnionFind.size (_unions g) = n -> bounded g ->
    bounded g' /\ UnionFind.size (_unions g') = n.
Proof.
  induction l as [|a l IH]; intros Hbody g g' H Hn Hb; simpl in H.
  - injection H as <-. auto.
  - step_bind H. unit_results.
    destruct (Hbody a g g0 (or_introl eq_refl) E Hn Hb) as [Hb0 Hn0].
    apply (IH (fun a' h h' Hin => Hbody a' h h' (or_intror Hin)) g0 g' H Hn0 Hb0).
Qed.

Lemma dedup_ids_in l : forall seen x, In x (dedup_ids seen l) -> In x l.
Proof.
  induction l as [|y l IH]; intros seen x; simpl; [auto|].
  destruct (existsb (Nat.eqb y) seen).
  - intros H. right. eapply IH; eauto.
  - intros [->|H]; [now left|]. right. eapply IH; eauto.
Qed.

Ltac loop_body E name :=
  match type of E with
  | for_each ?l ?body ?g0 = _ =>
      assert (name : forall a h h', In a l ->
                body a h = Some (tt, h') ->
                UnionFind.size (_unions h) = UnionFind.size (_unions g0) ->
                bounded h ->
                bounded h' /\
                UnionFind.size (_unions h') = UnionFind.size (_unions g0))
  end.

Lemma rebuild_bounded g g' :
  rebuild g = Some (tt, g') -> bounded g -> bounded g'.
Proof.
  intros H Hb. unfold rebuild in H.
  step_bind H. unfold get in E. injection E as <- <-.
  pose proof Hb as [_ Hpending].
  step_bind H. unit_results.
  loop_body E Hbody1.
  { intros id h h' Hin Hbody Hn Hbh. cbv beta in Hbody. step_bind Hbody.
    pose proof (proj1 (List.Forall_forall _ _) Hpending id Hin) as Hid.
    cbv beta in Hid.
    rewrite <- Hn in Hid.
    destruct (classes_index_bounded _ _ _ _ E0 Hid Hbh) as [Hb0 U0].
    assert (S0 : steady g1 h').
    { eapply for_each_steady; [|exact Hbody].
      intros node k k' Hc. now apply canonicalize_steady in Hc. }
    split; [eapply steady_bounded; eauto|].
    destruct S0 as (_ & _ & U). congruence. }
  destruct (for_each_bounded _ _ _ Hbody1 _ _ E eq_refl Hb) as [Hb1 U1].
  step_bind H. destruct (map_each_find_compress _ _ _ _ E0) as [S1 Hfound].
  pose proof (steady_bounded _ _ S1 Hb1) as Hb2.
  destruct S1 as (_ & _ & U2).
  step_bind H. unit_results.
  loop_body E1 Hbody2.
  { intros key h h' Hin Hbody Hn Hbh.
    apply dedup_ids_in in Hin.
    pose proof (proj1 (List.Forall_forall _ _) Hfound key Hin) as Hkey.
    cbv beta in Hkey.
    assert (Hkey' : (key < UnionFind.size (_unions h))%nat) by lia.
    destruct (repair_bounded _ _ _ Hbody Hkey' Hbh) as [Hbh' U'].
    split; [exact Hbh'|congruence]. }
  destruct (for_each_bounded _ _ _ Hbody2 _ _ E1 eq_refl Hb2) as [[Hc3 _] U3].
  unfold set_pending in H. injection H as <-.
  split; [exact Hc3 | constructor].
Qed.

Lemma merge_bounded a b g r g' :
  merge a b g = Some (r, g') -> bounded g -> bounded g'.
Proof.
  intros H [Hc Hp].
  destruct (merge_spec a b g r g' H)
    as (ra & g0 & rb & g1 & Ha & Hb & _ & _ & U & Hout).
  pose proof (unions_find_compress_lt _ _ _ _ Ha) as Hra.
  pose proof (unions_find_compress_lt _ _ _ _ Hb) as Hrb.
  apply unions_find_compress_shape in Ha. destruct Ha as (_ & _ & _ & _ & U0).
  rewrite U0 in Hrb.
  unfold merge_outcome in Hout. unfold bounded. rewrite U.
  destruct (decide (ra = rb)).
  - destruct Hout as (_ & C & P). rewrite C, P. now split.
  - destruct Hout as (ca & cb & Hca & Hcb & P & Hout).
    assert (Hr : (r < UnionFind.size (_unions g))%nat)
      by (destruct (_ <? _)%nat; destruct Hout as [-> _]; assumption).
    split.
    + intros k Hk.
      destruct (_ <? _)%nat; destruct Hout as [-> C]; rewrite C in Hk;
        (destruct (decide (k = rb)) as [->|Hne1]; [assumption|]);
        (destruct (decide (k = ra)) as [->|Hne2]; [assumption|]);
        rewrite lookup_insert_ne, lookup_delete_ne in Hk by congruence;
        now apply Hc.
    + rewrite P. apply Forall_app. split; [exact Hp|]. now constructor.
Qed.

Lemma push_parent_pending node child g g' :
  push_parent node child g = Some (tt, g') -> _pending g' = _pending g.
Proof.
  unfold push_parent, bind, classes_at, set_classes.
  destruct (_classes g !! child); [|discriminate]. now intros [= <-].
Qed.

Lemma for_each_push_parent_pending node cs : forall g g',
  for_each cs (push_parent node) g = Some (tt, g') ->
  _pending g' = _pending g.
Proof.
  induction cs as [|c cs IH]; intros g g' H; simpl in H.
  - now injection H as <-.
  - step_bind H. unit_results.
    apply push_parent_pending in E. apply IH in H. congruence.
Qed.

(** What [add] does, on any graph. *)
Lemma add_spec node g g' id ptr :
  add node g = Some ((id, ptr), g') ->
  id = UnionFind.size (_unions g) /\
  UnionFind.size (_unions g') = S id /\
  ptr = length (_nodes g) /\
  length (_nodes g') = S ptr /\
  _pending g' = _pending g /\
  (forall k : nat, option_map nodes (_classes g' !! k) =
             option_map nodes
               (emplace id {| nodes := [ptr]; parents := [] |} (_classes g)
                  !! k)).
Proof.
  intros Hadd. unfold add in Hadd.
  step_bind Hadd. apply canonicalize_children_shape in E.
  destruct E as (N1 & C1 & I1 & P1 & U1).
  step_bind Hadd. unfold get in E. injection E as <- <-.
  step_bind Hadd. unfold set_nodes in E. injection E as _ <-.
  step_bind Hadd.
  match goal with
  | E : create_singleton_eclass _ ?h = Some (_, ?h') |- _ =>
      assert (P2 : _pending h' = _pending h)
        by (revert E;
            unfold create_singleton_eclass, bind, set_ids, set_classes, ret;
            simpl; now intros [= _ <-])
  end.
  simpl in P2.
  apply create_singleton_eclass_spec in E.
  destruct E as (-> & N2 & U2 & C2). simpl in *.
  step_bind Hadd. unit_results.
  pose proof (for_each_push_parent_pending _ _ _ _ E) as P3.
  apply for_each_push_parent_nodes in E.
  destruct E as (A1 & A2 & A3 & A4).
  unfold ret in Hadd. injection Hadd as <- <- <-.
  rewrite A1, A2, N2, U2, N1, U1, length_app. simpl.
  repeat split; try lia; try congruence.
  intros k. unfold Id in *. rewrite A4, C2, U1, C1, N1. reflexivity.
Qed.

Lemma add_bounded node g g' r :
  add node g = Some (r, g') -> bounded g -> bounded g'.
Proof.
  destruct r as [id ptr]. intros H [Hc Hp].
  destruct (add_spec _ _ _ _ _ H) as (-> & U & _ & _ & P & K).
  unfold bounded. rewrite U, P. split.
  - intros k [c Hk]. specialize (K k). unfold Id in *.
    rewrite Hk in K. cbn [option_map] in K. unfold emplace in K.
    destruct (decide (UnionFind.size (_unions g) = k)) as [<-|Hne]; [lia|].
    assert (Hk' : is_Some (_classes g !! k)).
    { revert K.
      match goal with
      | |- context [match ?x with Some _ => _ | None => _ end] => destruct x
      end;
        [|rewrite lookup_insert_ne by exact Hne];
        match goal with
        | |- context [option_map nodes ?x] =>
            let Ex := fresh "Ex" in
            destruct x as [found|] eqn:Ex; intros K;
            [exact (ex_intro _ found Ex) | discriminate K]
        end. }
    specialize (Hc k Hk'). lia.
  - eapply Forall_impl; [exact Hp|]. simpl. intros; lia.
Qed.

Lemma create_singleton_eclass_bounded enode g id g' :
  create_singleton_eclass enode g = Some (id, g') -> bounded g -> bounded g'.
Proof.
  unfold create_singleton_eclass, bind, set_ids, set_classes, ret. simpl.
  intros [= <- <-] [Hc Hp]. unfold bounded, UnionFind.size. simpl.
  rewrite length_app. simpl. split.
  - intros k Hk. unfold emplace in Hk.
    destruct (decide (UnionFind.size (_unions g) = k)) as [<-|Hne];
      [unfold UnionFind.size; lia|].
    assert (Hk' : is_Some (_classes g !! k)).
    { revert Hk.
      match goal with
      | |- context [match ?x with Some _ => _ | None => _ end] => destruct x
      end; [auto|].
      now rewrite lookup_insert_ne by exact Hne. }
    specialize (Hc k Hk'). unfold UnionFind.size in Hc. lia.
  - eapply Forall_impl; [exact Hp|]. unfold UnionFind.size. simpl. intros; lia.
Qed.

(** The e-graphs there are: the data members are private, so a graph is
    what the member functions that change one have made of the empty
    graph; [repair] is handed a class of the graph. *)
Inductive reachable : EGraph -> Prop :=
| reachable_empty : reachable empty
| reachable_add node g r g' :
    reachable g -> add node g = Some (r, g') -> reachable g'
| reachable_merge a b g r g' :
    reachable g -> merge a b g = Some (r, g') -> reachable g'
| reachable_rebuild g g' :
    reachable g -> rebuild g = Some (tt, g') -> reachable g'
| reachable_repair key g g' :
    reachable g -> is_Some (_classes g !! key) ->
    repair key g = Some (tt, g') -> reachable g'
| reachable_canonicalize node g g' :
    reachable g -> canonicalize node g = Some (tt, g') -> reachable g'
| reachable_create_singleton_eclass enode g id g' :
    reachable g -> create_singleton_eclass enode g = Some (id, g') ->
    reachable g'.

Lemma reachable_bounded g : reachable g -> bounded g.
Proof.
  induction 1 as [|node g r g' _ IH H|a b g r g' _ IH H|g g' _ IH H
                  |key g g' _ IH Hkey H|node g g' _ IH H
                  |enode g id g' _ IH H].
  - split; [|constructor]. intros k [c Hk]. simpl in Hk.
    rewrite lookup_empty in Hk. discriminate.
  - eapply add_bounded; eauto.
  - eapply merge_bounded; eauto.
  - eapply rebuild_bounded; eauto.
  - eapply repair_bounded; eauto. now apply (proj1 IH).
  - eapply steady_bounded; [eapply canonicalize_steady|]; eauto.
  - eapply create_singleton_eclass_bounded; eauto.
Qed.

(** C1, as the code has it: on every e-graph, whenever [add] returns, it
    has made a new union-find set and stored the node anew, and returns
    that new id and the new node; the class stored under the id holds
    exactly the new node. No existing node is looked up, whatever its
    key. *)
Theorem add_creates_fresh_class (node : ENode) (g g' : EGraph)
    (id : Id) (ptr : node_ptr)
    (Hgraph : reachable g)
    (Hadd : add node g = Some ((id, ptr), g')) :
  id = UnionFind.size (_unions g) /\
  UnionFind.size (_unions g') = S id /\
  ptr = length (_nodes g) /\
  length (_nodes g') = S ptr /\
  option_map nodes (_classes g' !! id) = Some [ptr].
Proof.
  destruct (add_spec _ _ _ _ _ Hadd) as (Hid & U & Hptr & N & _ & K).
  split; [exact Hid|]. split; [exact U|]. split; [exact Hptr|].
  split; [exact N|].
  destruct (reachable_bounded g Hgraph) as [Hc _].
  assert (Hnone : _classes g !! id = None).
  { destruct (_classes g !! id) as [c|] eqn:E; [|reflexivity].
    specialize (Hc id (ex_intro _ c E)). lia. }
  rewrite K. unfold emplace. rewrite Hnone. now rewrite lookup_insert_eq.
Qed.

Lemma add_creates_fresh_class_witness :
  exists g1 g2,
    add (leaf "x") empty = Some ((0%nat, 0%nat), g1) /\
    add (leaf "x") g1 = Some ((1%nat, 1%nat), g2) /\
    1%nat = UnionFind.size (_unions g1) /\
    option_map nodes (_classes g2 !! 1%nat) = Some [1%nat].
Proof.
  eexists. eexists.
  match goal with
  | |- add ?n ?e = Some (?r, ?g1) /\ add ?m ?g1 = Some (_, ?g2) /\ _ =>
      assert (H1 : add n e = Some (r, g1)) by (vm_compute; reflexivity);
      assert (H2 : add m g1 = Some ((1%nat, 1%nat), g2))
        by (vm_compute; reflexivity)
  end.
  split; [exact H1|]. split; [exact H2|].
  destruct (add_creates_fresh_class _ _ _ _ _
              (reachable_add _ _ _ _ reachable_empty H1) H2)
    as (Hid & _ & _ & _ & Hclass).
  split; [exact Hid | exact Hclass].
Defined.

End EGraph.

(** ** The e-matcher (eqsat/algo/ematch.hpp) *)

Module EMatch.

Definition node_handle := nat.

(** A node is known by its address: [graph.find(&node)]. *)
Definition node_ptr := nat.

(** The patterns of the rule language. An [expr_list] is never empty (the
    grammar has one pattern or more between the parentheses); [front] is
    [list.front()] and [rest] is [tail(list)]. *)
Inductive atom_t :=
| constant_t (c : Z)
| operation_t (name : string)
| place_t (name : string)
| label_t (name : string).

#[warnings="-register-all"]
Inductive simple_expr :=
| atom (a : atom_t)
| expr_list (front : simple_expr) (rest : list simple_expr).

(** [match_pattern::action]: a plain expression or a [match_expr]. *)
Inductive action_t :=
| simple (e : simple_expr)
| match_expr (labels : list string).

Record match_pattern := {
  action : action_t
}.

Definition places_t := list string.

(** The graph as the matcher uses it. *)
Record egraph := {
  node_name : node_ptr -> string;
  extract_constant : node_ptr -> option Z;
  children : node_ptr -> list node_handle;
  find : node_ptr -> node_handle;
  eclass : node_handle -> list node_ptr;
  eclasses : list (node_handle * list node_ptr)
}.

(** [matched_places_t], a map from place index to handle. *)
Record match_result := {
  root : node_handle;
  matched_places : gmap nat node_handle
}.

(** A [match_generator] run to its end: what it yields, in order, and
    whether it ended in [__builtin_abort]. *)
Definition match_generator : Type := list match_result * bool.

(** How the body of a loop over a generator ends one round. *)
Inductive ctl := Continue | Returned | Aborted.

(** [for (auto m : source) body]; [aborts] tells whether [source] aborts
    after its last result. *)
Fixpoint for_loop (source : list match_result) (aborts : bool)
    (body : match_result -> list match_result * ctl) : match_generator :=
  match source with
  | [] => ([], aborts)
  | m :: rest =>
      let '(ys, c) := body m in
      match c with
      | Continue =>
          let '(zs, ab) := for_loop rest aborts body in (ys ++ zs, ab)
      | Returned => (ys, false)
      | Aborted => (ys, true)
      end
  end.

Definition for_each (source : match_generator)
    (body : match_result -> list match_result * ctl) : match_generator :=
  for_loop (fst source) (snd source) body.

(** [co_yield inner;] of a whole generator, inside a loop body. *)
Definition yield_all (inner : match_generator) : list match_result * ctl :=
  (fst inner, if snd inner then Aborted else Continue).

(** [for (const auto &node : nodes) co_yield inner(node);] *)
Fixpoint for_nodes (nodes : list node_ptr)
    (inner : node_ptr -> match_generator) : match_generator :=
  match nodes with
  | [] => ([], false)
  | node :: rest =>
      let '(ys, ab) := inner node in
      if ab then (ys, true)
      else let '(zs, ab') := for_nodes rest inner in (ys ++ zs, ab')
  end.

(** [place_index]: the distance to the first occurrence, [places.size()]
    when there is none. *)
Fixpoint place_index (place : string) (places : places_t) : nat :=
  match places with
  | [] => 0
  | p :: rest => if String.eqb p place then 0 else S (place_index place rest)
  end.

(** [std::uint32_t(...)] *)
Definition to_uint32 (n : nat) : nat := Z.to_nat (Z.of_nat n mod 2 ^ 32).

Section Match.

Variable graph : egraph.
Variable places : places_t.

Definition match_constant (c : Z) (node : node_ptr)
    (mp : gmap nat node_handle) : match_generator :=
  match extract_constant graph node with
  | Some con =>
      if con =? c
      then ([{| root := find graph node; matched_places := mp |}], false)
      else ([], false)
  | None => ([], false)
  end.

Definition match_operation (o : string) (node : node_ptr)
    (mp : gmap nat node_handle) : match_generator :=
  if String.eqb (node_name graph node) o
  then ([{| root := find graph node; matched_places := mp |}], false)
  else ([], false).

(** [matched_places.emplace(id, handle)] *)
Definition emplace (id : nat) (handle : node_handle)
    (mp : gmap nat node_handle) : gmap nat node_handle :=
  match mp !! id with
  | Some _ => mp
  | None => <[id := handle]> mp
  end.

Definition match_place (p : string) (node : node_ptr)
    (mp : gmap nat node_handle) : match_generator :=
  let id := to_uint32 (place_index p places) in
  let handle := find graph node in
  match mp !! id with
  | Some bound =>
      if negb (bound =? handle)%nat then ([], false)
      else ([{| root := handle; matched_places := emplace id handle mp |}], false)
  | None =>
      ([{| root := handle; matched_places := emplace id handle mp |}], false)
  end.

(** Not implemented: logs and aborts. *)
Definition match_label (p : string) (node : node_ptr)
    (mp : gmap nat node_handle) : match_generator :=
  ([], true).

Definition match_atom (a : atom_t) (node : node_ptr)
    (mp : gmap nat node_handle) : match_generator :=
  match a with
  | constant_t c => match_constant c node mp
  | operation_t o => match_operation o node mp
  | place_t p => match_place p node mp
  | label_t l => match_label l node mp
  end.

(** [match(simple_expr, eclass)], over the matcher for nodes. *)
Definition match_in_eclass
    (match_node : node_ptr -> gmap nat node_handle -> match_generator)
    (h : node_handle) (mp : gmap nat node_handle) : match_generator :=
  for_nodes (eclass graph h) (fun n => match_node n mp).

(** [match_children], over the matcher for nodes. Reading [front()] of an
    empty vector has no defined behaviour; the lengths are compared before
    [match_children] is entered, so it does not arise. *)
Fixpoint match_children
    (match_node : simple_expr -> node_ptr -> gmap nat node_handle ->
                  match_generator)
    (pattern_children : list simple_expr) (node_children : list node_handle)
    (mp : gmap nat node_handle) {struct pattern_children} : match_generator :=
  match pattern_children, node_children with
  | p :: ps, h :: hs =>
      let match_child := match_in_eclass (match_node p) h mp in
      match ps with
      | [] => match_child
      | _ :: _ =>
          for_each match_child (fun m =>
            yield_all (match_children match_node ps hs (matched_places m)))
      end
  | _, _ => ([], true)
  end.

(** [match(simple_expr, node)], with [match(expr_list, node)] inside. *)
Fixpoint match_simple_expr (e : simple_expr) (node : node_ptr)
    (mp : gmap nat node_handle) {struct e} : match_generator :=
  match e with
  | atom a => match_atom a node mp
  | expr_list front pattern_children =>
      for_each (match_simple_expr front node mp) (fun head =>
        match pattern_children with
        | [] => ([head], Continue)
        | _ :: _ =>
            if negb (length pattern_children =? length (children graph node))%nat
            then ([], Returned)
            else
              yield_all
                (for_each
                   (match_children match_simple_expr pattern_children
                      (children graph node) (matched_places head))
                   (fun m =>
                      ([{| root := root head;
                           matched_places := matched_places m |}], Continue)))
        end)
  end.

(** [match(match_pattern, eclass)] *)
Definition match_by_action (pattern : match_pattern) (node : node_ptr)
  : match_generator :=
  match action pattern with
  | simple e => match_simple_expr e node ∅
  | match_expr _ => ([], true)
  end.

Definition match_eclass (pattern : match_pattern) (nodes : list node_ptr)
  : match_generator :=
  for_nodes nodes (match_by_action pattern).

(** The loops of the top-level [match], over the classes of the graph. *)
Fixpoint match_classes (pattern : match_pattern)
    (classes : list (node_handle * list node_ptr)) : match_generator :=
  match classes with
  | [] => ([], false)
  | (_, nodes) :: rest =>
      let '(ys, ab) :=
        for_each (match_eclass pattern nodes) (fun m =>
          if (size (matched_places m) =? length places)%nat
          then ([m], Continue) else ([], Continue)) in
      if ab then (ys, true)
      else let '(zs, ab') := match_classes pattern rest in (ys ++ zs, ab')
  end.

End Match.

(** [match(match_pattern, egraph)]; [gather_places] is a collaborator. *)
Definition match_top (gather_places : match_pattern -> places_t)
    (pattern : match_pattern) (graph : egraph) : match_generator :=
  let places := gather_places pattern in
  match_classes graph places pattern (eclasses graph).

(** *** What a match result says *)

(** The places that occur in an expression. *)
Fixpoint places_of (e : simple_expr) : list string :=
  match e with
  | atom (place_t p) => [p]
  | atom _ => []
  | expr_list front rest => places_of front ++ concat (map places_of rest)
  end.

Definition places_of_pattern (pattern : match_pattern) : list string :=
  match action pattern with
  | simple e => places_of e
  | match_expr _ => []
  end.

Lemma simple_expr_ind' (P : simple_expr -> Prop) :
  (forall a, P (atom a)) ->
  (forall front rest, P front -> Forall P rest -> P (expr_list front rest)) ->
  forall e, P e.
Proof.
  intros Hatom Hlist. fix IH 1. intros [a|front rest].
  - apply Hatom.
  - apply Hlist; [apply IH|].
    induction rest as [|r rest IHrest]; constructor; [apply IH | exact IHrest].
Qed.

Lemma in_for_loop source aborts body y :
  In y (fst (for_loop source aborts body)) ->
  exists m, In m source /\ In y (fst (body m)).
Proof.
  induction source as [|m rest IH]; simpl; [intros []|].
  destruct (body m) as [ys c] eqn:E.
  destruct c.
  - destruct (for_loop rest aborts body) as [zs ab]. simpl in *.
    intros H. apply in_app_or in H. destruct H as [H|H].
    + exists m. rewrite E. auto.
    + destruct (IH H) as (m' & Hm' & Hy). eauto.
  - simpl. intros H. exists m. rewrite E. auto.
  - simpl. intros H. exists m. rewrite E. auto.
Qed.

Lemma in_for_each source body y :
  In y (fst (for_each source body)) ->
  exists m, In m (fst source) /\ In y (fst (body m)).
Proof. apply in_for_loop. Qed.

Lemma in_for_nodes nodes inner y :
  In y (fst (for_nodes nodes inner)) ->
  exists n, In n nodes /\ In y (fst (inner n)).
Proof.
  induction nodes as [|n rest IH]; simpl; [intros []|].
  destruct (inner n) as [ys ab] eqn:E. destruct ab.
  - simpl. intros H. exists n. rewrite E. auto.
  - destruct (for_nodes rest inner) as [zs ab']. simpl in *.
    intros H. apply in_app_or in H. destruct H as [H|H].
    + exists n. rewrite E. auto.
    + destruct (IH H) as (n' & Hn' & Hy). eauto.
Qed.

Lemma in_yield_all inner y :
  In y (fst (yield_all inner)) -> In y (fst inner).
Proof. unfold yield_all. simpl. auto. Qed.

Section Sound.

Variable graph : egraph.
Variable places : places_t.

(** An expression matches a node under one binding of the places: every
    occurrence of a place lies on a node of the class bound to it. *)
Inductive sat (sigma : gmap nat node_handle) : simple_expr -> node_ptr -> Prop :=
| sat_constant c node :
    extract_constant graph node = Some c ->
    sat sigma (atom (constant_t c)) node
| sat_operation o node :
    node_name graph node = o ->
    sat sigma (atom (operation_t o)) node
| sat_place p node :
    sigma !! to_uint32 (place_index p places) = Some (find graph node) ->
    sat sigma (atom (place_t p)) node
| sat_list front rest node :
    sat sigma front node ->
    rest = [] \/ sat_children sigma rest (children graph node) ->
    sat sigma (expr_list front rest) node
with sat_children (sigma : gmap nat node_handle)
  : list simple_expr -> list node_handle -> Prop :=
| sat_nil : sat_children sigma [] []
| sat_cons p ps h hs n :
    In n (eclass graph h) -> sat sigma p n -> sat_children sigma ps hs ->
    sat_children sigma (p :: ps) (h :: hs).

(** The keys a match of [ps] may add to the binding. *)
Definition binds (ps : list string) (k : nat) : Prop :=
  exists p, In p ps /\ k = to_uint32 (place_index p places).

(** What holds of a result [m] of matching from the binding [mp]. *)
Definition extends (ps : list string) (mp : gmap nat node_handle)
    (m : match_result) : Prop :=
  mp ⊆ matched_places m /\
  (forall k, is_Some (matched_places m !! k) ->
     is_Some (mp !! k) \/ binds ps k) /\
  forall p, In p ps ->
    is_Some (matched_places m !! to_uint32 (place_index p places)).

Definition sound_at (e : simple_expr) : Prop :=
  forall node mp m,
    In m (fst (match_simple_expr graph places e node mp)) ->
    root m = find graph node /\
    extends (places_of e) mp m /\
    forall sigma, matched_places m ⊆ sigma -> sat sigma e node.

Lemma extends_refl mp r :
  extends [] mp {| root := r; matched_places := mp |}.
Proof.
  split; simpl; [reflexivity|]. split; [auto|]. intros p [].
Qed.

Lemma emplace_lookup id handle (mp : gmap nat node_handle) :
  (mp !! id = None \/ mp !! id = Some handle) ->
  emplace id handle mp !! id = Some handle /\
  mp ⊆ emplace id handle mp /\
  forall k, is_Some (emplace id handle mp !! k) -> is_Some (mp !! k) \/ k = id.
Proof.
  unfold emplace. intros [H|H]; rewrite H.
  - split; [apply lookup_insert_eq|]. split; [now apply insert_subseteq|].
    intros k Hk. destruct (decide (id = k)) as [->|Hne]; [now right|].
    rewrite lookup_insert_ne in Hk by exact Hne. now left.
  - split; [exact H|]. split; [reflexivity|]. intros k Hk. now left.
Qed.

Lemma match_atom_sound a : sound_at (atom a).
Proof.
  intros node mp m. simpl. destruct a as [c|o|p|l]; simpl.
  - unfold match_constant.
    destruct (extract_constant graph node) as [con|] eqn:E; [|intros []].
    destruct (Z.eqb_spec con c) as [->|]; [|intros []].
    intros [<-|[]]. simpl. split; [reflexivity|]. split; [apply extends_refl|].
    intros sigma _. now constructor.
  - unfold match_operation.
    destruct (String.eqb_spec (node_name graph node) o) as [Ho|]; [|intros []].
    intros [<-|[]]. simpl. split; [reflexivity|]. split; [apply extends_refl|].
    intros sigma _. now constructor.
  - unfold match_place.
    set (id := to_uint32 (place_index p places)).
    set (handle := find graph node).
    assert (Hok : (mp !! id = None \/ mp !! id = Some handle) ->
              forall m, In m [{| root := handle;
                                 matched_places := emplace id handle mp |}] ->
              root m = handle /\ extends [p] mp m /\
              forall sigma, matched_places m ⊆ sigma ->
                sat sigma (atom (place_t p)) node).
    { intros Hb m0 [<-|[]]. simpl.
      destruct (emplace_lookup id handle mp Hb) as (H1 & H2 & H3).
      split; [reflexivity|]. split.
      - split; simpl; [exact H2|]. split.
        + intros k Hk.
          destruct (H3 k Hk) as [?| ->]; [now left|right].
          exists p. split; [now left | reflexivity].
        + intros q [<-|[]]. fold id. rewrite H1. eauto.
      - intros sigma Hs. constructor.
        eapply lookup_weaken; [exact H1 | exact Hs]. }
    destruct (mp !! id) as [bound|] eqn:E.
    + destruct (Nat.eqb_spec bound handle) as [->|]; simpl; [|intros []].
      apply Hok. now right.
    + apply Hok. now left.
  - unfold match_label. simpl. intros [].
Qed.

Lemma extends_nil_r ps mp m : extends ps mp m -> extends (ps ++ []) mp m.
Proof. now rewrite app_nil_r. Qed.

Lemma extends_trans ps1 ps2 mp m1 m :
  extends ps1 mp m1 -> extends ps2 (matched_places m1) m ->
  extends (ps1 ++ ps2) mp m.
Proof.
  intros (A1 & A2 & A3) (B1 & B2 & B3).
  split; [now transitivity (matched_places m1)|]. split.
  - intros k Hk. destruct (B2 k Hk) as [Hk1|(p & Hp & ->)].
    + destruct (A2 k Hk1) as [?|(p & Hp & ->)]; [now left|right].
      exists p. split; [apply in_or_app; now left | reflexivity].
    + right. exists p. split; [apply in_or_app; now right | reflexivity].
  - intros p Hp. apply in_app_or in Hp. destruct Hp as [Hp|Hp].
    + destruct (A3 p Hp) as [x Hx]. exists x.
      eapply lookup_weaken; [exact Hx | exact B1].
    + now apply B3.
Qed.

Lemma match_in_eclass_sound p h mp m :
  sound_at p ->
  In m (fst (match_in_eclass graph (match_simple_expr graph places p) h mp)) ->
  exists n, In n (eclass graph h) /\
    extends (places_of p) mp m /\
    forall sigma, matched_places m ⊆ sigma -> sat sigma p n.
Proof.
  intros Hp Hm. unfold match_in_eclass in Hm.
  apply in_for_nodes in Hm. destruct Hm as (n & Hn & Hm).
  destruct (Hp n mp m Hm) as (_ & He & Hs). eauto.
Qed.

Lemma match_children_sound pcs :
  Forall sound_at pcs ->
  forall ncs mp m,
    length pcs = length ncs ->
    In m (fst (match_children graph (match_simple_expr graph places)
                 pcs ncs mp)) ->
    extends (concat (map places_of pcs)) mp m /\
    forall sigma, matched_places m ⊆ sigma -> sat_children sigma pcs ncs.
Proof.
  induction 1 as [|p ps Hp Hps IH]; intros ncs mp m Hlen Hm.
  - destruct ncs; simpl in Hm; destruct Hm.
  - destruct ncs as [|h hs]; [discriminate Hlen|].
    injection Hlen as Hlen. cbn [match_children] in Hm.
    destruct ps as [|p2 ps'].
    + destruct hs; [|discriminate Hlen].
      apply (match_in_eclass_sound p h mp m Hp) in Hm.
      destruct Hm as (n & Hn & He & Hs). split.
      * simpl. now apply extends_nil_r.
      * intros sigma Hsig. econstructor; [exact Hn | now apply Hs | constructor].
    + apply in_for_each in Hm. destruct Hm as (m1 & Hm1 & Hm).
      apply in_yield_all in Hm.
      apply (match_in_eclass_sound p h mp m1 Hp) in Hm1.
      destruct Hm1 as (n & Hn & He1 & Hs1).
      destruct (IH hs (matched_places m1) m Hlen Hm) as [He Hs].
      split.
      * change (concat (map places_of (p :: p2 :: ps')))
          with (places_of p ++ concat (map places_of (p2 :: ps'))).
        eapply extends_trans; eauto.
      * intros sigma Hsig. econstructor; [exact Hn | | now apply Hs].
        apply Hs1. destruct He as [He _]. now transitivity (matched_places m).
Qed.

Lemma match_simple_expr_sound e : sound_at e.
Proof.
  induction e as [a|front rest IHfront IHrest] using simple_expr_ind'.
  - apply match_atom_sound.
  - intros node mp m Hm. cbn [match_simple_expr] in Hm.
    apply in_for_each in Hm. destruct Hm as (head & Hhead & Hm).
    destruct (IHfront node mp head Hhead) as (Hroot & He & Hs).
    destruct rest as [|r rest'].
    + destruct Hm as [<-|[]]. split; [exact Hroot|]. split.
      * simpl. now apply extends_nil_r.
      * intros sigma Hsig. constructor; [now apply Hs | now left].
    + destruct (Nat.eqb_spec (length (r :: rest'))
                  (length (children graph node))) as [Hlen|]; [|destruct Hm].
      simpl negb in Hm. cbv iota in Hm.
      apply in_yield_all in Hm. apply in_for_each in Hm.
      destruct Hm as (m' & Hm' & Hm). destruct Hm as [<-|[]].
      destruct (match_children_sound (r :: rest') IHrest
                  (children graph node) (matched_places head) m' Hlen Hm')
        as [He' Hs'].
      simpl. split; [exact Hroot|]. split.
      * change (places_of (expr_list front (r :: rest')))
          with (places_of front ++ concat (map places_of (r :: rest'))).
        apply (extends_trans _ _ mp head); [exact He|].
        destruct He' as (A & B & C). split; simpl; [exact A|].
        split; [exact B | exact C].
      * intros sigma Hsig. constructor; [|right; now apply Hs'].
        apply Hs. destruct He' as [He' _]. now transitivity (matched_places m').
Qed.

Lemma in_match_classes pattern classes m :
  In m (fst (match_classes graph places pattern classes)) ->
  base.size (matched_places m) = length places /\
  exists h nodes node,
    In (h, nodes) classes /\ In node nodes /\
    In m (fst (match_by_action graph places pattern node)).
Proof.
  induction classes as [|[h nodes] rest IH]; simpl; [intros []|].
  destruct (for_each _ _) as [ys ab] eqn:E.
  assert (Hys : In m ys ->
            base.size (matched_places m) = length places /\
            exists node, In node nodes /\
              In m (fst (match_by_action graph places pattern node))).
  { intros Hm. replace ys with (fst (ys, ab)) in Hm by reflexivity.
    rewrite <- E in Hm. apply in_for_each in Hm.
    destruct Hm as (m0 & Hm0 & Hm).
    destruct (Nat.eqb_spec (base.size (matched_places m0)) (length places));
      [|destruct Hm].
    destruct Hm as [<-|[]]. split; [assumption|].
    unfold match_eclass in Hm0. apply in_for_nodes in Hm0.
    destruct Hm0 as (node & Hnode & Hm0). eauto. }
  destruct ab.
  - simpl. intros Hm. destruct (Hys Hm) as (Hsz & node & Hn & Hmm).
    split; [exact Hsz|]. exists h, nodes, node. auto.
  - destruct (match_classes graph places pattern rest) as [zs ab'].
    simpl in *. intros Hm. apply in_app_or in Hm. destruct Hm as [Hm|Hm].
    + destruct (Hys Hm) as (Hsz & node & Hn & Hmm).
      split; [exact Hsz|]. exists h, nodes, node. auto.
    + destruct (IH Hm) as (Hsz & h' & nodes' & node & Hin & Hn & Hmm).
      split; [exact Hsz|]. exists h', nodes', node. auto.
Qed.

End Sound.

Lemma place_index_le p places : (place_index p places <= length places)%nat.
Proof.
  induction places as [|q rest IH]; simpl; [lia|].
  destruct (String.eqb q p); lia.
Qed.

Lemma place_index_lt p places :
  In p places -> (place_index p places < length places)%nat.
Proof.
  induction places as [|q rest IH]; simpl; [intros []|].
  destruct (String.eqb_spec q p) as [->|Hne]; [lia|].
  intros [H|H]; [congruence|]. apply IH in H. lia.
Qed.

Lemma to_uint32_small n : Z.of_nat n < 2 ^ 32 -> to_uint32 n = n.
Proof.
  intros H. unfold to_uint32. rewrite Z.mod_small by lia. apply Nat2Z.id.
Qed.

(** A node whose class differs from what the place is already bound to is
    rejected, and one whose class is the same keeps the binding. *)
Lemma match_place_bound graph places p node mp bound :
  mp !! to_uint32 (place_index p places) = Some bound ->
  match_place graph places p node mp =
    if (bound =? find graph node)%nat
    then ([{| root := find graph node; matched_places := mp |}], false)
    else ([], false).
Proof.
  intros H. unfold match_place, emplace, node_handle in *. cbv zeta.
  rewrite !H. now destruct (bound =? find graph node)%nat.
Qed.

(** Under one binding, two occurrences of a place lie on nodes of the same
    class. *)
Lemma sat_place_agree graph places sigma p n1 n2 :
  sat graph places sigma (atom (place_t p)) n1 ->
  sat graph places sigma (atom (place_t p)) n2 ->
  find graph n1 = find graph n2.
Proof.
  intros H1 H2. inversion H1; subst. inversion H2; subst. congruence.
Qed.

(** C6: every result the top-level [match] yields binds every place the
    pattern declares, and binds each place once for the whole pattern: the
    pattern matches a node of the graph, of the class [root], with every
    occurrence of a place on a node of the class bound to that place (so
    two occurrences of a place lie in the same class, [sat_place_agree];
    a node of another class is rejected, [match_place_bound]). *)
Theorem match_results_cover_and_agree
    (gather_places : match_pattern -> places_t)
    (pattern : match_pattern) (graph : egraph) (m : match_result)
    (Hgather : forall p, In p (places_of_pattern pattern) ->
                         In p (gather_places pattern))
    (Hsize : Z.of_nat (length (gather_places pattern)) < 2 ^ 32)
    (Hm : In m (fst (match_top gather_places pattern graph))) :
  (forall p, In p (gather_places pattern) ->
     is_Some (matched_places m !! place_index p (gather_places pattern))) /\
  exists e h nodes node,
    action pattern = simple e /\
    In (h, nodes) (eclasses graph) /\ In node nodes /\
    root m = find graph node /\
    sat graph (gather_places pattern) (matched_places m) e node.
Proof.
  unfold match_top in Hm. set (places := gather_places pattern) in *.
  apply in_match_classes in Hm.
  destruct Hm as (Hsz & h & nodes & node & Hin & Hnode & Hm).
  unfold match_by_action in Hm. unfold places_of_pattern in Hgather.
  destruct (action pattern) as [e|labels] eqn:Hact; [|destruct Hm].
  destruct (match_simple_expr_sound graph places e node ∅ m Hm)
    as (Hroot & (_ & Hkeys & Hall) & Hsat).
  split.
  - assert (Hdom : dom (matched_places m) = set_seq 0 (length places)).
    { apply set_subseteq_size_eq.
      - intros k Hk. apply elem_of_dom in Hk.
        destruct (Hkeys k Hk) as [Hk0|(p & Hp & ->)].
        + rewrite lookup_empty in Hk0. destruct Hk0 as [? [=]].
        + pose proof (place_index_lt p places (Hgather p Hp)) as Hlt.
          rewrite to_uint32_small by lia.
          apply elem_of_set_seq. lia.
      - rewrite size_set_seq, size_dom, Hsz. reflexivity. }
    intros p Hp. apply elem_of_dom. rewrite Hdom.
    apply elem_of_set_seq. pose proof (place_index_lt p places Hp). lia.
  - exists e, h, nodes, node.
    split; [reflexivity|]. split; [exact Hin|]. split; [exact Hnode|].
    split; [exact Hroot|]. apply Hsat. reflexivity.
Qed.

(** The places that occur in the pattern are bound in every result, whatever
    [gather_places] returns: a match has gone through each of them. *)
Lemma match_binds_places_of_pattern
    (gather_places : match_pattern -> places_t)
    (pattern : match_pattern) (graph : egraph) (m : match_result) (p : string) :
  In m (fst (match_top gather_places pattern graph)) ->
  In p (places_of_pattern pattern) ->
  is_Some (matched_places m
             !! to_uint32 (place_index p (gather_places pattern))).
Proof.
  unfold match_top, places_of_pattern, match_by_action. intros Hm Hp.
  apply in_match_classes in Hm.
  destruct Hm as (_ & h & nodes & node & _ & _ & Hm).
  unfold match_by_action in Hm.
  destruct (action pattern) as [e|labels]; [|destruct Hm].
  destruct (match_simple_expr_sound graph _ e node ∅ m Hm)
    as (_ & (_ & _ & Hall) & _).
  now apply Hall.
Qed.

(** Two leaves [x] and [y], [add x x] and [add x y], each in a class of
    its own, and the pattern [(add ?a ?a)]. *)
Definition sample_graph : egraph :=
  {| node_name := fun n =>
       match n with
       | 0%nat => "x"%string
       | 1%nat => "y"%string
       | _ => "add"%string
       end;
     extract_constant := fun _ => None;
     children := fun n =>
       match n with
       | 2%nat => [0%nat; 0%nat]
       | 3%nat => [0%nat; 1%nat]
       | _ => []
       end;
     find := fun n => n;
     eclass := fun h => [h];
     eclasses := [(0%nat, [0%nat]); (1%nat, [1%nat]);
                  (2%nat, [2%nat]); (3%nat, [3%nat])] |}.

Definition add_a_a : match_pattern :=
  {| action :=
       simple (expr_list (atom (operation_t "add"))
                 [atom (place_t "a"); atom (place_t "a")]) |}.

Definition sample_result : match_result :=
  {| root := 2%nat; matched_places := {[ 0%nat := 0%nat ]} |}.

(** A [gather_places]: the places of the pattern, each once, in order of
    first occurrence. *)
Definition distinct_places (pattern : match_pattern) : places_t :=
  remove_dups (places_of_pattern pattern).

Lemma distinct_places_complete pattern p :
  In p (places_of_pattern pattern) -> In p (distinct_places pattern).
Proof.
  unfold distinct_places. rewrite <- !list_elem_of_In.
  now rewrite elem_of_remove_dups.
Qed.

Lemma match_results_cover_and_agree_witness :
  fst (match_top distinct_places add_a_a sample_graph) = [sample_result] /\
  is_Some (matched_places sample_result !! 0%nat).
Proof.
  assert (Hrun : fst (match_top distinct_places add_a_a sample_graph)
                 = [sample_result]) by (vm_compute; reflexivity).
  split; [exact Hrun|].
  assert (Hsize : Z.of_nat (length (distinct_places add_a_a)) < 2 ^ 32)
    by (vm_compute; reflexivity).
  assert (Hm : In sample_result
                 (fst (match_top distinct_places add_a_a sample_graph)))
    by (rewrite Hrun; left; reflexivity).
  destruct (match_results_cover_and_agree distinct_places add_a_a
              sample_graph sample_result
              (distinct_places_complete add_a_a) Hsize Hm) as [Hcover _].
  apply (Hcover "a"%string). vm_compute. left. reflexivity.
Defined.

(** *** Patterns that are not implemented *)

(** Some class of the graph has a node. *)
Definition has_node (classes : list (node_handle * list node_ptr)) : bool :=
  existsb (fun c => match snd c with [] => false | _ :: _ => true end) classes.

Lemma for_nodes_abort nodes :
  for_nodes nodes (fun _ => ([], true)) =
  ([], match nodes with [] => false | _ :: _ => true end).
Proof. destruct nodes; reflexivity. Qed.

Lemma for_nodes_ext nodes (f g : node_ptr -> match_generator) :
  (forall n, f n = g n) -> for_nodes nodes f = for_nodes nodes g.
Proof.
  intros H. induction nodes as [|n rest IH]; simpl; [reflexivity|].
  now rewrite H, IH.
Qed.

Lemma match_classes_abort graph places pattern classes :
  (forall node, match_by_action graph places pattern node = ([], true)) ->
  match_classes graph places pattern classes = ([], has_node classes).
Proof.
  intros Habort. induction classes as [|[h nodes] rest IH]; [reflexivity|].
  cbn [match_classes]. unfold match_eclass.
  rewrite (for_nodes_ext _ _ (fun _ => ([], true))) by exact Habort.
  rewrite for_nodes_abort. unfold for_each. simpl.
  destruct nodes; simpl; [|reflexivity].
  now rewrite IH.
Qed.

(** X19: a pattern whose action is a [match_expr], or whose expression is a
    label, yields no result on any graph, and the matcher aborts as soon as
    it meets a class that has a node. *)
Theorem unimplemented_patterns_abort
    (gather_places : match_pattern -> places_t) (graph : egraph)
    (labels : list string) (l : string) :
  match_top gather_places {| action := match_expr labels |} graph =
    ([], has_node (eclasses graph)) /\
  match_top gather_places {| action := simple (atom (label_t l)) |} graph =
    ([], has_node (eclasses graph)).
Proof.
  unfold match_top. split; apply match_classes_abort; reflexivity.
Qed.

(** *** Every match is found *)

(** No label anywhere in the expression. *)
Fixpoint label_free (e : simple_expr) : bool :=
  match e with
  | atom (label_t _) => false
  | atom _ => true
  | expr_list front rest => label_free front && forallb label_free rest
  end.

Lemma for_loop_continue source aborts body :
  (forall m, In m source -> snd (body m) = Continue) ->
  snd (for_loop source aborts body) = aborts /\
  forall m y, In m source -> In y (fst (body m)) ->
    In y (fst (for_loop source aborts body)).
Proof.
  induction source as [|m0 rest IH]; intros Hc; simpl.
  - split; [reflexivity|]. intros m y [].
  - pose proof (Hc m0 (or_introl eq_refl)) as H0.
    destruct (body m0) as [ys c] eqn:E. simpl in H0. subst c.
    destruct (IH (fun m Hm => Hc m (or_intror Hm))) as [IH1 IH2].
    destruct (for_loop rest aborts body) as [zs ab]. simpl in *.
    split; [exact IH1|].
    intros m y [<-|Hm] Hy; apply in_or_app.
    + left. now rewrite E in Hy.
    + right. eauto.
Qed.

Lemma for_loop_no_abort source body :
  (forall m, In m source -> snd (body m) <> Aborted) ->
  snd (for_loop source false body) = false.
Proof.
  induction source as [|m0 rest IH]; intros Hc; simpl; [reflexivity|].
  pose proof (Hc m0 (or_introl eq_refl)) as H0.
  destruct (body m0) as [ys c] eqn:E. simpl in H0.
  destruct c; [|reflexivity|congruence].
  specialize (IH (fun m Hm => Hc m (or_intror Hm))).
  destruct (for_loop rest false body) as [zs ab]. exact IH.
Qed.

Lemma for_loop_yield_each source aborts (f : match_result -> match_result) :
  for_loop source aborts (fun m => ([f m], Continue)) = (map f source, aborts).
Proof.
  induction source as [|m rest IH]; simpl; [reflexivity|]. now rewrite IH.
Qed.

Lemma for_nodes_complete nodes inner :
  (forall n, In n nodes -> snd (inner n) = false) ->
  snd (for_nodes nodes inner) = false /\
  forall n y, In n nodes -> In y (fst (inner n)) ->
    In y (fst (for_nodes nodes inner)).
Proof.
  induction nodes as [|n0 rest IH]; intros Hc; simpl.
  - split; [reflexivity|]. intros n y [].
  - pose proof (Hc n0 (or_introl eq_refl)) as H0.
    destruct (inner n0) as [ys ab] eqn:E. simpl in H0. subst ab.
    destruct (IH (fun n Hn => Hc n (or_intror Hn))) as [IH1 IH2].
    destruct (for_nodes rest inner) as [zs ab']. simpl in *.
    split; [exact IH1|].
    intros n y [<-|Hn] Hy; apply in_or_app.
    + left. now rewrite E in Hy.
    + right. eauto.
Qed.

Section Complete.

Variable graph : egraph.
Variable places : places_t.

Local Abbreviation match_node := (match_simple_expr graph places).

Definition no_abort_at (e : simple_expr) : Prop :=
  forall node mp, snd (match_node e node mp) = false.

Lemma match_children_no_abort pcs :
  Forall no_abort_at pcs ->
  forall ncs mp, pcs <> [] -> length pcs = length ncs ->
    snd (match_children graph match_node pcs ncs mp) = false.
Proof.
  induction 1 as [|p ps Hp Hps IH]; intros ncs mp Hne Hlen; [congruence|].
  destruct ncs as [|h hs]; [discriminate Hlen|]. injection Hlen as Hlen.
  cbn [match_children].
  assert (Hchild : snd (match_in_eclass graph (match_node p) h mp) = false).
  { unfold match_in_eclass. apply for_nodes_complete. intros n _. apply Hp. }
  destruct ps as [|p2 ps']; [exact Hchild|].
  unfold for_each. rewrite Hchild. apply for_loop_no_abort.
  intros m _. unfold yield_all. cbn [snd].
  rewrite IH by (auto; discriminate). discriminate.
Qed.

Lemma match_no_abort e : label_free e = true -> no_abort_at e.
Proof.
  induction e as [a|front rest IHfront IHrest] using simple_expr_ind';
    intros Hfree node mp.
  - destruct a; try reflexivity; simpl.
    + unfold match_constant. destruct (extract_constant graph node);
        [destruct (_ =? _)|]; reflexivity.
    + unfold match_operation. destruct (String.eqb _ _); reflexivity.
    + unfold match_place. cbv zeta.
      destruct (mp !! _); [destruct (negb _)|]; reflexivity.
    + discriminate Hfree.
  - simpl in Hfree. apply andb_true_iff in Hfree. destruct Hfree as [Hf Hr].
    cbn [match_simple_expr]. unfold for_each.
    rewrite (IHfront Hf node mp). apply for_loop_no_abort.
    intros head _. destruct rest as [|r rest']; [discriminate|].
    destruct (Nat.eqb_spec (length (r :: rest')) (length (children graph node)))
      as [Hlen|]; simpl negb; cbv iota; [|discriminate].
    unfold yield_all. cbn [snd].
    assert (Hall : Forall no_abort_at (r :: rest')).
    { rewrite forallb_forall in Hr.
      rewrite List.Forall_forall in IHrest. apply List.Forall_forall.
      intros p Hp. apply (IHrest p Hp). now apply Hr. }
    pose proof (match_children_no_abort _ Hall (children graph node)
                  (matched_places head) ltac:(discriminate) Hlen) as Hch.
    unfold for_each. rewrite for_loop_yield_each. cbn [snd].
    rewrite Hch. discriminate.
Qed.

Lemma sat_children_length sigma ps : forall hs,
  sat_children graph places sigma ps hs -> length ps = length hs.
Proof.
  induction ps as [|p ps IH]; intros hs H; inversion H; subst; simpl;
    [reflexivity|]. f_equal. now apply IH.
Qed.

Definition complete_at (e : simple_expr) : Prop :=
  forall node mp sigma,
    sat graph places sigma e node -> mp ⊆ sigma ->
    exists m, In m (fst (match_node e node mp)) /\ matched_places m ⊆ sigma.

Lemma match_atom_complete a : label_free (atom a) = true -> complete_at (atom a).
Proof.
  intros Hfree node mp sigma Hsat Hsub.
  inversion Hsat as [c n Hc|o n Ho|p n Hp|]; subst; simpl.
  - unfold match_constant. rewrite Hc, Z.eqb_refl.
    eexists. split; [left; reflexivity|exact Hsub].
  - unfold match_operation. rewrite String.eqb_refl.
    eexists. split; [left; reflexivity|exact Hsub].
  - unfold match_place. cbv zeta.
    set (id := to_uint32 (place_index p places)) in *.
    assert (Hem : emplace id (find graph node) mp ⊆ sigma).
    { unfold emplace. destruct (mp !! id) eqn:E; [exact Hsub|].
      now apply insert_subseteq_l. }
    destruct (mp !! id) as [bound|] eqn:E.
    + pose proof (lookup_weaken _ _ _ _ E Hsub) as Hb.
      unfold node_handle in *. rewrite Hp in Hb. injection Hb as <-.
      rewrite Nat.eqb_refl. simpl.
      eexists. split; [left; reflexivity|exact Hem].
    + eexists. split; [left; reflexivity|exact Hem].
Qed.

Lemma match_children_complete pcs :
  Forall no_abort_at pcs -> Forall complete_at pcs ->
  forall ncs mp sigma,
    pcs <> [] -> sat_children graph places sigma pcs ncs -> mp ⊆ sigma ->
    exists m, In m (fst (match_children graph match_node pcs ncs mp)) /\
              matched_places m ⊆ sigma.
Proof.
  intros Hna Hco. induction Hco as [|p ps Hp Hps IH];
    intros ncs mp sigma Hne Hsat Hsub; [congruence|].
  inversion Hna as [|? ? Hnap Hnaps]; subst.
  inversion Hsat as [|? ? h hs n Hn Hsp Hsps]; subst.
  cbn [match_children].
  destruct (Hp n mp sigma Hsp Hsub) as (m1 & Hm1 & Hsub1).
  assert (Hchild : In m1 (fst (match_in_eclass graph (match_node p) h mp)) /\
                   snd (match_in_eclass graph (match_node p) h mp) = false).
  { unfold match_in_eclass.
    destruct (for_nodes_complete (eclass graph h) (fun n => match_node p n mp)
                (fun n _ => Hnap n mp)) as [H1 H2].
    split; [exact (H2 n m1 Hn Hm1) | exact H1]. }
  destruct Hchild as [Hin1 Hab1].
  destruct ps as [|p2 ps']; [exists m1; auto|].
  destruct (IH Hnaps hs (matched_places m1) sigma ltac:(discriminate)
              Hsps Hsub1) as (m & Hm & Hsubm).
  exists m. split; [|exact Hsubm].
  assert (Hbody : forall m0,
            snd (yield_all (match_children graph match_node (p2 :: ps') hs
                              (matched_places m0))) = Continue).
  { intros m0. unfold yield_all. cbn [snd].
    rewrite (match_children_no_abort _ Hnaps hs (matched_places m0)
               ltac:(discriminate) (sat_children_length _ _ _ Hsps)).
    reflexivity. }
  unfold for_each.
  apply (proj2 (for_loop_continue _ _ _ (fun m0 _ => Hbody m0)) m1 m Hin1).
  exact Hm.
Qed.

Lemma match_complete e : label_free e = true -> complete_at e.
Proof.
  induction e as [a|front rest IHfront IHrest] using simple_expr_ind';
    intros Hfree; [now apply match_atom_complete|].
  pose proof (match_no_abort _ Hfree) as Hna.
  simpl in Hfree. apply andb_true_iff in Hfree. destruct Hfree as [Hf Hr].
  rewrite forallb_forall in Hr.
  assert (Hnar : Forall no_abort_at rest).
  { apply List.Forall_forall. intros p Hp. apply match_no_abort. now apply Hr. }
  assert (Hcor : Forall complete_at rest).
  { rewrite List.Forall_forall in IHrest. apply List.Forall_forall.
    intros p Hp. apply (IHrest p Hp). now apply Hr. }
  intros node mp sigma Hsat Hsub.
  inversion Hsat as [| | |? ? ? Hsf Hsr]; subst.
  destruct (IHfront Hf node mp sigma Hsf Hsub) as (head & Hhead & Hsubh).
  cbn [match_simple_expr]. unfold for_each.
  destruct rest as [|r rest'].
  - exists head. split; [|exact Hsubh].
    rewrite (for_loop_yield_each _ _ (fun m => m)). cbn [fst].
    now rewrite map_id.
  - destruct Hsr as [Hsr|Hsr]; [discriminate Hsr|].
    pose proof (sat_children_length _ _ _ Hsr) as Hlen.
    destruct (match_children_complete _ Hnar Hcor (children graph node)
                (matched_places head) sigma ltac:(discriminate) Hsr Hsubh)
      as (m' & Hm' & Hsubm).
    exists {| root := root head; matched_places := matched_places m' |}.
    split; [|exact Hsubm].
    assert (Hbody : forall h0,
              snd (if negb (length (r :: rest') =?
                            length (children graph node))%nat
                   then ([], Returned)
                   else yield_all
                          (for_each
                             (match_children graph match_node (r :: rest')
                                (children graph node) (matched_places h0))
                             (fun m =>
                                ([{| root := root h0;
                                     matched_places := matched_places m |}],
                                 Continue)))) = Continue).
    { intros h0. rewrite Hlen, Nat.eqb_refl. simpl negb. cbv iota.
      unfold yield_all, for_each. cbn [snd].
      rewrite for_loop_yield_each. cbn [snd].
      rewrite (match_children_no_abort _ Hnar (children graph node)
                 (matched_places h0) ltac:(discriminate) Hlen).
      reflexivity. }
    apply (proj2 (for_loop_continue _ _ _ (fun m _ => Hbody m)) head _ Hhead).
    rewrite Hlen, Nat.eqb_refl. simpl negb. cbv iota.
    unfold yield_all, for_each. cbn [fst].
    rewrite for_loop_yield_each. cbn [fst].
    apply in_map_iff. exists m'. split; [reflexivity|exact Hm'].
Qed.

End Complete.

Lemma place_index_lookup places : forall k p,
  NoDup places -> places !! k = Some p -> place_index p places = k.
Proof.
  induction places as [|q rest IH]; intros k p Hnd Hk; [discriminate|].
  apply NoDup_cons in Hnd. destruct Hnd as [Hq Hnd].
  destruct k as [|k]; simpl in *.
  - injection Hk as ->. now rewrite String.eqb_refl.
  - destruct (String.eqb_spec q p) as [->|Hne].
    + exfalso. apply Hq. eapply list_elem_of_lookup_2; eauto.
    + f_equal. now apply IH.
Qed.

Lemma match_classes_complete graph places pattern classes h nodes node m :
  (forall n, snd (match_by_action graph places pattern n) = false) ->
  In (h, nodes) classes -> In node nodes ->
  In m (fst (match_by_action graph places pattern node)) ->
  base.size (matched_places m) = length places ->
  snd (match_classes graph places pattern classes) = false /\
  In m (fst (match_classes graph places pattern classes)).
Proof.
  intros Hna Hin Hnode Hm Hsz.
  assert (Hclass : forall ns,
            snd (for_each (match_eclass graph places pattern ns)
                   (fun m0 =>
                      if (base.size (matched_places m0) =? length places)%nat
                      then ([m0], Continue) else ([], Continue))) = false /\
            (In node ns ->
             In m (fst (for_each (match_eclass graph places pattern ns)
                   (fun m0 =>
                      if (base.size (matched_places m0) =? length places)%nat
                      then ([m0], Continue) else ([], Continue)))))).
  { intros ns. unfold match_eclass.
    destruct (for_nodes_complete ns (match_by_action graph places pattern)
                (fun n _ => Hna n)) as [H1 H2].
    unfold for_each.
    destruct (for_loop_continue
                (fst (for_nodes ns (match_by_action graph places pattern)))
                (snd (for_nodes ns (match_by_action graph places pattern)))
                (fun m0 =>
                   if (base.size (matched_places m0) =? length places)%nat
                   then ([m0], Continue) else ([], Continue))) as [H3 H4].
    { intros m0 _. now destruct (_ =? _)%nat. }
    split; [now rewrite H3|].
    intros Hn. apply (H4 m m (H2 node m Hn Hm)).
    rewrite Hsz, Nat.eqb_refl. now left. }
  assert (Hsnd : forall cs, snd (match_classes graph places pattern cs) = false).
  { induction cs as [|[h0 ns] rest IH]; [reflexivity|]. cbn [match_classes].
    destruct (Hclass ns) as [H1 _].
    destruct (for_each _ _) as [ys ab]. simpl in H1. subst ab.
    destruct (match_classes graph places pattern rest) as [zs ab']. exact IH. }
  split; [apply Hsnd|].
  induction classes as [|[h0 ns] rest IH]; [destruct Hin|].
  cbn [match_classes].
  destruct (Hclass ns) as [H1 H2].
  destruct (for_each _ _) as [ys ab]. simpl in H1, H2. subst ab.
  destruct (match_classes graph places pattern rest) as [zs ab'] eqn:Erest.
  simpl. apply in_or_app.
  destruct Hin as [[= <- <-]|Hin]; [left; now apply H2 | right; now apply IH].
Qed.

Lemma matched_size graph places e node m :
  NoDup places ->
  (forall p, In p places <-> In p (places_of e)) ->
  Z.of_nat (length places) < 2 ^ 32 ->
  In m (fst (match_simple_expr graph places e node ∅)) ->
  base.size (matched_places m) = length places.
Proof.
  intros Hnd Hgather Hsize Hm.
  destruct (match_simple_expr_sound graph places e node ∅ m Hm)
    as (_ & (_ & Hkeys & Hall) & _).
  assert (Hdom : dom (matched_places m) =@{gset nat}
                 set_seq 0 (length places));
    [|now rewrite <- size_dom, Hdom, size_set_seq].
  apply set_eq. intros k. rewrite elem_of_set_seq, elem_of_dom.
  split.
  - intros Hk. destruct (Hkeys k Hk) as [Hk0|(p & Hp & ->)].
    + rewrite lookup_empty in Hk0. destruct Hk0 as [? [=]].
    + pose proof (place_index_lt p places (proj2 (Hgather p) Hp)) as Hlt.
      rewrite to_uint32_small by lia. lia.
  - intros [_ Hk]. simpl in Hk.
    destruct (lookup_lt_is_Some_2 places k Hk) as [p Hp].
    pose proof (place_index_lookup places k p Hnd Hp) as Hidx.
    assert (Hin : In p places)
      by (apply list_elem_of_In; eapply list_elem_of_lookup_2; eauto).
    pose proof (Hall p (proj1 (Hgather p) Hin)) as Hb.
    rewrite Hidx, to_uint32_small in Hb by lia. exact Hb.
Qed.

(** X20: on a pattern without labels whose places are gathered each once,
    the top-level [match] does not abort and misses no match: for every
    node of a class of the graph that the pattern matches under a binding
    of the places, it yields a result at the class of that node whose
    binding is part of that one. *)
Theorem match_finds_every_binding
    (gather_places : match_pattern -> places_t)
    (pattern : match_pattern) (graph : egraph) (e : simple_expr)
    (sigma : gmap nat node_handle)
    (h : node_handle) (nodes : list node_ptr) (node : node_ptr)
    (Hact : action pattern = simple e)
    (Hfree : label_free e = true)
    (Hnodup : NoDup (gather_places pattern))
    (Hgather : forall p, In p (gather_places pattern) <-> In p (places_of e))
    (Hsize : Z.of_nat (length (gather_places pattern)) < 2 ^ 32)
    (Hclass : In (h, nodes) (eclasses graph)) (Hnode : In node nodes)
    (Hsat : sat graph (gather_places pattern) sigma e node) :
  snd (match_top gather_places pattern graph) = false /\
  exists m,
    In m (fst (match_top gather_places pattern graph)) /\
    root m = find graph node /\
    matched_places m ⊆ sigma.
Proof.
  unfold match_top. cbv zeta.
  revert Hnodup Hgather Hsize Hsat.
  generalize (gather_places pattern). intros places Hnodup Hgather Hsize Hsat.
  destruct (match_complete graph places e Hfree node ∅ sigma Hsat
              (map_empty_subseteq sigma)) as (m & Hm & Hsub).
  destruct (match_simple_expr_sound graph places e node ∅ m Hm)
    as (Hroot & _ & _).
  pose proof (matched_size graph places e node m Hnodup Hgather Hsize Hm)
    as Hsz.
  destruct (match_classes_complete graph places pattern (eclasses graph)
              h nodes node m) as [Hab Hin]; auto.
  - intros n. unfold match_by_action. rewrite Hact.
    now apply match_no_abort.
  - unfold match_by_action. now rewrite Hact.
  - split; [exact Hab|]. exists m. auto.
Qed.

Lemma match_finds_every_binding_witness :
  snd (match_top distinct_places add_a_a sample_graph) = false /\
  exists m,
    In m (fst (match_top distinct_places add_a_a sample_graph)) /\
    root m = find sample_graph 2%nat /\
    matched_places m ⊆ {[ 0%nat := 0%nat ]}.
Proof.
  apply (match_finds_every_binding distinct_places add_a_a sample_graph
           (expr_list (atom (operation_t "add"))
              [atom (place_t "a"); atom (place_t "a")])
           {[ 0%nat := 0%nat ]} 2%nat [2%nat] 2%nat).
  - reflexivity.
  - reflexivity.
  - apply NoDup_remove_dups.
  - intros p. unfold distinct_places. rewrite <- !list_elem_of_In.
    rewrite elem_of_remove_dups. reflexivity.
  - vm_compute. reflexivity.
  - simpl. tauto.
  - now left.
  - constructor; [now constructor|]. right.
    apply (sat_cons _ _ _ _ _ _ _ 0%nat); [now left | now constructor |].
    apply (sat_cons _ _ _ _ _ _ _ 0%nat); [now left | now constructor |].
    constructor.
Defined.

(** X29: a result of matching an expression on a node from a binding
    already made is rooted at the class of the node, keeps every place
    bound as it was, and binds every place of the expression. *)
Theorem match_keeps_bindings (graph : egraph) (places : places_t)
    (e : simple_expr) (node : node_ptr) (mp : gmap nat node_handle)
    (m : match_result)
    (Hm : In m (fst (match_simple_expr graph places e node mp))) :
  root m = find graph node /\
  mp ⊆ matched_places m /\
  forall p, In p (places_of e) ->
    is_Some (matched_places m !! to_uint32 (place_index p places)).
Proof.
  destruct (match_simple_expr_sound graph places e node mp m Hm)
    as (Hroot & (Hsub & _ & Hall) & _).
  auto.
Qed.

Lemma match_keeps_bindings_witness :
  let m := {| root := 0%nat; matched_places := {[ 0%nat := 0%nat ]} |} in
  root m = find sample_graph 0%nat /\
  ({[ 0%nat := 0%nat ]} : gmap nat node_handle) ⊆ matched_places m /\
  forall p, In p (places_of (atom (place_t "a"))) ->
    is_Some (matched_places m !! to_uint32 (place_index p ["a"%string])).
Proof.
  cbv zeta.
  apply (match_keeps_bindings sample_graph ["a"%string] (atom (place_t "a"))
           0%nat {[ 0%nat := 0%nat ]}).
  vm_compute. left. reflexivity.
Defined.

End EMatch.

(** ** Walks over the circuit (circuitous/IR/Shapes.hpp) *)

Module Shapes.

(** The [op_code]s the walks tell apart. *)
Inductive Kind :=
| InputRegister | OutputRegister | Constant | Advice | Undefined
| InputInstructionBits | RegConstraint | DecodeCondition | VerifyInstruction
| OtherKind (code : nat).

#[local] Instance Kind_eq_dec : EqDecision Kind.
Proof. solve_decision. Defined.

(** An [Operation] seen from above: its address, its [op_code] and its
    operands. One operation reached along two ways shows as two equal
    subtrees. *)
#[warnings="-register-all"]
Inductive Operation :=
| Op (address : nat) (op_code : Kind) (operands : list Operation).

Definition address (o : Operation) : nat :=
  match o with Op a _ _ => a end.

Definition op_code (o : Operation) : Kind :=
  match o with Op _ k _ => k end.

Definition operands (o : Operation) : list Operation :=
  match o with Op _ _ ops => ops end.

(** [IsLeafNode] *)
Definition IsLeafNode (op : Operation) : bool :=
  match op_code op with
  | InputRegister | OutputRegister | Constant | Advice | Undefined
  | InputInstructionBits => true
  | _ => false
  end.

(** [SubtreeCollector<T>::Run] of one operation, threading [collected]:
    an unordered multiset of pointers, which holds an address as many
    times as it was inserted, in no order. *)
Fixpoint Run (kind : Kind) (o : Operation) (collected : gmultiset nat)
  : gmultiset nat :=
  match o with
  | Op a k ops =>
      let collected :=
        if decide (k = kind) then collected ⊎ {[+ a +]} else collected in
      fold_left (fun c op => Run kind op c) ops collected
  end.

(** [SubtreeCollector<T>::Run] of a container of operations. *)
Definition Run_all (kind : Kind) (ops : list Operation)
    (collected : gmultiset nat) : gmultiset nat :=
  fold_left (fun c op => Run kind op c) ops collected.

(** [allows_undef_], threading [seen]; the loop over the operands stops at
    the first that allows. *)
Fixpoint allows_undef_ (op : Operation) (seen : gset nat) : bool * gset nat :=
  match op with
  | Op a k ops =>
      if decide (a ∈ seen) then (false, seen)
      else
        let seen := {[a]} ∪ seen in
        if decide (k = Undefined) then (true, seen)
        else
          (fix loop (ops : list Operation) (seen : gset nat)
             : bool * gset nat :=
             match ops with
             | [] => (false, seen)
             | x :: rest =>
                 let '(r, seen) := allows_undef_ x seen in
                 if r then (true, seen) else loop rest seen
             end) ops seen
  end.

(** [allows_undef]; [operands[1]] of an operation with fewer than two
    operands has no defined behaviour ([None]). *)
Definition allows_undef (op : Operation) : option bool :=
  if decide (op_code op <> RegConstraint) then Some false
  else
    match operands op !! 1%nat with
    | None => None
    | Some o1 =>
        if decide (op_code o1 <> OutputRegister) then Some false
        else Some (fst (allows_undef_ op ∅))
    end.

(** The operations below and including [o], parents first: one entry for
    each way down to an operation. *)
Fixpoint subtree (o : Operation) : list Operation :=
  match o with
  | Op a k ops => o :: flat_map subtree ops
  end.

Lemma Operation_ind' (P : Operation -> Prop) :
  (forall a k ops, Forall P ops -> P (Op a k ops)) ->
  forall o, P o.
Proof.
  intros H. fix IH 1. intros [a k ops]. apply H.
  induction ops as [|x ops IHops]; constructor; [apply IH | exact IHops].
Qed.

(** The addresses of the operations of one kind in a list of entries,
    each as often as it is listed. *)
Definition addresses_of (kind : Kind) (l : list Operation) : gmultiset nat :=
  list_to_set_disj
    (map address (List.filter (fun x => bool_decide (op_code x = kind)) l)).

Lemma addresses_of_app kind l1 l2 :
  addresses_of kind (l1 ++ l2) = addresses_of kind l1 ⊎ addresses_of kind l2.
Proof.
  unfold addresses_of.
  now rewrite List.filter_app, map_app, list_to_set_disj_app.
Qed.

Lemma Run_all_spec kind ops :
  Forall (fun o => forall collected,
            Run kind o collected =
            collected ⊎ addresses_of kind (subtree o)) ops ->
  forall collected,
    Run_all kind ops collected =
    collected ⊎ addresses_of kind (flat_map subtree ops).
Proof.
  unfold Run_all. induction 1 as [|x ops Hx Hops IH]; intros collected;
    cbn [fold_left flat_map].
  - unfold addresses_of. simpl. multiset_solver.
  - rewrite Hx, IH, addresses_of_app. multiset_solver.
Qed.

Lemma Run_eq kind a k ops collected :
  Run kind (Op a k ops) collected =
  Run_all kind ops
    (if decide (k = kind) then collected ⊎ {[+ a +]} else collected).
Proof. reflexivity. Qed.

Lemma Run_spec kind o : forall collected,
  Run kind o collected = collected ⊎ addresses_of kind (subtree o).
Proof.
  induction o as [a k ops IH] using Operation_ind'. intros collected.
  rewrite Run_eq, (Run_all_spec kind ops IH).
  change (subtree (Op a k ops)) with ([Op a k ops] ++ flat_map subtree ops).
  rewrite addresses_of_app. unfold addresses_of at 2.
  cbn [List.filter op_code].
  destruct (decide (k = kind)) as [Hk|Hk].
  - rewrite bool_decide_eq_true_2 by exact Hk. simpl. multiset_solver.
  - rewrite bool_decide_eq_false_2 by exact Hk. simpl. multiset_solver.
Qed.

(** X24: [SubtreeCollector<T>::Run] adds to the multiset [collected]
    exactly the addresses of the operations of kind [T] below and
    including the ones given, each once for every way down to it, and
    takes nothing out of it. *)
Theorem SubtreeCollector_collects (kind : Kind) (ops : list Operation)
    (collected : gmultiset nat) :
  Run_all kind ops collected =
  collected ⊎ addresses_of kind (flat_map subtree ops).
Proof.
  apply Run_all_spec. apply List.Forall_forall. intros o _. apply Run_spec.
Qed.

(** *** The search for an undefined value *)

(** The loop of [allows_undef_] over the operands. *)
Fixpoint allows_undef_any (ops : list Operation) (seen : gset nat)
  : bool * gset nat :=
  match ops with
  | [] => (false, seen)
  | x :: rest =>
      let '(r, seen) := allows_undef_ x seen in
      if r then (true, seen) else allows_undef_any rest seen
  end.

Lemma allows_undef_eq a k ops seen :
  allows_undef_ (Op a k ops) seen =
  if decide (a ∈ seen) then (false, seen)
  else if decide (k = Undefined) then (true, {[a]} ∪ seen)
       else allows_undef_any ops ({[a]} ∪ seen).
Proof.
  cbn [allows_undef_]. destruct (decide (a ∈ seen)); [reflexivity|].
  destruct (decide (k = Undefined)); [reflexivity|].
  generalize ({[a]} ∪ seen).
  induction ops as [|x rest IH]; intros s; [reflexivity|].
  cbn [allows_undef_any]. destruct (allows_undef_ x s) as [r s'].
  destruct r; [reflexivity|apply IH].
Qed.

(** Some operation below or including [o] is [Undefined]. *)
Definition has_undef (o : Operation) : bool :=
  existsb (fun x => bool_decide (op_code x = Undefined)) (subtree o).

(** Addresses identify operations: two entries below [root] with one
    address are one operation. *)
Definition consistent (root : Operation) : Prop :=
  forall n1 n2, In n1 (subtree root) -> In n2 (subtree root) ->
    address n1 = address n2 -> n1 = n2.

Lemma subtree_self o : In o (subtree o).
Proof. destruct o. now left. Qed.

Lemma subtree_operand a k ops x n :
  In x ops -> In n (subtree x) -> In n (subtree (Op a k ops)).
Proof.
  intros Hx Hn. cbn [subtree]. right. apply in_flat_map. eauto.
Qed.

Lemma subtree_trans o : forall x n,
  In x (subtree o) -> In n (subtree x) -> In n (subtree o).
Proof.
  induction o as [a k ops IH] using Operation_ind'. intros x n Hx Hn.
  cbn [subtree] in Hx. destruct Hx as [<-|Hx]; [exact Hn|].
  apply in_flat_map in Hx. destruct Hx as (y & Hy & Hx).
  rewrite List.Forall_forall in IH.
  apply (subtree_operand a k ops y n Hy). exact (IH y Hy x n Hx Hn).
Qed.

Lemma subtree_length o : forall n,
  In n (subtree o) -> (length (subtree n) <= length (subtree o))%nat.
Proof.
  induction o as [a k ops IH] using Operation_ind'. intros n Hn.
  cbn [subtree] in Hn. destruct Hn as [<-|Hn]; [lia|].
  apply in_flat_map in Hn. destruct Hn as (y & Hy & Hn).
  rewrite List.Forall_forall in IH. specialize (IH y Hy n Hn).
  cbn [subtree length].
  assert (Hle : (length (subtree y) <= length (flat_map subtree ops))%nat).
  { clear -Hy. induction ops as [|z ops IHops]; [destruct Hy|].
    cbn [flat_map]. rewrite length_app.
    destruct Hy as [->|Hy]; [lia|]. specialize (IHops Hy). lia. }
  lia.
Qed.

Lemma operand_not_parent a k ops x n :
  In x ops -> In n (subtree x) -> n <> Op a k ops.
Proof.
  intros Hx Hn ->.
  pose proof (subtree_length x _ Hn) as H1.
  pose proof (subtree_length (Op a k ops) x
                (subtree_operand a k ops x x Hx (subtree_self x))) as H2.
  cbn [subtree length] in H1, H2.
  assert (Hle : (length (subtree x) <= length (flat_map subtree ops))%nat).
  { clear -Hx. induction ops as [|z ops IHops]; [destruct Hx|].
    cbn [flat_map]. rewrite length_app.
    destruct Hx as [->|Hx]; [lia|]. specialize (IHops Hx). lia. }
  lia.
Qed.

Lemma has_undef_below o n :
  In n (subtree o) -> has_undef o = false -> has_undef n = false.
Proof.
  unfold has_undef. intros Hn Ho.
  destruct (existsb _ (subtree n)) eqn:E; [|reflexivity].
  apply existsb_exists in E. destruct E as (x & Hx & Hk).
  assert (Hex : existsb (fun x => bool_decide (op_code x = Undefined))
                  (subtree o) = true).
  { apply existsb_exists. exists x. split; [|exact Hk].
    eapply subtree_trans; eauto. }
  congruence.
Qed.

Lemma has_undef_eq a k ops :
  has_undef (Op a k ops) =
  bool_decide (k = Undefined) || existsb has_undef ops.
Proof.
  unfold has_undef. cbn [subtree existsb op_code]. f_equal.
  induction ops as [|x ops IH]; [reflexivity|].
  cbn [flat_map existsb]. now rewrite existsb_app, IH.
Qed.

(** What one call establishes, from a [seen] that holds no operation of
    the subtree below which an undefined value lies. *)
Definition search_ok (o : Operation) : Prop :=
  forall seen seen' b,
    allows_undef_ o seen = (b, seen') ->
    consistent o ->
    (forall n, In n (subtree o) -> address n ∈ seen -> has_undef n = false) ->
    b = has_undef o /\
    forall a, a ∈ seen' ->
      a ∈ seen \/ exists n, In n (subtree o) /\ address n = a.

Lemma allows_undef_any_ok ops :
  Forall search_ok ops ->
  forall root, (forall x n, In x ops -> In n (subtree x) ->
                            In n (subtree root)) ->
  consistent root ->
  forall seen seen' b,
    allows_undef_any ops seen = (b, seen') ->
    (forall x n, In x ops -> In n (subtree x) -> address n ∈ seen ->
                 has_undef n = false) ->
    b = existsb has_undef ops /\
    forall a, a ∈ seen' ->
      a ∈ seen \/ exists x n, In x ops /\ In n (subtree x) /\ address n = a.
Proof.
  induction 1 as [|x rest Hx Hrest IH];
    intros root Hroot Hcons seen seen' b Hrun Hseen.
  - injection Hrun as <- <-. split; [reflexivity|]. auto.
  - cbn [allows_undef_any] in Hrun.
    destruct (allows_undef_ x seen) as [r s1] eqn:Ex.
    destruct (Hx seen s1 r Ex) as [Hr Hs1].
    { intros n1 n2 H1 H2. apply Hcons; eapply Hroot; eauto; now left. }
    { intros n Hn. apply (Hseen x n); [now left|exact Hn]. }
    cbn [existsb]. destruct r.
    + injection Hrun as <- <-. rewrite <- Hr. split; [reflexivity|].
      intros a Ha. destruct (Hs1 a Ha) as [?|(n & Hn & Hna)]; [now left|].
      right. exists x, n. split; [now left|]. auto.
    + rewrite <- Hr. cbn [orb].
      destruct (IH root (fun y n Hy => Hroot y n (or_intror Hy)) Hcons
                  s1 seen' b Hrun) as [Hb Hs'].
      { intros y n Hy Hn Ha.
        destruct (Hs1 _ Ha) as [Ha'|(n' & Hn' & Hna)].
        - apply (Hseen y n); [now right|exact Hn|exact Ha'].
        - assert (n' = n) as <-.
          { apply Hcons; [|eapply Hroot; eauto; now right|exact Hna].
            eapply Hroot; eauto. now left. }
          apply (has_undef_below x n' Hn'). congruence. }
      split; [exact Hb|].
      intros a Ha. destruct (Hs' a Ha) as [Ha'|(y & n & Hy & Hn & Hna)].
      * destruct (Hs1 a Ha') as [?|(n & Hn & Hna)]; [now left|].
        right. exists x, n. split; [now left|]. auto.
      * right. exists y, n. split; [now right|]. auto.
Qed.

Lemma allows_undef_ok o : search_ok o.
Proof.
  induction o as [a k ops IH] using Operation_ind'.
  intros seen seen' b Hrun Hcons Hseen.
  rewrite allows_undef_eq in Hrun.
  destruct (decide (a ∈ seen)) as [Ha|Ha].
  - injection Hrun as <- <-.
    rewrite (Hseen (Op a k ops) (subtree_self _) Ha). auto.
  - rewrite has_undef_eq. destruct (decide (k = Undefined)) as [Hk|Hk].
    + injection Hrun as <- <-. rewrite bool_decide_eq_true_2 by exact Hk.
      split; [reflexivity|]. intros a' Ha'.
      apply elem_of_union in Ha'. destruct Ha' as [Ha'|Ha']; [|now left].
      apply elem_of_singleton in Ha'. subst a'.
      right. exists (Op a k ops). split; [apply subtree_self|reflexivity].
    + rewrite bool_decide_eq_false_2 by exact Hk. cbn [orb].
      destruct (allows_undef_any_ok ops IH (Op a k ops)
                  (fun x n Hx Hn => subtree_operand a k ops x n Hx Hn) Hcons
                  ({[a]} ∪ seen) seen' b Hrun) as [Hb Hs'].
      { intros x n Hx Hn Hin.
        apply elem_of_union in Hin. destruct Hin as [Hin|Hin].
        - apply elem_of_singleton in Hin. exfalso.
          apply (operand_not_parent a k ops x n Hx Hn).
          apply Hcons; [eapply subtree_operand; eauto|apply subtree_self|].
          exact Hin.
        - apply Hseen; [eapply subtree_operand; eauto|exact Hin]. }
      split; [exact Hb|].
      intros a' Ha'. destruct (Hs' a' Ha') as [Hin|(x & n & Hx & Hn & Hna)].
      * apply elem_of_union in Hin. destruct Hin as [Hin|Hin]; [|now left].
        apply elem_of_singleton in Hin. subst a'.
        right. exists (Op a k ops). split; [apply subtree_self|reflexivity].
      * right. exists n. split; [eapply subtree_operand; eauto|exact Hna].
Qed.

(** X25: where addresses identify operations, the search of
    [allows_undef_] from an empty [seen] finds an undefined value exactly
    when one lies below the operation: skipping what was seen loses
    nothing. *)
Theorem allows_undef_finds_undefined (op : Operation)
    (Hcons : consistent op) :
  fst (allows_undef_ op ∅) = has_undef op.
Proof.
  destruct (allows_undef_ op ∅) as [b seen'] eqn:E.
  destruct (allows_undef_ok op ∅ seen' b E Hcons) as [Hb _].
  - intros n _ Hin. apply elem_of_empty in Hin. destruct Hin.
  - exact Hb.
Qed.

(** An operation reached along two ways, beside an undefined value. *)
Definition shared_operand : Operation :=
  Op 0 RegConstraint
    [Op 1 (OtherKind 7) [Op 2 Constant []];
     Op 3 OutputRegister [Op 2 Constant []; Op 4 Undefined []]].

Lemma allows_undef_finds_undefined_witness :
  fst (allows_undef_ shared_operand ∅) = has_undef shared_operand /\
  allows_undef shared_operand = Some true.
Proof.
  split; [|vm_compute; reflexivity].
  apply allows_undef_finds_undefined.
  intros n1 n2 H1 H2 Ha. simpl in H1, H2.
  repeat match goal with
         | H : _ \/ _ |- _ => destruct H as [H|H]
         | H : False |- _ => destruct H
         end; subst; try reflexivity; discriminate Ha.
Defined.

End Shapes.
